(** * Closest facet with consistent orientation, and ray-cast patch flags

    A shallow embedding of

      - [include/igl/copyleft/cgal/closest_facet.cpp]
      - the flag-assignment tail of [include/igl/embree/reorient_facets_raycast.cpp]

    Coordinates are exact rationals ([Q]), as in the instantiation of the
    template with [CGAL::Lazy_exact_nt<CGAL::Gmpq>].  Machine integers are
    [Z] with the conversions written out.  Code that can throw, trip an
    assertion or index out of range returns an [outcome]. *)

From Stdlib Require Import String ZArith QArith List Bool Lia Lqa Permutation.
Import ListNotations.

Open Scope Z_scope.

(* ================================================================== *)
(** ** Outcomes of fallible code *)

(** The [std::runtime_error]s thrown by [closest_facet]. *)
Inductive exn : Type :=
| EmptyMesh                 (* "Closest facet cannot be computed on empty mesh." *)
| DegeneratedTriangles      (* "Input facet components contains degenerated triangles" *)
| SelfIntersection          (* "It seems input mesh contains self intersection" *)
| UnknownCGALState          (* "Unknown CGAL state." *)
| IncorrectConnectivity     (* "Cannot compute orientation due to incorrect connectivity" *)
| DegeneratedFaces          (* "Input mesh contains degenerated faces" *)
| UnknownElementType        (* "Unknown element type." *)
| OrderFacetsFailure.       (* anything thrown by order_facets_around_edge *)

Definition what (e : exn) : string :=
  match e with
  | EmptyMesh => "Closest facet cannot be computed on empty mesh."
  | DegeneratedTriangles => "Input facet components contains degenerated triangles"
  | SelfIntersection => "It seems input mesh contains self intersection"
  | UnknownCGALState => "Unknown CGAL state."
  | IncorrectConnectivity => "Cannot compute orientation due to incorrect connectivity"
  | DegeneratedFaces => "Input mesh contains degenerated faces"
  | UnknownElementType => "Unknown element type."
  | OrderFacetsFailure => "order_facets_around_edge"
  end.

(** The [assert]s of the file, and Eigen's own index assertion. *)
Inductive assertion : Type :=
| AssertIntersectedNonEmpty   (* assert(num_intersected_faces >= 1) *)
| AssertNotCollinear          (* assert(!CGAL::collinear(query_point, adj_points[i], closest_point)) *)
| AssertEdgeFound             (* assert(d != std::numeric_limits<size_t>::max()) *)
| AssertEigenIndex.           (* eigen_assert(index in range) *)

(** [Ok]: normal return.  [Throw]: a C++ exception leaves the function.
    [Abort]: a failed assertion ends the process.  [Undefined]: the
    program has performed an out-of-range access with no check in force. *)
Inductive outcome (A : Type) : Type :=
| Ok (a : A)
| Throw (e : exn)
| Abort (a : assertion)
| Undefined.
Arguments Ok {A} a.
Arguments Throw {A} e.
Arguments Abort {A} a.
Arguments Undefined {A}.

Definition bind {A B} (m : outcome A) (k : A -> outcome B) : outcome B :=
  match m with
  | Ok a => k a
  | Throw e => Throw e
  | Abort a => Abort a
  | Undefined => Undefined
  end.

Notation "x <- m ;; k" := (bind m (fun x => k))
  (at level 61, m at next level, right associativity).
Notation "' pat <- m ;; k" := (bind m (fun x => match x with pat => k end))
  (at level 61, pat pattern, m at next level, right associativity).

(** [std::transform] with a body that may fail: elements are processed
    front to back and the first failure leaves the loop. *)
Fixpoint mapM {A B} (f : A -> outcome B) (l : list A) : outcome (list B) :=
  match l with
  | [] => Ok []
  | a :: l' => b <- f a ;; bs <- mapM f l' ;; Ok (b :: bs)
  end.

Definition is_ok {A} (m : outcome A) : bool :=
  match m with Ok _ => true | _ => false end.

(* ================================================================== *)
(** ** Machine integers *)

Definition SIZE_MAX : Z := 2 ^ 64 - 1.

(** [int] (or any signed value) converted to [size_t]. *)
Definition to_size_t (z : Z) : Z := z mod 2 ^ 64.

(** [size_t] converted to [int] (two's complement truncation). *)
Definition to_int (z : Z) : Z := (z + 2 ^ 31) mod 2 ^ 32 - 2 ^ 31.

(** [size_t] converted to [Eigen::Index], a 64-bit signed integer. *)
Definition to_index (z : Z) : Z := if z <? 2 ^ 63 then z else z - 2 ^ 64.

Arguments to_size_t : simpl never.
Arguments to_int : simpl never.
Arguments to_index : simpl never.

(* ================================================================== *)
(** ** The exact kernel

    Points, planes and the predicates of
    [CGAL::Exact_predicates_exact_constructions_kernel], over [Q]. *)

Module Kernel.

Record Point_3 : Type := mkPoint { px : Q; py : Q; pz : Q }.

(** [CGAL::Sign], also used as [Orientation] and [Oriented_side]:
    NEGATIVE = ON_NEGATIVE_SIDE = -1, COPLANAR = ON_ORIENTED_BOUNDARY = 0,
    POSITIVE = ON_POSITIVE_SIDE = 1. *)
Inductive Sign : Type := NEGATIVE | ZERO | POSITIVE.

Definition Sign_eqb (a b : Sign) : bool :=
  match a, b with
  | NEGATIVE, NEGATIVE | ZERO, ZERO | POSITIVE, POSITIVE => true
  | _, _ => false
  end.

Definition sign_of (x : Q) : Sign :=
  match (x ?= 0)%Q with
  | Lt => NEGATIVE
  | Eq => ZERO
  | Gt => POSITIVE
  end.

(** [p == q] on [Point_3]. *)
Definition point_eqb (p q : Point_3) : bool :=
  Qeq_bool (px p) (px q) && Qeq_bool (py p) (py q) && Qeq_bool (pz p) (pz q).

(** Components of the cross product (q - p) x (r - p). *)
Definition cross_x (p q r : Point_3) : Q :=
  ((py q - py p) * (pz r - pz p) - (pz q - pz p) * (py r - py p))%Q.
Definition cross_y (p q r : Point_3) : Q :=
  ((pz q - pz p) * (px r - px p) - (px q - px p) * (pz r - pz p))%Q.
Definition cross_z (p q r : Point_3) : Q :=
  ((px q - px p) * (py r - py p) - (py q - py p) * (px r - px p))%Q.

(** [CGAL::collinear(p, q, r)]. *)
Definition collinear (p q r : Point_3) : bool :=
  Qeq_bool (cross_x p q r) 0 && Qeq_bool (cross_y p q r) 0
  && Qeq_bool (cross_z p q r) 0.

(** The determinant | q-p  r-p  s-p |. *)
Definition det3 (p q r s : Point_3) : Q :=
  (cross_x p q r * (px s - px p) + cross_y p q r * (py s - py p)
   + cross_z p q r * (pz s - pz p))%Q.

(** [CGAL::orientation(p, q, r, s)]. *)
Definition orientation (p q r s : Point_3) : Sign := sign_of (det3 p q r s).

Definition Triangle : Type := (Point_3 * Point_3 * Point_3)%type.

Definition vertex (t : Triangle) (k : nat) : Point_3 :=
  match t, k with
  | (a, _, _), O => a
  | (_, b, _), S O => b
  | (_, _, c), _ => c
  end.

(** [Triangle_3::is_degenerate()]. *)
Definition is_degenerate (t : Triangle) : bool :=
  collinear (vertex t 0) (vertex t 1) (vertex t 2).

(** Four times the squared area of a triangle. *)
Definition doublearea_sq (t : Triangle) : Q :=
  let '(p, q, r) := t in
  (cross_x p q r * cross_x p q r + cross_y p q r * cross_y p q r
   + cross_z p q r * cross_z p q r)%Q.

(** [Plane_3]: a x + b y + c z + d = 0. *)
Record Plane_3 : Type := mkPlane { pa : Q; pb : Q; pc : Q; pd : Q }.

(** [Plane_3(p, q, r)]: the plane through p, q, r, whose positive side
    sees them counterclockwise. *)
Definition plane_from_points (p q r : Point_3) : Plane_3 :=
  let a := cross_x p q r in
  let b := cross_y p q r in
  let c := cross_z p q r in
  mkPlane a b c (- a * px p - b * py p - c * pz p)%Q.

(** [Plane_3::is_degenerate()]. *)
Definition plane_is_degenerate (h : Plane_3) : bool :=
  Qeq_bool (pa h) 0 && Qeq_bool (pb h) 0 && Qeq_bool (pc h) 0.

(** [Plane_3::oriented_side(p)]. *)
Definition oriented_side (h : Plane_3) (p : Point_3) : Sign :=
  sign_of (pa h * px p + pb h * py p + pc h * pz p + pd h)%Q.

Definition Segment_3 : Type := (Point_3 * Point_3)%type.

Definition source (g : Segment_3) : Point_3 := fst g.

(** The point ((a + b) * 0.5) coordinate by coordinate. *)
Definition midpoint (a b : Point_3) : Point_3 :=
  mkPoint ((px a + px b) * (1 # 2))%Q ((py a + py b) * (1 # 2))%Q
          ((pz a + pz b) * (1 # 2))%Q.

(** [p] is a convex combination of the corners of [t]. *)
Definition on_triangle (p : Point_3) (t : Triangle) : Prop :=
  exists a b c : Q,
    (0 <= a /\ 0 <= b /\ 0 <= c /\ a + b + c == 1)%Q /\
    (px p == a * px (vertex t 0) + b * px (vertex t 1) + c * px (vertex t 2))%Q /\
    (py p == a * py (vertex t 0) + b * py (vertex t 1) + c * py (vertex t 2))%Q /\
    (pz p == a * pz (vertex t 0) + b * pz (vertex t 1) + c * pz (vertex t 2))%Q.

End Kernel.
Import Kernel.

(* ================================================================== *)
(** ** Matrices and vectors *)

(** A row of [F]: three [int] vertex indices. *)
Definition Facet : Type := (Z * Z * Z)%type.

Definition fget (f : Facet) (k : Z) : Z :=
  let '(a, b, c) := f in
  if k =? 0 then a else if k =? 1 then b else c.

(** [std::vector::operator[]]: no range check. *)
Definition vector_at {A} (v : list A) (i : Z) : outcome A :=
  if (0 <=? i) && (i <? Z.of_nat (length v)) then
    match nth_error v (Z.to_nat i) with
    | Some a => Ok a
    | None => Undefined
    end
  else Undefined.

(* ================================================================== *)
(** ** closest_facet.cpp *)

Inductive ElementType : Type := VERTEX | EDGE | FACE.

Section ClosestFacet.

(** [NDEBUG]: when set, [assert] and [eigen_assert] compile to nothing. *)
Variable ndebug : bool.

(** The spatial index ([CGAL::AABB_tree]) over the triangle list, and the
    routine [order_facets_around_edge]; [closest_facet.cpp] only calls them.
    A primitive is named by its offset [itr - triangles.begin()]. *)
Variable closest_point_and_primitive : list Triangle -> Point_3 -> Point_3 * Z.
Variable all_intersected_primitives : list Triangle -> Segment_3 -> list Z.
Variable order_facets_around_edge :
  list Point_3 -> list Facet -> Z -> Z -> list Z -> Point_3 -> outcome (list Z).

Definition assert_ (a : assertion) (c : bool) : outcome unit :=
  if ndebug || c then Ok tt else Abort a.

(** Coefficient or row access of an Eigen matrix: the index is checked
    by [eigen_assert] only. *)
Definition eigen_at {A} (M : list A) (i : Z) : outcome A :=
  if (0 <=? i) && (i <? Z.of_nat (length M)) then
    match nth_error M (Z.to_nat i) with
    | Some a => Ok a
    | None => Undefined
    end
  else if ndebug then Undefined else Abort AssertEigenIndex.

Variable V : list Point_3.
Variable F : list Facet.
Variable I : list Z.
Variable P : list Point_3.

(** The body of the loop that fills [triangles], for the entry [I(i,0)]. *)
Definition make_triangle (fi : Z) : outcome Triangle :=
  f <- eigen_at F fi ;;
  p0 <- eigen_at V (fget f 0) ;;
  p1 <- eigen_at V (fget f 1) ;;
  p2 <- eigen_at V (fget f 2) ;;
  if is_degenerate (p0, p1, p2) then Throw DegeneratedTriangles
  else Ok (p0, p1, p2).

Definition build_triangles : outcome (list Triangle) := mapM make_triangle I.

Definition on_the_positive_side (fid : Z) (p : Point_3) : outcome bool :=
  f <- eigen_at F (to_index fid) ;;
  v0 <- eigen_at V (fget f 0) ;;
  v1 <- eigen_at V (fget f 1) ;;
  v2 <- eigen_at V (fget f 2) ;;
  match orientation v0 v1 v2 p with
  | POSITIVE => Ok true
  | NEGATIVE => Ok false
  | ZERO => Throw SelfIntersection
  end.

(** The six tests of [get_orientation], in the order of the source. *)
Definition edge_match (f : Facet) (s d : Z) (k : nat) : bool :=
  match k with
  | 0%nat => (to_size_t (fget f 0) =? s) && (to_size_t (fget f 1) =? d)
  | 1%nat => (to_size_t (fget f 1) =? s) && (to_size_t (fget f 2) =? d)
  | 2%nat => (to_size_t (fget f 2) =? s) && (to_size_t (fget f 0) =? d)
  | 3%nat => (to_size_t (fget f 0) =? d) && (to_size_t (fget f 1) =? s)
  | 4%nat => (to_size_t (fget f 1) =? d) && (to_size_t (fget f 2) =? s)
  | _ => (to_size_t (fget f 2) =? d) && (to_size_t (fget f 0) =? s)
  end.

Definition facet_orientation (f : Facet) (s d : Z) : outcome bool :=
  if edge_match f s d 0 then Ok false
  else if edge_match f s d 1 then Ok false
  else if edge_match f s d 2 then Ok false
  else if edge_match f s d 3 then Ok true
  else if edge_match f s d 4 then Ok true
  else if edge_match f s d 5 then Ok true
  else Throw IncorrectConnectivity.

Definition get_orientation (fid s d : Z) : outcome bool :=
  f <- eigen_at F (to_index fid) ;;
  facet_orientation f s d.

(** [(index+1) * (ori ? 1 : -1)], computed in [size_t] and returned as
    [int]. *)
Definition index_to_signed_index (index : Z) (ori : bool) : Z :=
  to_int (((index + 1) mod 2 ^ 64 * to_size_t (if ori then 1 else -1)) mod 2 ^ 64).

Definition determine_element_type (triangles : list Triangle) (p : Point_3)
    (fid : Z) : outcome (ElementType * Z) :=
  tri <- vector_at triangles fid ;;
  let p0 := vertex tri 0 in
  let p1 := vertex tri 1 in
  let p2 := vertex tri 2 in
  if point_eqb p p0 then Ok (VERTEX, 0)
  else if point_eqb p p1 then Ok (VERTEX, 1)
  else if point_eqb p p2 then Ok (VERTEX, 2)
  else if collinear p0 p1 p then Ok (EDGE, 2)
  else if collinear p1 p2 p then Ok (EDGE, 0)
  else if collinear p2 p0 p then Ok (EDGE, 1)
  else Ok (FACE, 0).

(** The facet ids [I(itr - triangles.begin(), 0)] of a list of
    primitives. *)
Definition primitive_indices (prims : list Z) : outcome (list Z) :=
  mapM (fun itr => i <- eigen_at I itr ;; Ok (to_size_t i)) prims.

Definition signed_indices (s d : Z) (indices : list Z) : outcome (list Z) :=
  mapM (fun index => o <- get_orientation index s d ;;
                     Ok (index_to_signed_index index o)) indices.

Definition process_edge_case (triangles : list Triangle)
    (query_idx s d preferred_facet : Z) : outcome (Z * bool) :=
  vs <- eigen_at V (to_index s) ;;
  vd <- eigen_at V (to_index d) ;;
  let mid_edge_point := midpoint vs vd in
  query_point <- eigen_at P (to_index query_idx) ;;
  let intersected_faces :=
    all_intersected_primitives triangles (mid_edge_point, query_point) in
  let num_intersected_faces := Z.of_nat (length intersected_faces) in
  intersected_face_indices <- primitive_indices intersected_faces ;;
  intersected_face_signed_indices <-
    signed_indices s d intersected_face_indices ;;
  _ <- assert_ AssertIntersectedNonEmpty (1 <=? num_intersected_faces) ;;
  if num_intersected_faces =? 1 then
    fid <- vector_at intersected_face_indices 0 ;;
    orientation <- on_the_positive_side fid query_point ;;
    Ok (fid, orientation)
  else
    order <- order_facets_around_edge V F s d
               intersected_face_signed_indices query_point ;;
    o0 <- eigen_at order 0 ;;
    let first := to_size_t o0 in
    ol <- eigen_at order (to_index (to_size_t (num_intersected_faces - 1))) ;;
    let last := to_size_t ol in
    i_first <- vector_at intersected_face_indices first ;;
    if i_first =? preferred_facet then
      sg <- vector_at intersected_face_signed_indices first ;;
      Ok (i_first, sg <? 0)
    else
      i_last <- vector_at intersected_face_indices last ;;
      if i_last =? preferred_facet then
        sg <- vector_at intersected_face_signed_indices last ;;
        Ok (i_last, sg >? 0)
      else
        sg <- vector_at intersected_face_signed_indices first ;;
        Ok (i_first, sg <? 0).

Definition process_face_case (triangles : list Triangle)
    (query_idx fid : Z) : outcome (Z * bool) :=
  fi <- eigen_at I (to_index fid) ;;
  f <- eigen_at F fi ;;
  process_edge_case triangles query_idx
    (to_size_t (fget f 0)) (to_size_t (fget f 1)) (to_size_t fi).

(** [std::set<size_t>::insert]: the set is kept as a strictly ascending
    list, the order in which [std::copy] later reads it. *)
Fixpoint set_insert (x : Z) (l : list Z) : list Z :=
  match l with
  | [] => [x]
  | y :: l' =>
      if x <? y then x :: l
      else if x =? y then l
      else y :: set_insert x l'
  end.

Definition insert_unless (s : Z) (v : Z) (acc : list Z) : list Z :=
  if to_size_t v =? s then acc else set_insert (to_size_t v) acc.

Definition add_adjacent (s : Z) (acc : list Z) (f : Facet) : list Z :=
  insert_unless s (fget f 2) (insert_unless s (fget f 1)
    (insert_unless s (fget f 0) acc)).

Fixpoint collect_adjacent (s : Z) (indices : list Z) (acc : list Z)
    : outcome (list Z) :=
  match indices with
  | [] => Ok acc
  | fid :: rest =>
      f <- eigen_at F (to_index fid) ;;
      collect_adjacent s rest (add_adjacent s acc f)
  end.

Definition count_side (side : Sign) (separator : Plane_3)
    (pts : list Point_3) : nat :=
  length (filter (fun p => Sign_eqb (oriented_side separator p) side) pts).

(** A plane is on the exterior if all adj_points lie on or to one side of
    the plane and the query point is strictly on the other. *)
Definition is_on_exterior (adj_points : list Point_3) (query_point : Point_3)
    (separator : Plane_3) : bool :=
  let positive := count_side POSITIVE separator adj_points in
  let negative := count_side NEGATIVE separator adj_points in
  let query_orientation := oriented_side separator query_point in
  (Nat.eqb positive 0 && Sign_eqb query_orientation POSITIVE)
  || (Nat.eqb negative 0 && Sign_eqb query_orientation NEGATIVE).

(** The loop over [j]; [true] when it is left through [break]. *)
Fixpoint search_j (adj_points : list Point_3)
    (closest_point query_point pi : Point_3) (pjs : list Point_3)
    : outcome bool :=
  match pjs with
  | [] => Ok false
  | pj :: rest =>
      let separator := plane_from_points closest_point pi pj in
      if plane_is_degenerate separator then Throw DegeneratedFaces
      else if is_on_exterior adj_points query_point separator then
        _ <- assert_ AssertNotCollinear
               (negb (collinear query_point pi closest_point)) ;;
        Ok true
      else search_j adj_points closest_point query_point pi rest
  end.

(** The loop over [i], over the vertices [adj_vertices[i..]] and their
    points; the accumulator is the variable [d]. *)
Fixpoint search_i (adj_points : list Point_3)
    (closest_point query_point : Point_3)
    (vs : list Z) (ps : list Point_3) (d : Z) : outcome Z :=
  match vs, ps with
  | vi :: vs', pi :: ps' =>
      found <- search_j adj_points closest_point query_point pi ps' ;;
      search_i adj_points closest_point query_point vs' ps'
        (if found then vi else d)
  | _, _ => Ok d
  end.

Definition find_second_vertex (s : Z) (closest_point query_point : Point_3)
    (intersected_face_indices : list Z) : outcome Z :=
  adj_vertices <- collect_adjacent s intersected_face_indices [] ;;
  adj_points <- mapM (fun vid => eigen_at V (to_index vid)) adj_vertices ;;
  search_i adj_points closest_point query_point adj_vertices adj_points SIZE_MAX.

Definition process_vertex_case (triangles : list Triangle)
    (query_idx s preferred_facet : Z) : outcome (Z * bool) :=
  closest_point <- eigen_at V (to_index s) ;;
  query_point <- eigen_at P (to_index query_idx) ;;
  let intersected_faces :=
    all_intersected_primitives triangles (closest_point, query_point) in
  intersected_face_indices <- primitive_indices intersected_faces ;;
  d <- find_second_vertex s closest_point query_point
         intersected_face_indices ;;
  _ <- assert_ AssertEdgeFound (negb (d =? SIZE_MAX)) ;;
  process_edge_case triangles query_idx s d preferred_facet.

(** The body of the loop over the queries. *)
Definition resolve (triangles : list Triangle) (i : Z) : outcome (Z * bool) :=
  query <- eigen_at P (to_index i) ;;
  let projection := closest_point_and_primitive triangles query in
  let closest_point := fst projection in
  let fid := to_size_t (snd projection) in
  _ <- primitive_indices
         (all_intersected_primitives triangles (closest_point, query)) ;;
  ' (element_type, element_index) <-
      determine_element_type triangles closest_point fid ;;
  match element_type with
  | VERTEX =>
      fi <- eigen_at I (to_index fid) ;;
      f <- eigen_at F fi ;;
      let s := to_size_t (fget f element_index) in
      process_vertex_case triangles i s (to_size_t fi)
  | EDGE =>
      fi <- eigen_at I (to_index fid) ;;
      f <- eigen_at F fi ;;
      let s := to_size_t (fget f ((element_index + 1) mod 3)) in
      let d := to_size_t (fget f ((element_index + 2) mod 3)) in
      process_edge_case triangles i s d (to_size_t fi)
  | FACE => process_face_case triangles i fid
  end.

(** The output columns [R] and [S]; [None] is a coefficient that has
    not been written since the last reallocation. *)
Record outputs : Type := mkOut { out_R : list (option Z); out_S : list (option Z) }.

Definition resize (n : nat) (M : list (option Z)) : list (option Z) :=
  if Nat.eqb (length M) n then M else repeat None n.

Fixpoint set_at {A} (l : list A) (i : nat) (a : A) : list A :=
  match l, i with
  | [], _ => []
  | _ :: l', O => a :: l'
  | x :: l', S i' => x :: set_at l' i' a
  end.

Definition store (i : Z) (fid : Z) (fid_ori : bool) (out : outputs) : outputs :=
  mkOut (set_at (out_R out) (Z.to_nat i) (Some (to_int fid)))
        (set_at (out_S out) (Z.to_nat i) (Some (if fid_ori then 1 else 0))).

Fixpoint query_loop (triangles : list Triangle) (queries : list Z)
    (out : outputs) : outcome unit * outputs :=
  match queries with
  | [] => (Ok tt, out)
  | i :: rest =>
      match resolve triangles i with
      | Ok (fid, fid_ori) => query_loop triangles rest (store i fid fid_ori out)
      | Throw e => (Throw e, out)
      | Abort a => (Abort a, out)
      | Undefined => (Undefined, out)
      end
  end.

Definition closest_facet (out : outputs) : outcome unit * outputs :=
  if (Z.of_nat (length F) <=? 0) || (Z.of_nat (length I) <=? 0) then
    (Throw EmptyMesh, out)
  else
    match build_triangles with
    | Ok triangles =>
        let num_queries := length P in
        query_loop triangles (map Z.of_nat (seq 0 num_queries))
          (mkOut (resize num_queries (out_R out)) (resize num_queries (out_S out)))
    | Throw e => (Throw e, out)
    | Abort a => (Abort a, out)
    | Undefined => (Undefined, out)
    end.

End ClosestFacet.

(** The overload without [I]: [I.setLinSpaced(num_faces, 0, num_faces-1)]. *)
Definition closest_facet_all ndebug cpp aip ofe
    (V : list Point_3) (F : list Facet) (P : list Point_3) (out : outputs) :=
  closest_facet ndebug cpp aip ofe V F
    (map Z.of_nat (seq 0 (length F))) P out.

(* ================================================================== *)
(** ** reorient_facets_raycast.cpp: votes and flags

    The patch labels [C] come from [bfs_orient], the rays from the random
    generator and the hits from the Embree intersector; none of them is
    part of the file, so the embedding takes [C] and, for every generated
    ray, its face with the two hit lists that [intersectRay] returned.
    [float] values are kept abstract.  The votes of the parallel loop are
    accumulated in ray order. *)

Section ReorientFacetsRaycast.

Variable ndebug : bool.
Variable float : Type.
Variable float_zero : float.
Variable float_add : float -> float -> float.
Variable float_lt : float -> float -> bool.

Record Hit : Type := mkHit { hit_id : Z; hit_t : float }.

(** [C.maxCoeff()]. *)
Definition maxCoeff (C : list Z) : outcome Z :=
  match C with
  | [] => if ndebug then Undefined else Abort AssertEigenIndex
  | c :: rest => Ok (fold_left Z.max rest c)
  end.

(** [if (!hits.empty() && hits[0].id == f) hits.erase(hits.begin());] *)
Definition erase_self (f : Z) (hits : list Hit) : list Hit :=
  match hits with
  | h :: rest => if hit_id h =? f then rest else hits
  | [] => []
  end.

Record votes : Type := mkVotes {
  C_vote_distance : list (float * float);
  C_vote_infinity : list (Z * Z);
  C_vote_parity : list (Z * Z)
}.

Definition update_at {A} (v : list A) (c : Z) (g : A -> A) : outcome (list A) :=
  x <- vector_at v c ;; Ok (set_at v (Z.to_nat c) (g x)).

(** One iteration of the shooting loop. *)
Definition shoot (use_parity : bool) (C : list Z) (v : votes)
    (ray : Z * list Hit * list Hit) : outcome votes :=
  let '(f, front, back) := ray in
  c <- eigen_at ndebug C f ;;
  let hits_front := erase_self f front in
  let hits_back := erase_self f back in
  if use_parity then
    vp <- update_at (C_vote_parity v) c
            (fun p => (fst p + Z.of_nat (length hits_front) mod 2, snd p)) ;;
    vp' <- update_at vp c
            (fun p => (fst p, snd p + Z.of_nat (length hits_back) mod 2)) ;;
    Ok (mkVotes (C_vote_distance v) (C_vote_infinity v) vp')
  else
    ' (vd, vi) <-
      match hits_front with
      | [] =>
          vi <- update_at (C_vote_infinity v) c (fun p => (fst p + 1, snd p)) ;;
          Ok (C_vote_distance v, vi)
      | h :: _ =>
          vd <- update_at (C_vote_distance v) c
                  (fun p => (float_add (fst p) (hit_t h), snd p)) ;;
          Ok (vd, C_vote_infinity v)
      end ;;
    match hits_back with
    | [] =>
        vi' <- update_at vi c (fun p => (fst p, snd p + 1)) ;;
        Ok (mkVotes vd vi' (C_vote_parity v))
    | h :: _ =>
        vd' <- update_at vd c
                 (fun p => (fst p, float_add (snd p) (hit_t h))) ;;
        Ok (mkVotes vd' vi (C_vote_parity v))
    end.

Fixpoint shoot_all (use_parity : bool) (C : list Z) (v : votes)
    (rays : list (Z * list Hit * list Hit)) : outcome votes :=
  match rays with
  | [] => Ok v
  | ray :: rest =>
      v' <- shoot use_parity C v ray ;; shoot_all use_parity C v' rest
  end.

(** The value stored in [I(f)] for a face of patch [c]. *)
Definition flag (use_parity : bool) (v : votes) (c : Z) : outcome Z :=
  if use_parity then
    p <- vector_at (C_vote_parity v) c ;;
    Ok (if fst p >? snd p then 1 else 0)
  else
    i <- vector_at (C_vote_infinity v) c ;;
    d <- vector_at (C_vote_distance v) c ;;
    Ok (if ((fst i =? snd i) && float_lt (fst d) (snd d)) || (fst i <? snd i)
        then 1 else 0).

(** From [num_cc] on: the vote tables, the shooting loop and the loop
    that fills [I]; [m] is [F.rows()]. *)
Definition reorient_facets_raycast (m : nat) (C : list Z) (use_parity : bool)
    (rays : list (Z * list Hit * list Hit)) : outcome (list Z) :=
  mx <- maxCoeff C ;;
  let num_cc := Z.to_nat (mx + 1) in
  let v0 := mkVotes (repeat (float_zero, float_zero) num_cc)
                    (repeat (0, 0) num_cc) (repeat (0, 0) num_cc) in
  v <- shoot_all use_parity C v0 rays ;;
  mapM (fun f => c <- eigen_at ndebug C f ;; flag use_parity v c)
       (map Z.of_nat (seq 0 m)).

End ReorientFacetsRaycast.

(* ================================================================== *)
(** ** Vocabulary of the statements *)

(** The value fits the C++ type [int]. *)
Definition int_range (z : Z) : Prop := - 2 ^ 31 <= z < 2 ^ 31.

Definition facet_ints (f : Facet) : Prop :=
  int_range (fget f 0) /\ int_range (fget f 1) /\ int_range (fget f 2).

Definition facet_distinct (f : Facet) : Prop :=
  fget f 0 <> fget f 1 /\ fget f 1 <> fget f 2 /\ fget f 2 <> fget f 0.

(** The tests of [get_orientation] that hold for facet [f] and edge
    (s,d): 0, 1, 2 are the forward matches, 3, 4, 5 the reversed ones. *)
Definition edge_matches (f : Facet) (s d : Z) : list nat :=
  filter (edge_match f s d) (seq 0 6).

(** Position of the first [true]. *)
Fixpoint first_true (l : list bool) : option nat :=
  match l with
  | [] => None
  | b :: l' => if b then Some 0%nat else option_map S (first_true l')
  end.

(** The classification of step 2, written from its description: vertex
    0, 1, 2 first, then the edges (0,1), (1,2), (2,0), else the face.
    With an edge goes the index of the corner opposite to it. *)
Definition classification (tri : Triangle) (p : Point_3) : ElementType * Z :=
  match first_true [point_eqb p (vertex tri 0); point_eqb p (vertex tri 1);
                    point_eqb p (vertex tri 2)] with
  | Some k => (VERTEX, Z.of_nat k)
  | None =>
      match first_true [collinear (vertex tri 0) (vertex tri 1) p;
                        collinear (vertex tri 1) (vertex tri 2) p;
                        collinear (vertex tri 2) (vertex tri 0) p] with
      | Some e => (EDGE, (Z.of_nat e + 2) mod 3)
      | None => (FACE, 0)
      end
  end.

(** Entry [fi] of [I] names a row of [F] whose three indices name rows
    of [V]; [t] is the triangle the constructor builds for it. *)
Definition facet_triangle (ndebug : bool) (V : list Point_3) (F : list Facet)
    (fi : Z) (t : Triangle) : Prop :=
  exists f p0 p1 p2,
    eigen_at ndebug F fi = Ok f
    /\ eigen_at ndebug V (fget f 0) = Ok p0
    /\ eigen_at ndebug V (fget f 1) = Ok p1
    /\ eigen_at ndebug V (fget f 2) = Ok p2
    /\ t = (p0, p1, p2).

(** The three vote tables have one entry per patch. *)
Definition votes_sized (float : Type) (n : nat) (v : votes float) : Prop :=
  length (C_vote_distance float v) = n
  /\ length (C_vote_infinity float v) = n
  /\ length (C_vote_parity float v) = n.

(** What the statements about whole queries assume of the spatial
    index: the nearest primitive and the intersected primitives are
    offsets into the triangle list, no primitive is reported twice, and a
    triangle that contains the source of the segment is reported. *)
Record index_contract
    (closest_point_and_primitive : list Triangle -> Point_3 -> Point_3 * Z)
    (all_intersected_primitives : list Triangle -> Segment_3 -> list Z)
    : Prop := {
  closest_in_range : forall ts q, ts <> [] ->
    0 <= snd (closest_point_and_primitive ts q) < Z.of_nat (length ts);
  intersected_in_range : forall ts g i,
    In i (all_intersected_primitives ts g) -> 0 <= i < Z.of_nat (length ts);
  intersected_nodup : forall ts g, NoDup (all_intersected_primitives ts g);
  intersected_covers_source : forall ts g i t,
    nth_error ts i = Some t -> on_triangle (source g) t ->
    In (Z.of_nat i) (all_intersected_primitives ts g)
}.


(** C1 as the specification words it: in the case of several intersected
    facets the returned facet is one of the entries, and the returned
    orientation is "that entry's signed index is negative". *)
Definition orientation_is_negative_sign : Prop :=
  forall ndebug aip ofe V F I P triangles query_idx s d preferred_facet
         vs vd q indices signed fid ori,
    eigen_at ndebug V (to_index s) = Ok vs ->
    eigen_at ndebug V (to_index d) = Ok vd ->
    eigen_at ndebug P (to_index query_idx) = Ok q ->
    primitive_indices ndebug I (aip triangles (midpoint vs vd, q)) = Ok indices ->
    (2 <= length indices)%nat ->
    signed_indices ndebug F s d indices = Ok signed ->
    process_edge_case ndebug aip ofe V F I P triangles query_idx s d
      preferred_facet = Ok (fid, ori) ->
    exists k sg,
      nth_error indices k = Some fid /\ nth_error signed k = Some sg
      /\ ori = (sg <? 0).

(** Modelled from the spec: the Spatial Query Index, "nearest point and
    owning primitive for query point" and "all primitives intersected by
    a given segment".  The answers follow the geometry: the nearest point
    does not depend on the order of the triangle list, and whether a
    triangle is reported for a segment depends on the segment and on the
    triangle, not on its place in the list; no primitive is reported
    twice.  Which primitive owns the nearest point is left open. *)
Record index_by_geometry
    (closest_point_and_primitive : list Triangle -> Point_3 -> Point_3 * Z)
    (all_intersected_primitives : list Triangle -> Segment_3 -> list Z)
    : Prop := {
  nearest_point_by_geometry : forall ts ts' q,
    Permutation ts ts' ->
    fst (closest_point_and_primitive ts q)
    = fst (closest_point_and_primitive ts' q);
  intersected_by_shape :
    exists meets : Segment_3 -> Triangle -> bool,
      forall ts g,
        NoDup (all_intersected_primitives ts g)
        /\ forall k, In k (all_intersected_primitives ts g) <->
             0 <= k /\ exists t, nth_error ts (Z.to_nat k) = Some t
                                 /\ meets g t = true
}.

(** The signed facet references in the order that [order] gives them;
    an entry of [order] is used as a [size_t] position. *)
Definition in_order (signed order : list Z) : list Z :=
  map (fun o => nth (Z.to_nat (to_size_t o)) signed 0) order.

(** Modelled from the spec: the Angular Ordering contract of
    [order_facets_around_edge], which is not among the sources.  It
    "returns a permutation of the input facets representing their circular
    angular order around the edge axis": [order] is a permutation of the
    positions, and the references in that order, like a failure, do not
    depend on the order in which the references were passed. *)
Definition orders_by_geometry
    (order_facets_around_edge :
       list Point_3 -> list Facet -> Z -> Z -> list Z -> Point_3
       -> outcome (list Z)) : Prop :=
  forall V F s d signed signed' q,
    Permutation signed signed' ->
    match order_facets_around_edge V F s d signed q,
          order_facets_around_edge V F s d signed' q with
    | Ok order, Ok order' =>
        Permutation order (map Z.of_nat (seq 0 (length signed)))
        /\ in_order signed order = in_order signed' order'
    | Throw e, Throw e' => e = e'
    | Abort a, Abort a' => a = a'
    | Undefined, Undefined => True
    | _, _ => False
    end.

(** The facet id of an answer. *)
Definition returned_facet (r : outcome (Z * bool)) : option Z :=
  match r with Ok (fid, _) => Some fid | _ => None end.

(** C9 as the specification words it: with a spatial index and an
    ordering routine that meet their contracts, and facet ids that fit
    [int], reordering the facet subset before construction leaves the
    facet id that [resolve] returns for a query unchanged. *)
Definition subset_order_is_irrelevant : Prop :=
  forall ndebug cpp aip ofe V F I I' P ts ts' i,
    index_contract cpp aip -> index_by_geometry cpp aip ->
    orders_by_geometry ofe ->
    Forall int_range I -> Permutation I I' ->
    build_triangles ndebug V F I = Ok ts ->
    build_triangles ndebug V F I' = Ok ts' ->
    returned_facet (resolve ndebug cpp aip ofe V F I P ts i)
    = returned_facet (resolve ndebug cpp aip ofe V F I' P ts' i).

(** Squared distance between two points. *)
Definition squared_distance (p q : Point_3) : Q :=
  ((px p - px q) * (px p - px q) + (py p - py q) * (py p - py q)
   + (pz p - pz q) * (pz p - pz q))%Q.

(* ================================================================== *)
(** ** Sample meshes and index answers *)

Module Samples.

Definition pt (x y z : Z) : Point_3 :=
  mkPoint (inject_Z x) (inject_Z y) (inject_Z z).

(** An index that reports every triangle of the list; exact for the
    segments used below, which all start on every triangle they meet. *)
Definition report_all : list Triangle -> Segment_3 -> list Z :=
  fun ts _ => map Z.of_nat (seq 0 (length ts)).

(** Nearest point: corner 0 of the first triangle. *)
Definition nearest_corner0 : list Triangle -> Point_3 -> Point_3 * Z :=
  fun ts q => (match ts with t :: _ => vertex t 0 | [] => q end, 0).

(** Nearest point: the middle of edge (0,1) of the first triangle. *)
Definition nearest_mid01 : list Triangle -> Point_3 -> Point_3 * Z :=
  fun ts q =>
    (match ts with
     | t :: _ => midpoint (vertex t 0) (vertex t 1)
     | [] => q
     end, 0).

(** Angular orders: the positions as given, or reversed. *)
Definition order_as_given
    : list Point_3 -> list Facet -> Z -> Z -> list Z -> Point_3
      -> outcome (list Z) :=
  fun _ _ _ _ signed _ => Ok (map Z.of_nat (seq 0 (length signed))).

Definition order_reversed
    : list Point_3 -> list Facet -> Z -> Z -> list Z -> Point_3
      -> outcome (list Z) :=
  fun _ _ _ _ signed _ => Ok (rev (map Z.of_nat (seq 0 (length signed)))).

Definition order_never
    : list Point_3 -> list Facet -> Z -> Z -> list Z -> Point_3
      -> outcome (list Z) :=
  fun _ _ _ _ _ _ => Throw OrderFacetsFailure.

(** One triangle in the plane z = 0. *)
Definition V_tri : list Point_3 := [pt 0 0 0; pt 1 0 0; pt 0 1 0].
Definition F_tri : list Facet := [(0, 1, 2)].
Definition t_tri : Triangle := (pt 0 0 0, pt 1 0 0, pt 0 1 0).

(** Two facets along the edge (0,1), at a right angle. *)
Definition V_wedge : list Point_3 := [pt 0 0 0; pt 1 0 0; pt 0 1 0; pt 0 0 1].
Definition F_wedge : list Facet := [(0, 1, 2); (1, 0, 3)].

(** A ridge: two facets sloping down from the edge (0,1). *)
Definition V_roof : list Point_3 :=
  [pt 0 0 0; pt 1 0 0; pt 0 1 (-1); pt 1 (-1) (-1)].
Definition F_roof : list Facet := [(0, 1, 2); (1, 0, 3)].

(** A facet with a repeated corner, and a needle of zero area. *)
Definition V_flat : list Point_3 := [pt 0 0 0; pt 1 0 0; pt 2 0 0].

Definition ts_wedge : list Triangle :=
  [(pt 0 0 0, pt 1 0 0, pt 0 1 0); (pt 1 0 0, pt 0 0 0, pt 0 0 1)].
Definition ts_roof : list Triangle :=
  [(pt 0 0 0, pt 1 0 0, pt 0 1 (-1)); (pt 1 0 0, pt 0 0 0, pt 1 (-1) (-1))].

(** A query inside the wedge, and one above the middle of the ridge. *)
Definition q_wedge : Point_3 := mkPoint (1 # 2) 1 1.
Definition q_ridge : Point_3 := mkPoint (1 # 2) 0 1.
Definition mid_ridge : Point_3 := mkPoint (1 # 2) 0 0.

Definition no_out : outputs := mkOut [] [].

(** Nearest point: a point inside the first triangle of [V_tri]. *)
Definition nearest_inside : list Triangle -> Point_3 -> Point_3 * Z :=
  fun _ _ => (mkPoint (1 # 4) (1 # 4) 0, 0).

(** An index on the roof whose answers do not depend on the order of
    the triangle list: the facet with corner 0 at the origin owns the
    nearest point and is reported first. *)
Definition has_origin (t : Triangle) : bool :=
  point_eqb (vertex t 0) (pt 0 0 0).

Fixpoint positions (keep : Triangle -> bool) (ts : list Triangle) (k : Z)
    : list Z :=
  match ts with
  | [] => []
  | t :: rest =>
      if keep t then k :: positions keep rest (k + 1)
      else positions keep rest (k + 1)
  end.

Definition nearest_by_shape : list Triangle -> Point_3 -> Point_3 * Z :=
  fun ts _ => (mid_ridge, hd 0 (positions has_origin ts 0)).

Definition report_by_shape : list Triangle -> Segment_3 -> list Z :=
  fun ts _ =>
    positions has_origin ts 0 ++ positions (fun t => negb (has_origin t)) ts 0.

(** Nearest point on the roof: the middle of the ridge, owned by the
    first triangle of the list whatever its shape. *)
Definition nearest_on_ridge : list Triangle -> Point_3 -> Point_3 * Z :=
  fun _ _ => (mid_ridge, 0).

(** The triangles of the roof for the subset [1; 0]. *)
Definition ts_roof_reversed : list Triangle :=
  [(pt 1 0 0, pt 0 0 0, pt 1 (-1) (-1)); (pt 0 0 0, pt 1 0 0, pt 0 1 (-1))].

(** An ordering that does not depend on the order of its input: the
    references ascending by value, each given by its position in the
    input; a repeated reference is a tie. *)
Definition sorted_refs (signed : list Z) : list Z :=
  fold_right set_insert [] signed.

Fixpoint position_of (v : Z) (l : list Z) : Z :=
  match l with
  | [] => 0
  | x :: l' => if x =? v then 0 else 1 + position_of v l'
  end.

Definition order_by_reference
    : list Point_3 -> list Facet -> Z -> Z -> list Z -> Point_3
      -> outcome (list Z) :=
  fun _ _ _ _ signed _ =>
    let refs := sorted_refs signed in
    if Nat.eqb (length refs) (length signed)
       && (Z.of_nat (length signed) <=? 2 ^ 64)
    then Ok (map (fun v => position_of v signed) refs)
    else Throw OrderFacetsFailure.

(** Rational numbers standing in for [float] distances. *)
Definition qlt (x y : Q) : bool :=
  match (x ?= y)%Q with Lt => true | _ => false end.

Definition rays_sample : list (Z * list (Hit Q) * list (Hit Q)) :=
  [(0, [mkHit Q 1 (3 # 2)], []); (2, [], [mkHit Q 0 (1 # 1)]);
   (1, [mkHit Q 1 (0 # 1); mkHit Q 2 (1 # 2)], [])].

End Samples.

(** ** Further vocabulary *)

From Stdlib Require Import Sorted.

(** What an Eigen access with an index out of range leaves behind. *)
Definition index_failure (ndebug : bool) {A : Type} : outcome A :=
  if ndebug then Undefined else Abort AssertEigenIndex.

(** The three indices of a facet, as [size_t] values. *)
Definition facet_vertices (f : Facet) : list Z :=
  [to_size_t (fget f 0); to_size_t (fget f 1); to_size_t (fget f 2)].

(** The facet with its winding reversed: corners 0 and 1 exchanged. *)
Definition flip_winding (f : Facet) : Facet :=
  (fget f 1, fget f 0, fget f 2).

(** The facet with its corners rotated: (1, 2, 0). *)
Definition rotate_winding (f : Facet) : Facet :=
  (fget f 1, fget f 2, fget f 0).

(** The opposite side. *)
Definition opposite (s : Sign) : Sign :=
  match s with NEGATIVE => POSITIVE | ZERO => ZERO | POSITIVE => NEGATIVE end.

(** The result of a lambda that returns a [bool], with the [bool]
    negated and every failure kept. *)
Definition negated (r : outcome bool) : outcome bool :=
  match r with Ok b => Ok (negb b) | other => other end.

(** How a call ended, without its value. *)
Definition status {A : Type} (r : outcome A) : outcome unit :=
  match r with
  | Ok _ => Ok tt
  | Throw e => Throw e
  | Abort a => Abort a
  | Undefined => Undefined
  end.

(** The votes of one patch, read off the rays. *)
Section RayVotes.

Variable float : Type.
Variable float_zero : float.
Variable float_add : float -> float -> float.

Definition Ray : Type := (Z * list (Hit float) * list (Hit float))%type.

(** The ray starts on a face of patch [c]. *)
Definition in_patch (C : list Z) (c : Z) (ray : Ray) : bool :=
  let f := fst (fst ray) in
  (0 <=? f)
  && match nth_error C (Z.to_nat f) with
     | Some c' => c' =? c
     | None => false
     end.

Definition rays_of_patch (C : list Z) (c : Z) (rays : list Ray) : list Ray :=
  filter (in_patch C c) rays.

(** The hits in front of and behind the ray's own face. *)
Definition front_hits (ray : Ray) : list (Hit float) :=
  erase_self float (fst (fst ray)) (snd (fst ray)).
Definition back_hits (ray : Ray) : list (Hit float) :=
  erase_self float (fst (fst ray)) (snd ray).

(** Sum of the hit counts modulo 2. *)
Definition parity_sum (side : Ray -> list (Hit float)) (rays : list Ray)
    (start : Z) : Z :=
  fold_left (fun acc ray => acc + Z.of_nat (length (side ray)) mod 2) rays start.

(** Number of rays that hit nothing. *)
Definition escaped (side : Ray -> list (Hit float)) (rays : list Ray)
    (start : Z) : Z :=
  fold_left (fun acc ray => match side ray with [] => acc + 1 | _ => acc end)
    rays start.

(** Sum, in ray order, of the distances to the first hit. *)
Definition distance_sum (side : Ray -> list (Hit float)) (rays : list Ray)
    (start : float) : float :=
  fold_left (fun acc ray =>
               match side ray with
               | [] => acc
               | h :: _ => float_add acc (hit_t float h)
               end) rays start.

End RayVotes.

(** ** More sample data *)

Module MoreSamples.

(** The single triangle with its winding reversed, and rotated. *)
Definition F_tri_flipped : list Facet := [(1, 0, 2)].
Definition F_tri_rotated : list Facet := [(1, 2, 0)].

(** An index that reports nothing. *)
Definition report_none : list Triangle -> Segment_3 -> list Z :=
  fun _ _ => [].

(** Two queries on the single triangle: one above corner 0, one in the
    plane of the triangle. *)
Definition P_above_then_coplanar : list Point_3 :=
  [Samples.pt 0 0 1; Samples.pt (-1) (-1) 0].

(** Three facets around corner 0 of a tetrahedron. *)
Definition V_fan : list Point_3 :=
  [Samples.pt 0 0 0; Samples.pt 1 0 0; Samples.pt 0 1 0; Samples.pt 0 0 1].
Definition F_fan : list Facet := [(0, 1, 2); (0, 3, 1); (0, 2, 3)].

(** Rays that all start on faces of patch 0. *)
Definition rays_on_patch0 : list (Z * list (Hit Q) * list (Hit Q)) :=
  [(0, [mkHit Q 1 (3 # 2)], []); (1, [], [mkHit Q 2 (1 # 1)])].

End MoreSamples.

(* ================================================================== *)
(* ================================================================== *)
(** * Properties *)

(** ** Machine integers *)

Lemma to_size_t_small (z : Z) : 0 <= z < 2 ^ 64 -> to_size_t z = z.
Proof. intros H. unfold to_size_t. apply Z.mod_small. exact H. Qed.

Lemma to_size_t_neg (z : Z) : - 2 ^ 64 <= z < 0 -> to_size_t z = z + 2 ^ 64.
Proof.
  intros H. unfold to_size_t.
  symmetry. apply Z.mod_unique with (q := -1); lia.
Qed.

Lemma to_size_t_inj (x y : Z) :
  int_range x -> int_range y -> to_size_t x = to_size_t y -> x = y.
Proof.
  unfold int_range. intros Hx Hy.
  destruct (Z_lt_ge_dec x 0) as [Nx | Px];
    [rewrite (to_size_t_neg x) by lia | rewrite (to_size_t_small x) by lia];
    (destruct (Z_lt_ge_dec y 0) as [Ny | Py];
     [rewrite (to_size_t_neg y) by lia | rewrite (to_size_t_small y) by lia]);
    lia.
Qed.

Lemma to_index_small (z : Z) : 0 <= z < 2 ^ 63 -> to_index z = z.
Proof.
  intros H. unfold to_index.
  destruct (z <? 2 ^ 63) eqn:E; [reflexivity | apply Z.ltb_ge in E; lia].
Qed.

Lemma to_int_small (z : Z) : - 2 ^ 31 <= z < 2 ^ 31 -> to_int z = z.
Proof.
  intros H. unfold to_int. rewrite Z.mod_small; lia.
Qed.

(** ** Lists and sequencing *)

Lemma bind_ext {A B} (m : outcome A) (k k' : A -> outcome B) :
  (forall a, m = Ok a -> k a = k' a) -> bind m k = bind m k'.
Proof. intros H. destruct m; cbn [bind]; auto. Qed.

Lemma mapM_length {A B} (g : A -> outcome B) (l : list A) (l' : list B) :
  mapM g l = Ok l' -> length l' = length l.
Proof.
  revert l'. induction l as [| a l IH]; intros l' H; cbn in H.
  - inversion H. reflexivity.
  - destruct (g a); try discriminate H. cbn in H.
    destruct (mapM g l); try discriminate H. cbn in H.
    inversion H. cbn. f_equal. apply IH. reflexivity.
Qed.

Lemma mapM_nth {A B} (g : A -> outcome B) (l : list A) (l' : list B)
    (n : nat) (a : A) :
  mapM g l = Ok l' -> nth_error l n = Some a ->
  exists b, nth_error l' n = Some b /\ g a = Ok b.
Proof.
  revert l' n. induction l as [| x l IH]; intros l' n H Hn.
  - destruct n; discriminate Hn.
  - cbn in H. destruct (g x) as [bx | | |] eqn:Ex; try discriminate H. cbn in H.
    destruct (mapM g l) as [bs | | |]; try discriminate H. cbn in H.
    inversion H; subst l'. destruct n as [| n].
    + cbn in Hn. inversion Hn; subst. exists bx. split; [reflexivity | exact Ex].
    + cbn in Hn. cbn. apply (IH bs n eq_refl Hn).
Qed.

Lemma mapM_ok {A B} (g : A -> outcome B) (l : list A) :
  (forall x, In x l -> exists b, g x = Ok b) -> exists l', mapM g l = Ok l'.
Proof.
  induction l as [| a l IH]; intros H; cbn [mapM].
  - eauto.
  - destruct (H a (or_introl eq_refl)) as (b & Eb). rewrite Eb. cbn [bind].
    destruct IH as (l' & El'); [intros x Hx; apply H; right; exact Hx |].
    rewrite El'. cbn [bind]. eauto.
Qed.

Lemma nth_error_lt {A} (l : list A) (k : nat) :
  (k < length l)%nat -> exists a, nth_error l k = Some a.
Proof.
  intros H. destruct (nth_error l k) eqn:E; [eauto |].
  apply nth_error_None in E. lia.
Qed.

Lemma nth_error_seq_Z (m k : nat) :
  (k < m)%nat -> nth_error (map Z.of_nat (seq 0 m)) k = Some (Z.of_nat k).
Proof.
  intros H. rewrite nth_error_map, nth_error_seq.
  destruct (Nat.ltb_spec k m); [reflexivity | lia].
Qed.

Lemma vector_at_nth {A} (v : list A) (n : nat) (a : A) :
  nth_error v n = Some a -> vector_at v (Z.of_nat n) = Ok a.
Proof.
  intros H. unfold vector_at.
  assert (n < length v)%nat by (apply nth_error_Some; congruence).
  replace (0 <=? Z.of_nat n) with true by (symmetry; apply Z.leb_le; lia).
  replace (Z.of_nat n <? Z.of_nat (length v)) with true
    by (symmetry; apply Z.ltb_lt; lia).
  cbn. rewrite Nat2Z.id, H. reflexivity.
Qed.

Lemma order_entry (order : list Z) (n k : nat) :
  Permutation order (map Z.of_nat (seq 0 n)) -> (k < n)%nat ->
  exists o, nth_error order k = Some o /\ 0 <= o < Z.of_nat n.
Proof.
  intros Hperm Hk.
  assert (Hlen : length order = n).
  { rewrite (Permutation_length Hperm), length_map, length_seq. reflexivity. }
  destruct (nth_error order k) as [o |] eqn:Eo.
  - exists o. split; [reflexivity |].
    apply nth_error_In in Eo.
    apply (Permutation_in _ Hperm) in Eo.
    apply in_map_iff in Eo. destruct Eo as (j & <- & Hj).
    apply in_seq in Hj. lia.
  - apply nth_error_None in Eo. lia.
Qed.

Lemma NoDup_map_of_nat (l : list nat) : NoDup l -> NoDup (map Z.of_nat l).
Proof.
  induction 1 as [| x l Hx _ IH]; cbn [map]; constructor; [| exact IH].
  intros Hin. apply in_map_iff in Hin. destruct Hin as (y & Hy & Hin).
  apply Nat2Z.inj in Hy. subst y. contradiction.
Qed.

(** ** The exact kernel *)

Lemma sign_of_morph (x y : Q) : (x == y)%Q -> sign_of x = sign_of y.
Proof. intros H. unfold sign_of. rewrite H. reflexivity. Qed.

Lemma sign_of_zero (x : Q) : sign_of x = ZERO <-> (x == 0)%Q.
Proof.
  unfold sign_of. destruct (x ?= 0)%Q eqn:E.
  - apply Qeq_alt in E. tauto.
  - split; [discriminate |]. intros H. apply Qeq_alt in H. congruence.
  - split; [discriminate |]. intros H. apply Qeq_alt in H. congruence.
Qed.

Lemma sign_of_opp_zero (x y : Q) :
  (x == - y)%Q -> sign_of y <> ZERO -> sign_of x <> ZERO.
Proof.
  intros H Hy Hx. apply Hy. apply sign_of_zero. apply sign_of_zero in Hx. lra.
Qed.

Lemma oriented_side_is_orientation (p q r x : Point_3) :
  oriented_side (plane_from_points p q r) x = orientation p q r x.
Proof.
  unfold oriented_side, orientation, plane_from_points, det3. cbn [pa pb pc pd].
  apply sign_of_morph. ring.
Qed.

Lemma plane_is_degenerate_collinear (p q r : Point_3) :
  plane_is_degenerate (plane_from_points p q r) = collinear p q r.
Proof. reflexivity. Qed.

Lemma det3_rot (p q r x : Point_3) : (det3 q r p x == det3 p q r x)%Q.
Proof. unfold det3, cross_x, cross_y, cross_z. ring. Qed.

Lemma det3_swap (p q r x : Point_3) : (det3 q p r x == - det3 p q r x)%Q.
Proof. unfold det3, cross_x, cross_y, cross_z. ring. Qed.

Lemma det3_own (p q r : Point_3) :
  (det3 p q r p == 0 /\ det3 p q r q == 0 /\ det3 p q r r == 0)%Q.
Proof. unfold det3, cross_x, cross_y, cross_z. repeat split; ring. Qed.

(** The six planes through the corners of one triangle give the same
    "off the plane" verdict. *)
Lemma orientation_nonzero_perm (p q r x : Point_3) :
  orientation p q r x <> ZERO ->
  orientation q r p x <> ZERO /\ orientation r p q x <> ZERO
  /\ orientation q p r x <> ZERO /\ orientation p r q x <> ZERO
  /\ orientation r q p x <> ZERO.
Proof.
  unfold orientation. intros H.
  assert (R1 : sign_of (det3 q r p x) <> ZERO)
    by (rewrite (sign_of_morph _ _ (det3_rot p q r x)); exact H).
  assert (R2 : sign_of (det3 r p q x) <> ZERO)
    by (rewrite (sign_of_morph _ _ (det3_rot q r p x)); exact R1).
  repeat split; try assumption.
  - exact (sign_of_opp_zero _ _ (det3_swap p q r x) H).
  - exact (sign_of_opp_zero _ _ (det3_swap r p q x) R2).
  - exact (sign_of_opp_zero _ _ (det3_swap q r p x) R1).
Qed.

Lemma cross_rot (p q r : Point_3) :
  (cross_x q r p == cross_x p q r /\ cross_y q r p == cross_y p q r
   /\ cross_z q r p == cross_z p q r)%Q.
Proof. unfold cross_x, cross_y, cross_z. repeat split; ring. Qed.

Lemma cross_swap (p q r : Point_3) :
  (cross_x q p r == - cross_x p q r /\ cross_y q p r == - cross_y p q r
   /\ cross_z q p r == - cross_z p q r)%Q.
Proof. unfold cross_x, cross_y, cross_z. repeat split; ring. Qed.

Lemma collinear_true (p q r : Point_3) :
  collinear p q r = true <->
  (cross_x p q r == 0 /\ cross_y p q r == 0 /\ cross_z p q r == 0)%Q.
Proof.
  unfold collinear. rewrite !andb_true_iff, !Qeq_bool_iff. tauto.
Qed.

Lemma collinear_rot (p q r : Point_3) : collinear q r p = collinear p q r.
Proof.
  apply eq_true_iff_eq. rewrite !collinear_true.
  destruct (cross_rot p q r) as (Hx & Hy & Hz). rewrite Hx, Hy, Hz. tauto.
Qed.

Lemma collinear_swap (p q r : Point_3) : collinear q p r = collinear p q r.
Proof.
  apply eq_true_iff_eq. rewrite !collinear_true.
  destruct (cross_swap p q r) as (Hx & Hy & Hz). rewrite Hx, Hy, Hz.
  split; intros (A & B & C); repeat split; lra.
Qed.

Lemma collinear_false_perm (p q r : Point_3) :
  collinear p q r = false ->
  collinear q r p = false /\ collinear r p q = false
  /\ collinear q p r = false /\ collinear p r q = false
  /\ collinear r q p = false.
Proof.
  intros H.
  assert (R1 : collinear q r p = false) by (rewrite collinear_rot; exact H).
  assert (R2 : collinear r p q = false) by (rewrite collinear_rot; exact R1).
  repeat split; try assumption.
  - rewrite collinear_swap; exact H.
  - rewrite (collinear_swap r p q); exact R2.
  - rewrite (collinear_swap q r p); exact R1.
Qed.

(** A point on the line through two points of a plane lies in the plane. *)
Lemma collinear_in_plane (c a b x : Point_3) :
  collinear x a c = true -> orientation c a b x = ZERO.
Proof.
  intros H. apply collinear_true in H. destruct H as (Hx & Hy & Hz).
  unfold orientation. apply sign_of_zero.
  assert (E : (det3 c a b x ==
               (px b - px c) * cross_x x a c + (py b - py c) * cross_y x a c
               + (pz b - pz c) * cross_z x a c)%Q)
    by (unfold det3, cross_x, cross_y, cross_z; ring).
  rewrite E, Hx, Hy, Hz. ring.
Qed.

Lemma collinear_same_point (p q : Point_3) :
  collinear p p q = true /\ collinear p q q = true /\ collinear p q p = true.
Proof.
  rewrite !collinear_true. unfold cross_x, cross_y, cross_z.
  repeat split; ring.
Qed.

Lemma on_triangle_vertex (t : Triangle) (k : nat) : on_triangle (vertex t k) t.
Proof.
  destruct t as [[p q] r].
  destruct k as [| [| k]]; cbn [vertex].
  - exists 1%Q, 0%Q, 0%Q. cbn [vertex]. repeat split; try lra.
  - exists 0%Q, 1%Q, 0%Q. cbn [vertex]. repeat split; try lra.
  - exists 0%Q, 0%Q, 1%Q. cbn [vertex]. repeat split; try lra.
Qed.

Lemma on_triangle_midpoint (t : Triangle) (i j : nat) :
  on_triangle (midpoint (vertex t i) (vertex t j)) t.
Proof.
  destruct t as [[p q] r].
  destruct i as [| [| i]], j as [| [| j]]; cbn [vertex midpoint px py pz].
  - exists 1%Q, 0%Q, 0%Q. cbn. repeat split; try lra.
  - exists (1 # 2)%Q, (1 # 2)%Q, 0%Q. cbn. repeat split; try lra.
  - exists (1 # 2)%Q, 0%Q, (1 # 2)%Q. cbn. repeat split; try lra.
  - exists (1 # 2)%Q, (1 # 2)%Q, 0%Q. cbn. repeat split; try lra.
  - exists 0%Q, 1%Q, 0%Q. cbn. repeat split; try lra.
  - exists 0%Q, (1 # 2)%Q, (1 # 2)%Q. cbn. repeat split; try lra.
  - exists (1 # 2)%Q, 0%Q, (1 # 2)%Q. cbn. repeat split; try lra.
  - exists 0%Q, (1 # 2)%Q, (1 # 2)%Q. cbn. repeat split; try lra.
  - exists 0%Q, 0%Q, 1%Q. cbn. repeat split; try lra.
Qed.

Lemma Qsquare_sum_zero (x y z : Q) :
  (x * x + y * y + z * z == 0)%Q -> (x == 0 /\ y == 0 /\ z == 0)%Q.
Proof.
  intros H.
  assert (0 <= x * x)%Q by nra.
  assert (0 <= y * y)%Q by nra.
  assert (0 <= z * z)%Q by nra.
  assert (Hx : (x * x == 0)%Q) by lra.
  assert (Hy : (y * y == 0)%Q) by lra.
  assert (Hz : (z * z == 0)%Q) by lra.
  repeat split.
  - destruct (Qmult_integral _ _ Hx); assumption.
  - destruct (Qmult_integral _ _ Hy); assumption.
  - destruct (Qmult_integral _ _ Hz); assumption.
Qed.

Lemma is_degenerate_zero_area (t : Triangle) :
  is_degenerate t = true <-> (doublearea_sq t == 0)%Q.
Proof.
  destruct t as [[p q] r]. unfold is_degenerate, collinear, doublearea_sq.
  cbn [vertex]. rewrite !andb_true_iff, !Qeq_bool_iff. split.
  - intros [[Hx Hy] Hz]. rewrite Hx, Hy, Hz. reflexivity.
  - intros H. apply Qsquare_sum_zero in H. tauto.
Qed.

(** ** get_orientation and the classification *)

Lemma facet_orientation_throw (f : Facet) (s d : Z) :
  facet_orientation f s d = Throw IncorrectConnectivity <->
  edge_matches f s d = [].
Proof.
  unfold facet_orientation, edge_matches. cbn [seq filter].
  destruct (edge_match f s d 0), (edge_match f s d 1), (edge_match f s d 2),
    (edge_match f s d 3), (edge_match f s d 4), (edge_match f s d 5);
    split; intros H; try discriminate H; reflexivity.
Qed.

Lemma facet_orientation_ok (f : Facet) (s d : Z) (b : bool) :
  facet_orientation f s d = Ok b ->
  exists k rest, edge_matches f s d = k :: rest /\ b = (3 <=? k)%nat.
Proof.
  unfold facet_orientation, edge_matches. cbn [seq filter].
  destruct (edge_match f s d 0), (edge_match f s d 1), (edge_match f s d 2),
    (edge_match f s d 3), (edge_match f s d 4), (edge_match f s d 5);
    intros H; inversion H; subst; eauto.
Qed.

Lemma edge_matches_at_most_one (f : Facet) (s d : Z) :
  facet_ints f -> facet_distinct f -> (length (edge_matches f s d) <= 1)%nat.
Proof.
  destruct f as [[a b] c].
  unfold facet_ints, facet_distinct. cbn.
  intros (Ia & Ib & Ic) (Hab & Hbc & Hca).
  assert (Nab : to_size_t a <> to_size_t b)
    by (intros E; apply Hab, to_size_t_inj; assumption).
  assert (Nbc : to_size_t b <> to_size_t c)
    by (intros E; apply Hbc, to_size_t_inj; assumption).
  assert (Nca : to_size_t c <> to_size_t a)
    by (intros E; apply Hca, to_size_t_inj; assumption).
  unfold edge_matches. cbn.
  destruct (Z.eqb_spec (to_size_t a) s), (Z.eqb_spec (to_size_t b) s),
    (Z.eqb_spec (to_size_t c) s), (Z.eqb_spec (to_size_t a) d),
    (Z.eqb_spec (to_size_t b) d), (Z.eqb_spec (to_size_t c) d);
    cbn; try lia; congruence.
Qed.

Lemma classification_cases (tri : Triangle) (p : Point_3) :
  let cl := classification tri p in
  (fst cl = VERTEX /\ (snd cl = 0 \/ snd cl = 1 \/ snd cl = 2))
  \/ (fst cl = EDGE /\ (snd cl = 2 \/ snd cl = 0 \/ snd cl = 1))
  \/ (fst cl = FACE /\ snd cl = 0).
Proof.
  unfold classification. cbn [first_true option_map].
  destruct (point_eqb p (vertex tri 0)); [cbn; tauto |].
  destruct (point_eqb p (vertex tri 1)); [cbn; tauto |].
  destruct (point_eqb p (vertex tri 2)); [cbn; tauto |].
  destruct (collinear (vertex tri 0) (vertex tri 1) p); [cbn; tauto |].
  destruct (collinear (vertex tri 1) (vertex tri 2) p); [cbn; tauto |].
  destruct (collinear (vertex tri 2) (vertex tri 0) p); cbn; tauto.
Qed.

Section ClosestFacetFacts.

Variable ndebug : bool.
Variable closest_point_and_primitive : list Triangle -> Point_3 -> Point_3 * Z.
Variable all_intersected_primitives : list Triangle -> Segment_3 -> list Z.
Variable order_facets_around_edge :
  list Point_3 -> list Facet -> Z -> Z -> list Z -> Point_3 -> outcome (list Z).
Variable V : list Point_3.
Variable F : list Facet.
Variable I : list Z.
Variable P : list Point_3.

Local Abbreviation row := (eigen_at ndebug).
Local Abbreviation get_orientation' := (get_orientation ndebug F).
Local Abbreviation signed_indices' := (signed_indices ndebug F).
Local Abbreviation primitive_indices' := (primitive_indices ndebug I).
Local Abbreviation on_the_positive_side' := (on_the_positive_side ndebug V F).
Local Abbreviation process_edge_case' :=
  (process_edge_case ndebug all_intersected_primitives
     order_facets_around_edge V F I P).
Local Abbreviation process_face_case' :=
  (process_face_case ndebug all_intersected_primitives
     order_facets_around_edge V F I P).
Local Abbreviation process_vertex_case' :=
  (process_vertex_case ndebug all_intersected_primitives
     order_facets_around_edge V F I P).
Local Abbreviation resolve' :=
  (resolve ndebug closest_point_and_primitive all_intersected_primitives
     order_facets_around_edge V F I P).

Lemma signed_indices_throw (s d : Z) (indices : list Z) :
  Forall (fun index => is_ok (row F (to_index index)) = true) indices ->
  Exists (fun index => exists f, row F (to_index index) = Ok f
                                 /\ edge_matches f s d = []) indices ->
  signed_indices' s d indices = Throw IncorrectConnectivity.
Proof.
  intros Hrows Hbad. unfold signed_indices.
  induction indices as [| index rest IH]; [inversion Hbad |].
  inversion Hrows as [| ? ? Hrow Hrest]; subst.
  cbn [mapM]. unfold get_orientation at 1.
  destruct (row F (to_index index)) as [f | | |] eqn:Ef; try discriminate Hrow.
  cbn [bind].
  destruct (facet_orientation f s d) as [b | e | a |] eqn:Eo.
  - cbn [bind].
    inversion Hbad as [? ? (f' & Ef' & Hm) | ? ? Hlater]; subst.
    + rewrite Ef in Ef'. inversion Ef'; subst f'.
      apply facet_orientation_throw in Hm. congruence.
    + rewrite (IH Hrest Hlater). reflexivity.
  - cbn [bind]. revert Eo. unfold facet_orientation.
    repeat match goal with |- context [if ?c then _ else _] => destruct c end;
      intros Eo; inversion Eo; reflexivity.
  - exfalso. revert Eo. unfold facet_orientation.
    repeat match goal with |- context [if ?c then _ else _] => destruct c end;
      discriminate.
  - exfalso. revert Eo. unfold facet_orientation.
    repeat match goal with |- context [if ?c then _ else _] => destruct c end;
      discriminate.
Qed.

(** C6.  [get_orientation] on facet [f] and edge (s,d): it throws the
    connectivity error exactly when none of the six matches holds; when
    it returns, a match holds and the first one decides the result; a
    facet with three distinct [int] indices has at most one match, so
    there the result is returned exactly when exactly one match holds.
    In [process_edge_case] an intersected facet without a match makes the
    whole call throw that error. *)
Theorem get_orientation_connectivity (fid s d : Z) (f : Facet) :
  row F (to_index fid) = Ok f ->
  (get_orientation' fid s d = Throw IncorrectConnectivity <->
     edge_matches f s d = [])
  /\ (forall b, get_orientation' fid s d = Ok b ->
        exists k rest, edge_matches f s d = k :: rest /\ b = (3 <=? k)%nat)
  /\ (facet_ints f -> facet_distinct f ->
        forall b, get_orientation' fid s d = Ok b <->
          exists k, edge_matches f s d = [k] /\ b = (3 <=? k)%nat)
  /\ (forall triangles query_idx preferred_facet vs vd q indices,
        row V (to_index s) = Ok vs -> row V (to_index d) = Ok vd ->
        row P (to_index query_idx) = Ok q ->
        primitive_indices'
          (all_intersected_primitives triangles (midpoint vs vd, q))
          = Ok indices ->
        Forall (fun index => is_ok (row F (to_index index)) = true) indices ->
        In fid indices -> edge_matches f s d = [] ->
        process_edge_case' triangles query_idx s d preferred_facet
          = Throw IncorrectConnectivity).
Proof.
  intros Hf. unfold get_orientation. rewrite Hf. cbn [bind].
  split; [apply facet_orientation_throw |].
  split; [intros b; apply facet_orientation_ok |].
  split.
  - intros Hi Hd b. split.
    + intros Hb. destruct (facet_orientation_ok _ _ _ _ Hb) as (k & rest & Hk & ->).
      exists k. split; [| reflexivity].
      pose proof (edge_matches_at_most_one f s d Hi Hd) as Hlen.
      rewrite Hk in Hlen |- *. destruct rest; [reflexivity | cbn in Hlen; lia].
    + intros (k & Hk & ->).
      destruct (facet_orientation f s d) as [b | e | a |] eqn:Eo.
      * destruct (facet_orientation_ok _ _ _ _ Eo) as (k' & rest & Hk' & ->).
        rewrite Hk in Hk'. inversion Hk'; reflexivity.
      * assert (e = IncorrectConnectivity) as ->.
        { revert Eo. unfold facet_orientation.
          repeat match goal with |- context [if ?c then _ else _] => destruct c end;
            intros Eo; inversion Eo; reflexivity. }
        apply facet_orientation_throw in Eo. congruence.
      * exfalso. revert Eo. unfold facet_orientation.
        repeat match goal with |- context [if ?c then _ else _] => destruct c end;
          discriminate.
      * exfalso. revert Eo. unfold facet_orientation.
        repeat match goal with |- context [if ?c then _ else _] => destruct c end;
          discriminate.
  - intros triangles query_idx preferred_facet vs vd q indices Hs Hd Hq Hidx Hrows Hin Hm.
    unfold process_edge_case. rewrite Hs, Hd, Hq. cbn [bind]. rewrite Hidx. cbn [bind].
    rewrite signed_indices_throw; [reflexivity | exact Hrows |].
    apply Exists_exists. exists fid. split; [exact Hin |]. exists f. auto.
Qed.

(** ** determine_element_type *)

Lemma determine_element_type_classification
    (triangles : list Triangle) (p : Point_3) (fid : Z) (tri : Triangle) :
  vector_at triangles fid = Ok tri ->
  determine_element_type triangles p fid = Ok (classification tri p).
Proof.
  intros Htri. unfold determine_element_type, classification.
  rewrite Htri. cbn [bind first_true option_map].
  destruct (point_eqb p (vertex tri 0)); [reflexivity |].
  destruct (point_eqb p (vertex tri 1)); [reflexivity |].
  destruct (point_eqb p (vertex tri 2)); [reflexivity |].
  destruct (collinear (vertex tri 0) (vertex tri 1) p); [reflexivity |].
  destruct (collinear (vertex tri 1) (vertex tri 2) p); [reflexivity |].
  destruct (collinear (vertex tri 2) (vertex tri 0) p); reflexivity.
Qed.

(** C3.  The nearest point is classified against the triangle of the
    owning primitive in the stated priority: equal to corner 0, 1, 2
    (VERTEX), else collinear with edge (0,1), (1,2), (2,0) (EDGE), else
    FACE; the tests are the kernel's exact equality and collinearity. *)
Theorem determine_element_type_priority
    (triangles : list Triangle) (p : Point_3) (fid : Z) (tri : Triangle) :
  vector_at triangles fid = Ok tri ->
  let at_corner :=
    point_eqb p (vertex tri 0) || point_eqb p (vertex tri 1)
    || point_eqb p (vertex tri 2) in
  let on_edge :=
    collinear (vertex tri 0) (vertex tri 1) p
    || collinear (vertex tri 1) (vertex tri 2) p
    || collinear (vertex tri 2) (vertex tri 0) p in
  determine_element_type triangles p fid = Ok (classification tri p)
  /\ (fst (classification tri p) = VERTEX <-> at_corner = true)
  /\ (fst (classification tri p) = EDGE <->
        at_corner = false /\ on_edge = true)
  /\ (fst (classification tri p) = FACE <->
        at_corner = false /\ on_edge = false).
Proof.
  intros Htri. cbv zeta.
  split; [apply determine_element_type_classification; exact Htri |].
  unfold classification. cbn [first_true option_map].
  destruct (point_eqb p (vertex tri 0)), (point_eqb p (vertex tri 1)),
    (point_eqb p (vertex tri 2)), (collinear (vertex tri 0) (vertex tri 1) p),
    (collinear (vertex tri 1) (vertex tri 2) p),
    (collinear (vertex tri 2) (vertex tri 0) p);
    cbn; repeat split; intros; try discriminate; try tauto;
    match goal with H : _ /\ _ |- _ => destruct H; discriminate end.
Qed.

(** ** The face case *)

(** C7.  When the nearest point is classified FACE, the query is
    resolved by [process_face_case], which is [process_edge_case] on the
    edge (f[0], f[1]) of the owning facet with that facet's own id as
    the preferred facet. *)
Theorem face_case_is_edge_case
    (triangles : list Triangle) (i : Z) (query : Point_3) (tri : Triangle)
    (fi : Z) (f : Facet) :
  row P (to_index i) = Ok query ->
  let projection := closest_point_and_primitive triangles query in
  let fid := to_size_t (snd projection) in
  is_ok (primitive_indices'
           (all_intersected_primitives triangles (fst projection, query)))
    = true ->
  vector_at triangles fid = Ok tri ->
  fst (classification tri (fst projection)) = FACE ->
  row I (to_index fid) = Ok fi ->
  row F fi = Ok f ->
  resolve' triangles i = process_face_case' triangles i fid
  /\ process_face_case' triangles i fid
     = process_edge_case' triangles i
         (to_size_t (fget f 0)) (to_size_t (fget f 1)) (to_size_t fi).
Proof.
  intros Hq projection fid Hprims Htri Hface Hfi Hf. split.
  - unfold resolve. rewrite Hq. cbn [bind]. fold projection. fold fid.
    destruct (primitive_indices' _) as [l | | |]; try discriminate Hprims.
    cbn [bind].
    rewrite (determine_element_type_classification _ _ _ _ Htri). cbn [bind].
    destruct (classification tri (fst projection)) as [ty idx].
    cbn in Hface. subst ty. reflexivity.
  - unfold process_face_case. rewrite Hfi. cbn [bind]. rewrite Hf. reflexivity.
Qed.

(** ** The edge case *)

Lemma eigen_at_nth {A} (M : list A) (n : nat) (a : A) :
  nth_error M n = Some a -> row M (Z.of_nat n) = Ok a.
Proof.
  intros H. unfold eigen_at.
  assert (n < length M)%nat by (apply nth_error_Some; congruence).
  replace (0 <=? Z.of_nat n) with true by (symmetry; apply Z.leb_le; lia).
  replace (Z.of_nat n <? Z.of_nat (length M)) with true
    by (symmetry; apply Z.ltb_lt; lia).
  cbn. rewrite Nat2Z.id, H. reflexivity.
Qed.

Lemma eigen_at_ok {A} (M : list A) (i : Z) (a : A) :
  row M i = Ok a -> 0 <= i < Z.of_nat (length M) /\ nth_error M (Z.to_nat i) = Some a.
Proof.
  unfold eigen_at.
  destruct (0 <=? i) eqn:E0; cbn;
    [| destruct ndebug; discriminate].
  destruct (i <? Z.of_nat (length M)) eqn:E1;
    [| destruct ndebug; discriminate].
  apply Z.leb_le in E0. apply Z.ltb_lt in E1.
  destruct (nth_error M (Z.to_nat i)) eqn:En; [| discriminate].
  intros H. inversion H; subst. split; [lia | reflexivity].
Qed.

Lemma edge_case_single
    (ofe : list Point_3 -> list Facet -> Z -> Z -> list Z -> Point_3
           -> outcome (list Z))
    (triangles : list Triangle) (query_idx s d preferred_facet : Z)
    (vs vd q : Point_3) (prim fi : Z) (f : Facet) (b : bool)
    (v0 v1 v2 : Point_3) :
  row V (to_index s) = Ok vs ->
  row V (to_index d) = Ok vd ->
  row P (to_index query_idx) = Ok q ->
  all_intersected_primitives triangles (midpoint vs vd, q) = [prim] ->
  row I prim = Ok fi ->
  row F (to_index (to_size_t fi)) = Ok f ->
  facet_orientation f s d = Ok b ->
  row V (fget f 0) = Ok v0 ->
  row V (fget f 1) = Ok v1 ->
  row V (fget f 2) = Ok v2 ->
  process_edge_case ndebug all_intersected_primitives ofe V F I P
    triangles query_idx s d preferred_facet
  = match orientation v0 v1 v2 q with
    | POSITIVE => Ok (to_size_t fi, true)
    | NEGATIVE => Ok (to_size_t fi, false)
    | ZERO => Throw SelfIntersection
    end.
Proof.
  intros Hs Hd Hq Hprims Hfi Hf Hb H0 H1 H2.
  unfold process_edge_case.
  rewrite Hs, Hd, Hq. cbn [bind]. rewrite Hprims.
  unfold primitive_indices, signed_indices, get_orientation.
  cbn [mapM bind length]. rewrite Hfi. cbn [bind mapM].
  rewrite Hf. cbn [bind]. rewrite Hb. cbn [bind].
  unfold assert_. rewrite orb_true_r. cbn [bind Z.of_nat Pos.of_succ_nat Z.eqb Pos.eqb].
  unfold vector_at. cbn [length Z.of_nat Pos.of_succ_nat Z.leb Z.ltb Z.compare
    andb Z.to_nat nth_error bind].
  unfold on_the_positive_side. rewrite Hf. cbn [bind].
  rewrite H0, H1, H2. cbn [bind].
  destruct (orientation v0 v1 v2 q); reflexivity.
Qed.

(** C2.  With exactly one intersected facet whose edge (s,d) is found by
    [get_orientation], the call returns that facet with the orientation
    given by the plane-side predicate alone, throws the self-intersection
    error on COPLANAR, and is the same whatever [order_facets_around_edge]
    would do, even if it always failed. *)
Theorem single_intersection_uses_plane_side
    (triangles : list Triangle) (query_idx s d preferred_facet : Z)
    (vs vd q : Point_3) (prim fi : Z) (f : Facet) (b : bool)
    (v0 v1 v2 : Point_3) :
  row V (to_index s) = Ok vs ->
  row V (to_index d) = Ok vd ->
  row P (to_index query_idx) = Ok q ->
  all_intersected_primitives triangles (midpoint vs vd, q) = [prim] ->
  row I prim = Ok fi ->
  row F (to_index (to_size_t fi)) = Ok f ->
  facet_orientation f s d = Ok b ->
  row V (fget f 0) = Ok v0 ->
  row V (fget f 1) = Ok v1 ->
  row V (fget f 2) = Ok v2 ->
  process_edge_case' triangles query_idx s d preferred_facet
  = match orientation v0 v1 v2 q with
    | POSITIVE => Ok (to_size_t fi, true)
    | NEGATIVE => Ok (to_size_t fi, false)
    | ZERO => Throw SelfIntersection
    end
  /\ process_edge_case' triangles query_idx s d preferred_facet
     = process_edge_case ndebug all_intersected_primitives
         (fun _ _ _ _ _ _ => Throw OrderFacetsFailure) V F I P
         triangles query_idx s d preferred_facet.
Proof.
  intros Hs Hd Hq Hprims Hfi Hf Hb H0 H1 H2.
  split.
  - eapply edge_case_single; eassumption.
  - rewrite !(edge_case_single _ triangles query_idx s d preferred_facet
               vs vd q prim fi f b v0 v1 v2) by assumption.
    reflexivity.
Qed.

(** C1, as the code has it.  With two or more intersected facets and an
    angular order that is a permutation of their positions, the call
    returns the facet at the first position of the order when it is the
    preferred facet, else the facet at the last position when that one is
    the preferred facet, else the first.  The orientation is "signed index
    negative" for the first entry and "signed index positive" for the
    last. *)
Theorem edge_case_first_or_last
    (triangles : list Triangle) (query_idx s d preferred_facet : Z)
    (vs vd q : Point_3) (indices signed order : list Z) :
  row V (to_index s) = Ok vs ->
  row V (to_index d) = Ok vd ->
  row P (to_index query_idx) = Ok q ->
  let prims := all_intersected_primitives triangles (midpoint vs vd, q) in
  (2 <= length prims)%nat ->
  Z.of_nat (length prims) < 2 ^ 31 ->
  primitive_indices' prims = Ok indices ->
  signed_indices' s d indices = Ok signed ->
  order_facets_around_edge V F s d signed q = Ok order ->
  Permutation order (map Z.of_nat (seq 0 (length prims))) ->
  exists o_first o_last i_first i_last sg_first sg_last,
    nth_error order 0 = Some o_first
    /\ nth_error order (length prims - 1) = Some o_last
    /\ nth_error indices (Z.to_nat o_first) = Some i_first
    /\ nth_error indices (Z.to_nat o_last) = Some i_last
    /\ nth_error signed (Z.to_nat o_first) = Some sg_first
    /\ nth_error signed (Z.to_nat o_last) = Some sg_last
    /\ process_edge_case' triangles query_idx s d preferred_facet
       = Ok (if i_first =? preferred_facet then (i_first, sg_first <? 0)
             else if i_last =? preferred_facet then (i_last, sg_last >? 0)
             else (i_first, sg_first <? 0)).
Proof.
  intros Hs Hd Hq prims Hn Hsmall Hidx Hsg Hord Hperm.
  pose proof (mapM_length _ _ _ Hidx) as Li.
  pose proof (mapM_length _ _ _ Hsg) as Ls.
  destruct (order_entry order (length prims) 0 Hperm) as (o0 & E0 & R0); [lia |].
  destruct (order_entry order (length prims) (length prims - 1) Hperm)
    as (ol & El & Rl); [lia |].
  destruct (nth_error_lt indices (Z.to_nat o0)) as (i0 & Ei0); [lia |].
  destruct (nth_error_lt indices (Z.to_nat ol)) as (il & Eil); [lia |].
  destruct (nth_error_lt signed (Z.to_nat o0)) as (s0 & Es0); [lia |].
  destruct (nth_error_lt signed (Z.to_nat ol)) as (sl & Esl); [lia |].
  exists o0, ol, i0, il, s0, sl. repeat (split; [assumption |]).
  unfold process_edge_case. rewrite Hs, Hd, Hq. cbn [bind].
  fold prims. rewrite Hidx. cbn [bind]. rewrite Hsg. cbn [bind].
  unfold assert_.
  replace (1 <=? Z.of_nat (length prims)) with true
    by (symmetry; apply Z.leb_le; lia).
  rewrite orb_true_r. cbn [bind].
  replace (Z.of_nat (length prims) =? 1) with false
    by (symmetry; apply Z.eqb_neq; lia).
  rewrite Hord. cbn [bind].
  pose proof (eigen_at_nth order 0 o0 E0) as X0.
  change (Z.of_nat 0) with 0 in X0. rewrite X0. cbn [bind].
  rewrite (to_size_t_small (Z.of_nat (length prims) - 1)) by lia.
  rewrite to_index_small by lia.
  replace (Z.of_nat (length prims) - 1) with (Z.of_nat (length prims - 1)) by lia.
  rewrite (eigen_at_nth order _ ol El). cbn [bind].
  rewrite (to_size_t_small o0), (to_size_t_small ol) by lia.
  rewrite <- (Z2Nat.id o0), <- (Z2Nat.id ol) by lia.
  rewrite (vector_at_nth indices _ i0), (vector_at_nth indices _ il),
    (vector_at_nth signed _ s0), (vector_at_nth signed _ sl)
    by (rewrite ?Nat2Z.id; assumption).
  cbn [bind].
  destruct (i0 =? preferred_facet); [reflexivity |].
  destruct (il =? preferred_facet); reflexivity.
Qed.

(** ** Construction *)

Lemma make_triangle_spec (fi : Z) (t : Triangle) :
  facet_triangle ndebug V F fi t ->
  make_triangle ndebug V F fi
  = if is_degenerate t then Throw DegeneratedTriangles else Ok t.
Proof.
  intros (f & p0 & p1 & p2 & Hf & H0 & H1 & H2 & ->).
  unfold make_triangle. rewrite Hf. cbn [bind]. rewrite H0, H1, H2. reflexivity.
Qed.

Lemma build_triangles_degenerate :
  Forall (fun fi => exists t, facet_triangle ndebug V F fi t) I ->
  Exists (fun fi => exists t, facet_triangle ndebug V F fi t
                              /\ (doublearea_sq t == 0)%Q) I ->
  build_triangles ndebug V F I = Throw DegeneratedTriangles.
Proof.
  unfold build_triangles. induction I as [| fi rest IH]; intros Hall Hbad.
  - inversion Hbad.
  - inversion Hall as [| ? ? (t & Ht) Hrest]; subst.
    cbn [mapM]. rewrite (make_triangle_spec fi t Ht).
    destruct (is_degenerate t) eqn:Edeg; [reflexivity |].
    cbn [bind].
    inversion Hbad as [? ? (t' & Ht' & Hz) | ? ? Hlater]; subst.
    + apply is_degenerate_zero_area in Hz.
      destruct Ht as (f & p0 & p1 & p2 & Hf & H0 & H1 & H2 & ->).
      destruct Ht' as (f' & q0 & q1 & q2 & Hf' & G0 & G1 & G2 & ->).
      rewrite Hf in Hf'. inversion Hf'; subst f'.
      rewrite H0 in G0. rewrite H1 in G1. rewrite H2 in G2.
      inversion G0; inversion G1; inversion G2; subst. congruence.
    + rewrite (IH Hrest Hlater). reflexivity.
Qed.

(** C5.  The call throws before [R] and [S] are touched: the empty-mesh
    error when [F] or [I] has no row, and the degenerate-triangle error
    when every selected facet can be built and one of them has zero
    area. *)
Theorem construction_rejects_bad_input (out : outputs) :
  let run := closest_facet ndebug closest_point_and_primitive
               all_intersected_primitives order_facets_around_edge V F I P out in
  (F = [] \/ I = [] -> run = (Throw EmptyMesh, out))
  /\ (Forall (fun fi => exists t, facet_triangle ndebug V F fi t) I ->
      Exists (fun fi => exists t, facet_triangle ndebug V F fi t
                                  /\ (doublearea_sq t == 0)%Q) I ->
      run = (Throw DegeneratedTriangles, out)).
Proof.
  cbv zeta. unfold closest_facet. split.
  - intros [-> | ->]; cbn [length Z.of_nat Z.leb Z.compare orb];
      [reflexivity | rewrite orb_true_r; reflexivity].
  - intros Hall Hbad.
    rewrite (build_triangles_degenerate Hall Hbad).
    destruct I as [| fi rest]; [inversion Hbad |].
    inversion Hall as [| ? ? (t & f & p0 & p1 & p2 & Hf & _) _]; subst.
    apply eigen_at_ok in Hf. destruct Hf as [Hrange _].
    replace (Z.of_nat (length F) <=? 0) with false
      by (symmetry; apply Z.leb_gt; lia).
    replace (Z.of_nat (length (fi :: rest)) <=? 0) with false
      by (symmetry; apply Z.leb_gt; cbn [length]; lia).
    reflexivity.
Qed.

(** ** The vertex case *)

Lemma count_side_on_plane (side : Sign) (p q r : Point_3) :
  side <> ZERO ->
  count_side side (plane_from_points p q r) [q; r] = 0%nat.
Proof.
  intros Hside. unfold count_side. cbn [filter].
  rewrite !oriented_side_is_orientation. unfold orientation.
  destruct (det3_own p q r) as (_ & Hq & Hr).
  rewrite (sign_of_morph _ _ Hq), (sign_of_morph _ _ Hr).
  change (sign_of 0) with ZERO. destruct side; try contradiction; reflexivity.
Qed.

Lemma second_vertex_single (s m M : Z) (ps pm pM q : Point_3) (f : Facet) :
  row F (to_index 0) = Ok f ->
  add_adjacent s [] f = [m; M] ->
  row V (to_index m) = Ok pm ->
  row V (to_index M) = Ok pM ->
  collinear ps pm pM = false ->
  orientation ps pm pM q <> ZERO ->
  find_second_vertex ndebug V F s ps q [0] = Ok m.
Proof.
  intros Hf Hadj Hm HM Hcol Hside.
  unfold find_second_vertex. cbn [collect_adjacent]. rewrite Hf. cbn [bind].
  rewrite Hadj. cbn [mapM]. rewrite Hm, HM. cbn [bind].
  cbn [search_i search_j].
  rewrite plane_is_degenerate_collinear, Hcol.
  assert (Hext : is_on_exterior [pm; pM] q (plane_from_points ps pm pM) = true).
  { unfold is_on_exterior.
    rewrite !count_side_on_plane by discriminate. cbn [Nat.eqb andb].
    rewrite oriented_side_is_orientation.
    destruct (orientation ps pm pM q); try reflexivity. contradiction. }
  rewrite Hext.
  assert (Hnc : collinear q pm ps = false).
  { destruct (collinear q pm ps) eqn:E; [| reflexivity].
    exfalso. apply Hside. apply collinear_in_plane. exact E. }
  unfold assert_. rewrite Hnc, orb_true_r. reflexivity.
Qed.

(** When no plane through two adjacent points is degenerate or on the
    exterior, the search leaves [d] as it was. *)
Lemma search_j_nothing (adj_points : list Point_3)
    (closest_point query_point pi : Point_3) (pjs : list Point_3) :
  Forall (fun pj =>
            plane_is_degenerate (plane_from_points closest_point pi pj) = false
            /\ is_on_exterior adj_points query_point
                 (plane_from_points closest_point pi pj) = false) pjs ->
  search_j ndebug adj_points closest_point query_point pi pjs = Ok false.
Proof.
  induction 1 as [| pj rest (Hdeg & Hext) _ IH]; cbn [search_j].
  - reflexivity.
  - rewrite Hdeg, Hext. exact IH.
Qed.

Lemma search_i_nothing (adj_points : list Point_3)
    (closest_point query_point : Point_3) (vs : list Z) (ps : list Point_3)
    (d : Z) :
  ForallOrdPairs
    (fun pi pj =>
       plane_is_degenerate (plane_from_points closest_point pi pj) = false
       /\ is_on_exterior adj_points query_point
            (plane_from_points closest_point pi pj) = false) ps ->
  search_i ndebug adj_points closest_point query_point vs ps d = Ok d.
Proof.
  intros H. revert vs.
  induction H as [| pi rest Hpi _ IH]; intros vs; destruct vs as [| vi vs'];
    cbn [search_i]; try reflexivity.
  rewrite (search_j_nothing _ _ _ _ _ Hpi). cbn [bind]. apply IH.
Qed.

(** With [d] still at its initial value the vertex case ends in the
    assertion, or, when assertions are compiled out, in the read of row
    [SIZE_MAX] of [V]. *)
Lemma vertex_case_without_edge (triangles : list Triangle)
    (query_idx s preferred_facet : Z) (closest_point q : Point_3)
    (indices : list Z) :
  row V (to_index s) = Ok closest_point ->
  row P (to_index query_idx) = Ok q ->
  primitive_indices' (all_intersected_primitives triangles (closest_point, q))
    = Ok indices ->
  find_second_vertex ndebug V F s closest_point q indices = Ok SIZE_MAX ->
  process_vertex_case' triangles query_idx s preferred_facet
  = if ndebug then Undefined else Abort AssertEdgeFound.
Proof.
  intros Hs Hq Hidx Hd. unfold process_vertex_case.
  rewrite Hs. cbn [bind]. rewrite Hq. cbn [bind]. rewrite Hidx. cbn [bind].
  rewrite Hd. cbn [bind]. unfold assert_. rewrite Z.eqb_refl. cbn [negb].
  destruct ndebug; cbn [orb bind]; [| reflexivity].
  unfold process_edge_case. rewrite Hs. cbn [bind].
  change (to_index SIZE_MAX) with (-1). reflexivity.
Qed.

(** The loop over the queries ends at the first query that does not
    return; [R] and [S] then hold the answers of the earlier queries. *)
Lemma query_loop_first_failure (triangles : list Triangle) (i : Z)
    (rest : list Z) (out : outputs) :
  is_ok (resolve' triangles i) = false ->
  fst (query_loop ndebug closest_point_and_primitive
         all_intersected_primitives order_facets_around_edge V F I P
         triangles (i :: rest) out)
  = match resolve' triangles i with
    | Ok _ => Ok tt
    | Throw e => Throw e
    | Abort a => Abort a
    | Undefined => Undefined
    end
  /\ snd (query_loop ndebug closest_point_and_primitive
            all_intersected_primitives order_facets_around_edge V F I P
            triangles (i :: rest) out) = out.
Proof.
  intros H. cbn [query_loop].
  destruct (resolve' triangles i) as [[fid ori] | | |];
    [discriminate H | split; reflexivity ..].
Qed.

Lemma primitive_indices_in_range (prims : list Z) :
  Forall (fun i => 0 <= i < Z.of_nat (length I)) prims ->
  is_ok (primitive_indices' prims) = true.
Proof.
  unfold primitive_indices. induction prims as [| i rest IH]; intros H.
  - reflexivity.
  - inversion H as [| ? ? Hi Hrest]; subst. cbn [mapM].
    destruct (nth_error_lt I (Z.to_nat i)) as (a & Ea); [lia |].
    pose proof (eigen_at_nth I _ a Ea) as X. rewrite Z2Nat.id in X by lia.
    rewrite X. cbn [bind].
    specialize (IH Hrest).
    destruct (mapM _ rest); try discriminate IH. reflexivity.
Qed.

End ClosestFacetFacts.

(** ** A mesh of one triangle *)

Section SingleTriangle.

Variable ndebug : bool.
Variable closest_point_and_primitive : list Triangle -> Point_3 -> Point_3 * Z.
Variable all_intersected_primitives : list Triangle -> Segment_3 -> list Z.
Variable order_facets_around_edge :
  list Point_3 -> list Facet -> Z -> Z -> list Z -> Point_3 -> outcome (list Z).
Variable V : list Point_3.
Variables a b c : Z.
Variables p0 p1 p2 q : Point_3.

Hypothesis Hindex :
  index_contract closest_point_and_primitive all_intersected_primitives.
Hypothesis Ha : eigen_at ndebug V a = Ok p0.
Hypothesis Hb : eigen_at ndebug V b = Ok p1.
Hypothesis Hc : eigen_at ndebug V c = Ok p2.
Hypothesis Ia : a < 2 ^ 31.
Hypothesis Ib : b < 2 ^ 31.
Hypothesis Ic : c < 2 ^ 31.
Hypothesis Hnd : collinear p0 p1 p2 = false.
Hypothesis Hside : orientation p0 p1 p2 q <> ZERO.

Local Abbreviation f := (a, b, c).
Local Abbreviation t := (p0, p1, p2).
Local Abbreviation side :=
  (match orientation p0 p1 p2 q with POSITIVE => true | _ => false end).
Local Abbreviation edge_case :=
  (process_edge_case ndebug all_intersected_primitives
     order_facets_around_edge V [f] [0] [q] [t]).

Lemma corner_ranges : 0 <= a /\ 0 <= b /\ 0 <= c.
Proof.
  pose proof (eigen_at_ok _ _ _ _ Ha). pose proof (eigen_at_ok _ _ _ _ Hb).
  pose proof (eigen_at_ok _ _ _ _ Hc). lia.
Qed.

Lemma corners_distinct : a <> b /\ b <> c /\ c <> a.
Proof.
  repeat split; intros E.
  - rewrite E, Hb in Ha. inversion Ha as [E'].
    rewrite E', (proj1 (collinear_same_point p0 p2)) in Hnd. discriminate.
  - rewrite E, Hc in Hb. inversion Hb as [E'].
    rewrite E', (proj1 (proj2 (collinear_same_point p0 p1))) in Hnd. discriminate.
  - rewrite E, Ha in Hc. inversion Hc as [E'].
    rewrite E', (proj2 (proj2 (collinear_same_point p2 p1))) in Hnd. discriminate.
Qed.

Lemma only_primitive (g : Segment_3) :
  on_triangle (source g) t -> all_intersected_primitives [t] g = [0].
Proof.
  intros Hon.
  pose proof (intersected_covers_source _ _ Hindex [t] g 0%nat t eq_refl Hon) as Hin.
  pose proof (intersected_nodup _ _ Hindex [t] g) as Hnodup.
  pose proof (intersected_in_range _ _ Hindex [t] g) as Hrange.
  cbn [length Z.of_nat] in Hin, Hrange.
  destruct (all_intersected_primitives [t] g) as [| x [| y rest]].
  - contradiction.
  - assert (x = 0) by (specialize (Hrange x (or_introl eq_refl)); cbn in Hrange; lia).
    subst. reflexivity.
  - exfalso.
    assert (x = 0) by (specialize (Hrange x (or_introl eq_refl)); cbn in Hrange; lia).
    assert (y = 0)
      by (specialize (Hrange y (or_intror (or_introl eq_refl))); cbn in Hrange; lia).
    subst. inversion Hnodup as [| ? ? Hnot _]. apply Hnot. left. reflexivity.
Qed.

Lemma any_primitives_ok (g : Segment_3) :
  is_ok (primitive_indices ndebug [0] (all_intersected_primitives [t] g)) = true.
Proof.
  apply primitive_indices_in_range. apply Forall_forall. intros i Hi.
  exact (intersected_in_range _ _ Hindex [t] g i Hi).
Qed.

Lemma edge_of_single_triangle (s d : Z) (vs vd : Point_3) :
  eigen_at ndebug V (to_index s) = Ok vs ->
  eigen_at ndebug V (to_index d) = Ok vd ->
  on_triangle (midpoint vs vd) t ->
  (exists o, facet_orientation f s d = Ok o) ->
  edge_case 0 s d 0 = Ok (0, side).
Proof.
  intros Hs Hd Hon (o & Ho).
  rewrite (edge_case_single ndebug all_intersected_primitives V [f] [0] [q]
             order_facets_around_edge [t] 0 s d 0 vs vd q 0 0 f o p0 p1 p2);
    try assumption; try reflexivity.
  - change (to_size_t 0) with 0.
    destruct (orientation p0 p1 p2 q); try reflexivity. contradiction.
  - apply only_primitive. exact Hon.
Qed.

Lemma corner_casts (x : Z) :
  0 <= x < 2 ^ 31 -> to_size_t x = x /\ to_index x = x.
Proof.
  intros H. split; [apply to_size_t_small | apply to_index_small]; lia.
Qed.

Ltac corner_cast :=
  pose proof corner_ranges as (?Ra & ?Rb & ?Rc);
  pose proof (corner_casts a ltac:(lia)) as (?Sa & ?Xa);
  pose proof (corner_casts b ltac:(lia)) as (?Sb & ?Xb);
  pose proof (corner_casts c ltac:(lia)) as (?Sc & ?Xc).

Ltac some_match :=
  unfold facet_orientation, edge_match; cbn [fget Z.eqb Pos.eqb];
  repeat match goal with
         | H : to_size_t _ = _ |- _ => rewrite !H
         end;
  rewrite ?Z.eqb_refl; cbn [andb];
  repeat match goal with
         | |- context [if ?x =? ?y then _ else _] => destruct (x =? y); cbn [andb]
         | |- context [(?x =? ?y) && _] => destruct (x =? y); cbn [andb]
         end;
  eauto.

Lemma edges_of_single_triangle :
  edge_case 0 a b 0 = Ok (0, side) /\ edge_case 0 b c 0 = Ok (0, side)
  /\ edge_case 0 c a 0 = Ok (0, side) /\ edge_case 0 b a 0 = Ok (0, side)
  /\ edge_case 0 c b 0 = Ok (0, side) /\ edge_case 0 a c 0 = Ok (0, side).
Proof.
  corner_cast.
  repeat split.
  - apply edge_of_single_triangle with (vs := p0) (vd := p1);
      [rewrite Xa; exact Ha | rewrite Xb; exact Hb
      | exact (on_triangle_midpoint t 0 1) | some_match].
  - apply edge_of_single_triangle with (vs := p1) (vd := p2);
      [rewrite Xb; exact Hb | rewrite Xc; exact Hc
      | exact (on_triangle_midpoint t 1 2) | some_match].
  - apply edge_of_single_triangle with (vs := p2) (vd := p0);
      [rewrite Xc; exact Hc | rewrite Xa; exact Ha
      | exact (on_triangle_midpoint t 2 0) | some_match].
  - apply edge_of_single_triangle with (vs := p1) (vd := p0);
      [rewrite Xb; exact Hb | rewrite Xa; exact Ha
      | exact (on_triangle_midpoint t 1 0) | some_match].
  - apply edge_of_single_triangle with (vs := p2) (vd := p1);
      [rewrite Xc; exact Hc | rewrite Xb; exact Hb
      | exact (on_triangle_midpoint t 2 1) | some_match].
  - apply edge_of_single_triangle with (vs := p0) (vd := p2);
      [rewrite Xa; exact Ha | rewrite Xc; exact Hc
      | exact (on_triangle_midpoint t 0 2) | some_match].
Qed.

Local Abbreviation vertex_case :=
  (process_vertex_case ndebug all_intersected_primitives
     order_facets_around_edge V [f] [0] [q] [t]).

Lemma row_q : eigen_at ndebug [q] (to_index 0) = Ok q.
Proof. reflexivity. Qed.

Lemma row_f : eigen_at ndebug [f] (to_index 0) = Ok f.
Proof. reflexivity. Qed.

Lemma not_size_max (x : Z) : x < 2 ^ 31 -> negb (x =? SIZE_MAX) = true.
Proof.
  intros H. apply negb_true_iff, Z.eqb_neq. unfold SIZE_MAX. lia.
Qed.

(** The vertex case at corner [s]: the two other corners, in ascending
    order [m < M], span with [s] the supporting plane, the query is off
    it, and the search stops at [m]. *)
Lemma vertex_of_single_triangle (s m M : Z) (ps pm pM : Point_3) :
  eigen_at ndebug V (to_index s) = Ok ps ->
  eigen_at ndebug V (to_index m) = Ok pm ->
  eigen_at ndebug V (to_index M) = Ok pM ->
  on_triangle ps t ->
  add_adjacent s [] f = [m; M] ->
  collinear ps pm pM = false ->
  orientation ps pm pM q <> ZERO ->
  m < 2 ^ 31 ->
  edge_case 0 s m 0 = Ok (0, side) ->
  vertex_case 0 s 0 = Ok (0, side).
Proof.
  intros Hs Hm HM Hon Hadj Hcol Hoff Hsmall Hedge.
  unfold process_vertex_case. rewrite Hs. cbn [bind].
  rewrite row_q. cbn [bind].
  rewrite (only_primitive (ps, q) Hon).
  cbn [primitive_indices mapM]. change (eigen_at ndebug [0] 0) with (@Ok Z 0).
  cbn [bind]. change (to_size_t 0) with 0.
  rewrite (second_vertex_single ndebug V [f] s m M ps pm pM q f
             row_f Hadj Hm HM Hcol Hoff).
  cbn [bind]. unfold assert_. rewrite (not_size_max m Hsmall), orb_true_r.
  cbn [bind]. exact Hedge.
Qed.

Lemma adjacent_of_corner (s x y : Z) :
  x <> s -> y <> s -> x <> y ->
  set_insert y (set_insert x []) = if y <? x then [y; x] else [x; y].
Proof.
  intros Hx Hy Hxy. cbn [set_insert].
  destruct (y <? x); [reflexivity |].
  destruct (Z.eqb_spec y x); [congruence | reflexivity].
Qed.

Lemma vertex_cases_of_single_triangle :
  vertex_case 0 a 0 = Ok (0, side) /\ vertex_case 0 b 0 = Ok (0, side)
  /\ vertex_case 0 c 0 = Ok (0, side).
Proof.
  corner_cast.
  destruct corners_distinct as (Nab & Nbc & Nca).
  destruct edges_of_single_triangle as (Eab & Ebc & Eca & Eba & Ecb & Eac).
  destruct (orientation_nonzero_perm _ _ _ _ Hside) as (O1 & O2 & O3 & O4 & O5).
  destruct (collinear_false_perm _ _ _ Hnd) as (C1 & C2 & C3 & C4 & C5).
  repeat split.
  - assert (Hadj : add_adjacent a [] f = if c <? b then [c; b] else [b; c]).
    { unfold add_adjacent, insert_unless. cbn [fget Z.eqb Pos.eqb].
      rewrite Sa, Sb, Sc, Z.eqb_refl.
      destruct (Z.eqb_spec b a); [congruence |].
      destruct (Z.eqb_spec c a); [congruence |].
      apply (adjacent_of_corner a); congruence. }
    destruct (c <? b).
    + apply (vertex_of_single_triangle a c b p0 p2 p1);
        rewrite ?Xa, ?Xb, ?Xc; try assumption.
      exact (on_triangle_vertex t 0).
    + apply (vertex_of_single_triangle a b c p0 p1 p2);
        rewrite ?Xa, ?Xb, ?Xc; try assumption.
      exact (on_triangle_vertex t 0).
  - assert (Hadj : add_adjacent b [] f = if c <? a then [c; a] else [a; c]).
    { unfold add_adjacent, insert_unless. cbn [fget Z.eqb Pos.eqb].
      rewrite Sa, Sb, Sc, Z.eqb_refl.
      destruct (Z.eqb_spec a b); [congruence |].
      destruct (Z.eqb_spec c b); [congruence |].
      apply (adjacent_of_corner b); congruence. }
    destruct (c <? a).
    + apply (vertex_of_single_triangle b c a p1 p2 p0);
        rewrite ?Xa, ?Xb, ?Xc; try assumption.
      exact (on_triangle_vertex t 1).
    + apply (vertex_of_single_triangle b a c p1 p0 p2);
        rewrite ?Xa, ?Xb, ?Xc; try assumption.
      exact (on_triangle_vertex t 1).
  - assert (Hadj : add_adjacent c [] f = if b <? a then [b; a] else [a; b]).
    { unfold add_adjacent, insert_unless. cbn [fget Z.eqb Pos.eqb].
      rewrite Sa, Sb, Sc, Z.eqb_refl.
      destruct (Z.eqb_spec a c); [congruence |].
      destruct (Z.eqb_spec b c); [congruence |].
      apply (adjacent_of_corner c); congruence. }
    destruct (b <? a).
    + apply (vertex_of_single_triangle c b a p2 p1 p0);
        rewrite ?Xa, ?Xb, ?Xc; try assumption.
      exact (on_triangle_vertex t 2).
    + apply (vertex_of_single_triangle c a b p2 p0 p1);
        rewrite ?Xa, ?Xb, ?Xc; try assumption.
      exact (on_triangle_vertex t 2).
Qed.

Lemma resolve_single_triangle :
  resolve ndebug closest_point_and_primitive all_intersected_primitives
    order_facets_around_edge V [f] [0] [q] [t] 0 = Ok (0, side).
Proof.
  corner_cast.
  destruct edges_of_single_triangle as (Eab & Ebc & Eca & _).
  destruct vertex_cases_of_single_triangle as (Va & Vb & Vc).
  unfold resolve. rewrite row_q. cbn [bind].
  assert (Hnear : snd (closest_point_and_primitive [t] q) = 0).
  { pose proof (closest_in_range _ _ Hindex [t] q ltac:(discriminate)) as H.
    cbn [length Z.of_nat Pos.of_succ_nat] in H. lia. }
  rewrite Hnear. change (to_size_t 0) with 0.
  pose proof (any_primitives_ok (fst (closest_point_and_primitive [t] q), q)) as Hany.
  destruct (primitive_indices ndebug [0] _) as [l | | |]; try discriminate Hany.
  cbn [bind].
  rewrite (determine_element_type_classification [t] _ 0 t eq_refl).
  pose proof (classification_cases t (fst (closest_point_and_primitive [t] q)))
    as Hcases.
  destruct (classification t (fst (closest_point_and_primitive [t] q)))
    as [ty idx].
  cbn [fst snd] in Hcases. cbn [bind].
  unfold process_face_case.
  change (eigen_at ndebug [0] (to_index 0)) with (@Ok Z 0). cbn [bind].
  change (@eigen_at ndebug Facet [f] 0) with (@Ok Facet f). cbn [bind].
  change (to_size_t 0) with 0.
  destruct Hcases as [(-> & [-> | [-> | ->]]) | [(-> & [-> | [-> | ->]]) | (-> & ->)]].
  - change (fget f 0) with a. rewrite Sa. exact Va.
  - change (fget f 1) with b. rewrite Sb. exact Vb.
  - change (fget f 2) with c. rewrite Sc. exact Vc.
  - change (fget f ((2 + 1) mod 3)) with a.
    change (fget f ((2 + 2) mod 3)) with b. rewrite Sa, Sb. exact Eab.
  - change (fget f ((0 + 1) mod 3)) with b.
    change (fget f ((0 + 2) mod 3)) with c. rewrite Sb, Sc. exact Ebc.
  - change (fget f ((1 + 1) mod 3)) with c.
    change (fget f ((1 + 2) mod 3)) with a. rewrite Sc, Sa. exact Eca.
  - change (fget f 0) with a. change (fget f 1) with b. rewrite Sa, Sb. exact Eab.
Qed.

Lemma closest_facet_single_triangle (out : outputs) :
  closest_facet_all ndebug closest_point_and_primitive
    all_intersected_primitives order_facets_around_edge V [f] [q] out
  = (Ok tt, mkOut [Some 0] [Some (if side then 1 else 0)]).
Proof.
  unfold closest_facet_all, closest_facet.
  cbn [length seq map Z.of_nat Pos.of_succ_nat Z.leb Z.compare orb].
  unfold build_triangles. cbn [mapM]. unfold make_triangle.
  change (@eigen_at ndebug Facet [f] 0) with (@Ok Facet f).
  cbn [bind fget Z.eqb Pos.eqb].
  rewrite Ha, Hb, Hc. cbn [bind].
  unfold is_degenerate. cbn [vertex]. rewrite Hnd. cbn [bind].
  cbn [query_loop].
  match goal with
  | |- match ?x with _ => _ end = _ =>
      assert (Hx : x = Ok (0, side)) by exact resolve_single_triangle;
      rewrite Hx
  end.
  cbn [query_loop]. unfold store. cbn [out_R out_S Z.to_nat].
  change (to_int 0) with 0. f_equal.
  assert (Hset : forall (M : list (option Z)) x,
             set_at (resize 1 M) 0 x = [x]).
  { intros M x. unfold resize. destruct M as [| y [| z M']]; reflexivity. }
  rewrite !Hset. reflexivity.
Qed.

End SingleTriangle.

(** C8.  A mesh of one non-degenerate triangle, with any spatial index
    that meets [index_contract]: a query strictly on the positive side
    of the supporting plane gets facet 0 with orientation 1, a query
    strictly on the negative side gets facet 0 with orientation 0. *)
Theorem single_triangle_resolves_by_side
    (ndebug : bool)
    (closest_point_and_primitive : list Triangle -> Point_3 -> Point_3 * Z)
    (all_intersected_primitives : list Triangle -> Segment_3 -> list Z)
    (order_facets_around_edge :
       list Point_3 -> list Facet -> Z -> Z -> list Z -> Point_3
       -> outcome (list Z))
    (V : list Point_3) (f : Facet) (t : Triangle) (q : Point_3)
    (out : outputs) :
  index_contract closest_point_and_primitive all_intersected_primitives ->
  facet_ints f ->
  facet_triangle ndebug V [f] 0 t ->
  ~ (doublearea_sq t == 0)%Q ->
  let run := closest_facet_all ndebug closest_point_and_primitive
               all_intersected_primitives order_facets_around_edge
               V [f] [q] out in
  (orientation (vertex t 0) (vertex t 1) (vertex t 2) q = POSITIVE ->
   run = (Ok tt, mkOut [Some 0] [Some 1]))
  /\ (orientation (vertex t 0) (vertex t 1) (vertex t 2) q = NEGATIVE ->
      run = (Ok tt, mkOut [Some 0] [Some 0])).
Proof.
  intros Hindex Hints (f' & p0 & p1 & p2 & Hf & H0 & H1 & H2 & ->) Harea run.
  change (@eigen_at ndebug Facet [f] 0) with (@Ok Facet f) in Hf.
  inversion Hf; subst f'.
  destruct f as [[a b] c]. cbn [fget Z.eqb Pos.eqb] in H0, H1, H2.
  destruct Hints as (Ia & Ib & Ic). cbn [fget Z.eqb Pos.eqb] in Ia, Ib, Ic.
  unfold int_range in Ia, Ib, Ic.
  assert (Hnd : collinear p0 p1 p2 = false).
  { destruct (collinear p0 p1 p2) eqn:E; [| reflexivity].
    exfalso. apply Harea.
    apply (is_degenerate_zero_area (p0, p1, p2)). exact E. }
  cbn [vertex]. subst run.
  split; intros Hside;
    pose proof (closest_facet_single_triangle ndebug closest_point_and_primitive
                  all_intersected_primitives order_facets_around_edge V a b c
                  p0 p1 p2 q Hindex H0 H1 H2 ltac:(lia) ltac:(lia) ltac:(lia)
                  Hnd ltac:(congruence) out) as X;
    rewrite Hside in X; exact X.
Qed.

(** ** reorient_facets_raycast: the flags *)

Section ReorientFacts.

Variable ndebug : bool.
Variable float : Type.
Variable float_zero : float.
Variable float_add : float -> float -> float.
Variable float_lt : float -> float -> bool.

Local Abbreviation hit := (Hit float).
Local Abbreviation shoot' := (shoot ndebug float float_add).
Local Abbreviation shoot_all' := (shoot_all ndebug float float_add).
Local Abbreviation flag' := (flag float float_lt).

Local Abbreviation votes_sized' := (votes_sized float).

Lemma set_at_length {A} (l : list A) (i : nat) (x : A) :
  length (set_at l i x) = length l.
Proof.
  revert i. induction l as [| y l IH]; intros [| i]; cbn; auto.
Qed.

Lemma update_at_ok {A} (v : list A) (c : Z) (g : A -> A) :
  0 <= c < Z.of_nat (length v) ->
  exists v', update_at v c g = Ok v' /\ length v' = length v.
Proof.
  intros Hc. unfold update_at.
  destruct (nth_error_lt v (Z.to_nat c)) as (x & Ex); [lia |].
  pose proof (vector_at_nth v _ x Ex) as X. rewrite Z2Nat.id in X by lia.
  rewrite X. cbn [bind]. eexists. split; [reflexivity |].
  apply set_at_length.
Qed.

Lemma maxCoeff_bound (C : list Z) :
  C <> [] ->
  exists mx, maxCoeff ndebug C = Ok mx /\ Forall (fun c => c <= mx) C.
Proof.
  destruct C as [| c0 rest]; [congruence |]. intros _.
  exists (fold_left Z.max rest c0). split; [reflexivity |].
  assert (G : forall l acc,
            acc <= fold_left Z.max l acc
            /\ Forall (fun c => c <= fold_left Z.max l acc) l).
  { induction l as [| x l IH]; intros acc; cbn [fold_left].
    - split; [lia | constructor].
    - destruct (IH (Z.max acc x)) as (H1 & H2). split; [lia |].
      constructor; [lia | exact H2]. }
  destruct (G rest c0) as (H1 & H2). constructor; assumption.
Qed.

Lemma shoot_ok (use_parity : bool) (C : list Z) (n : nat) (v : votes float)
    (ray : Z * list hit * list hit) :
  votes_sized' n v ->
  Forall (fun c => 0 <= c < Z.of_nat n) C ->
  0 <= fst (fst ray) < Z.of_nat (length C) ->
  exists v', shoot' use_parity C v ray = Ok v' /\ votes_sized' n v'.
Proof.
  intros (Ld & Li & Lp) HC Hf. destruct ray as [[f front] back].
  cbn [fst] in Hf. unfold shoot.
  destruct (nth_error_lt C (Z.to_nat f)) as (c & Ec); [lia |].
  pose proof (eigen_at_nth ndebug C _ c Ec) as X. rewrite Z2Nat.id in X by lia.
  rewrite X. cbn [bind].
  assert (Hc : 0 <= c < Z.of_nat n).
  { apply nth_error_In in Ec. rewrite Forall_forall in HC. exact (HC c Ec). }
  destruct use_parity.
  - destruct (update_at_ok (C_vote_parity float v) c
                (fun p => (fst p + Z.of_nat (length (erase_self float f front)) mod 2,
                           snd p))) as (vp & E1 & L1); [lia |].
    rewrite E1. cbn [bind].
    destruct (update_at_ok vp c
                (fun p => (fst p,
                           snd p + Z.of_nat (length (erase_self float f back)) mod 2)))
      as (vp' & E2 & L2); [lia |].
    rewrite E2. cbn [bind]. eexists. split; [reflexivity |].
    unfold votes_sized. cbn. repeat split; congruence.
  - assert (Hfront : exists vd vi,
              match erase_self float f front with
              | [] =>
                  vi <- update_at (C_vote_infinity float v) c
                          (fun p => (fst p + 1, snd p)) ;;
                  Ok (C_vote_distance float v, vi)
              | h :: _ =>
                  vd <- update_at (C_vote_distance float v) c
                          (fun p => (float_add (fst p) (hit_t float h), snd p)) ;;
                  Ok (vd, C_vote_infinity float v)
              end = Ok (vd, vi) /\ length vd = n /\ length vi = n).
    { destruct (erase_self float f front) as [| h ?].
      - destruct (update_at_ok (C_vote_infinity float v) c
                    (fun p => (fst p + 1, snd p))) as (vi & E & L); [lia |].
        rewrite E. cbn [bind]. exists (C_vote_distance float v), vi.
        repeat split; congruence.
      - destruct (update_at_ok (C_vote_distance float v) c
                    (fun p => (float_add (fst p) (hit_t float h), snd p)))
          as (vd & E & L); [lia |].
        rewrite E. cbn [bind]. exists vd, (C_vote_infinity float v).
        repeat split; congruence. }
    destruct Hfront as (vd & vi & E & Lvd & Lvi). rewrite E. cbn [bind].
    destruct (erase_self float f back) as [| h ?].
    + destruct (update_at_ok vi c (fun p => (fst p, snd p + 1)))
        as (vi' & E' & L'); [lia |].
      rewrite E'. cbn [bind]. eexists. split; [reflexivity |].
      unfold votes_sized. cbn. repeat split; congruence.
    + destruct (update_at_ok vd c
                  (fun p => (fst p, float_add (snd p) (hit_t float h))))
        as (vd' & E' & L'); [lia |].
      rewrite E'. cbn [bind]. eexists. split; [reflexivity |].
      unfold votes_sized. cbn. repeat split; congruence.
Qed.

Lemma shoot_all_ok (use_parity : bool) (C : list Z) (n : nat)
    (rays : list (Z * list hit * list hit)) (v : votes float) :
  votes_sized' n v ->
  Forall (fun c => 0 <= c < Z.of_nat n) C ->
  Forall (fun ray => 0 <= fst (fst ray) < Z.of_nat (length C)) rays ->
  exists v', shoot_all' use_parity C v rays = Ok v' /\ votes_sized' n v'.
Proof.
  intros Hv HC Hrays. revert v Hv.
  induction Hrays as [| ray rest Hray _ IH]; intros v Hv; cbn [shoot_all].
  - exists v. split; [reflexivity | exact Hv].
  - destruct (shoot_ok use_parity C n v ray Hv HC Hray) as (v1 & E1 & Hv1).
    rewrite E1. cbn [bind]. apply IH. exact Hv1.
Qed.

Lemma flag_ok (use_parity : bool) (n : nat) (v : votes float) (c : Z) :
  votes_sized' n v -> 0 <= c < Z.of_nat n ->
  exists x, flag' use_parity v c = Ok x /\ (x = 0 \/ x = 1).
Proof.
  intros (Ld & Li & Lp) Hc. unfold flag. destruct use_parity.
  - destruct (nth_error_lt (C_vote_parity float v) (Z.to_nat c)) as (p & Ep); [lia |].
    pose proof (vector_at_nth _ _ p Ep) as X. rewrite Z2Nat.id in X by lia.
    rewrite X. cbn [bind]. eexists. split; [reflexivity |].
    destruct (fst p >? snd p); auto.
  - destruct (nth_error_lt (C_vote_infinity float v) (Z.to_nat c)) as (i & Ei); [lia |].
    destruct (nth_error_lt (C_vote_distance float v) (Z.to_nat c)) as (d & Ed); [lia |].
    pose proof (vector_at_nth _ _ i Ei) as X. rewrite Z2Nat.id in X by lia.
    pose proof (vector_at_nth _ _ d Ed) as Y. rewrite Z2Nat.id in Y by lia.
    rewrite X. cbn [bind]. rewrite Y. cbn [bind]. eexists. split; [reflexivity |].
    destruct ((fst i =? snd i) && float_lt (fst d) (snd d) || (fst i <? snd i)); auto.
Qed.

(** C10.  With patch labels as [bfs_orient] delivers them (one label per
    face, none negative) and rays that start on faces of the mesh, the
    output has one flag per face, every flag is 0 or 1, and two faces
    with the same label get the same flag. *)
Theorem flags_are_per_patch (m : nat) (C : list Z) (use_parity : bool)
    (rays : list (Z * list hit * list hit)) :
  length C = m -> (0 < m)%nat ->
  Forall (fun c => 0 <= c) C ->
  Forall (fun ray => 0 <= fst (fst ray) < Z.of_nat m) rays ->
  exists I,
    reorient_facets_raycast ndebug float float_zero float_add float_lt
      m C use_parity rays = Ok I
    /\ length I = m
    /\ Forall (fun x => x = 0 \/ x = 1) I
    /\ (forall f1 f2 c,
          nth_error C f1 = Some c -> nth_error C f2 = Some c ->
          nth_error I f1 = nth_error I f2).
Proof.
  intros HlenC Hm Hpos Hrays.
  unfold reorient_facets_raycast.
  destruct (maxCoeff_bound C) as (mx & Emx & Hmx);
    [destruct C; [cbn in HlenC; lia | discriminate] |].
  rewrite Emx. cbn [bind].
  set (n := Z.to_nat (mx + 1)).
  assert (HC : Forall (fun c => 0 <= c < Z.of_nat n) C).
  { rewrite Forall_forall in *. intros c Hc.
    specialize (Hpos c Hc). specialize (Hmx c Hc). subst n. lia. }
  assert (Hv0 : votes_sized' n
            (mkVotes float (repeat (float_zero, float_zero) n)
               (repeat (0, 0) n) (repeat (0, 0) n))).
  { unfold votes_sized. cbn. rewrite !repeat_length. auto. }
  destruct (shoot_all_ok use_parity C n rays _ Hv0 HC) as (v & Ev & Hv).
  { rewrite HlenC. exact Hrays. }
  rewrite Ev. cbn [bind].
  set (g := fun f => c <- eigen_at ndebug C f ;; flag' use_parity v c).
  assert (Hg : forall k c, nth_error C k = Some c ->
                g (Z.of_nat k) = flag' use_parity v c).
  { intros k c Hk. unfold g. rewrite (eigen_at_nth ndebug C k c Hk). reflexivity. }
  assert (Hgok : forall k, (k < m)%nat ->
                 exists x, g (Z.of_nat k) = Ok x /\ (x = 0 \/ x = 1)).
  { intros k Hk. destruct (nth_error_lt C k) as (c & Ec); [lia |].
    rewrite (Hg k c Ec). apply (flag_ok use_parity n); [exact Hv |].
    apply nth_error_In in Ec. rewrite Forall_forall in HC. exact (HC c Ec). }
  destruct (mapM_ok g (map Z.of_nat (seq 0 m))) as (I & EI).
  { intros x Hx. apply in_map_iff in Hx. destruct Hx as (k & <- & Hk).
    apply in_seq in Hk. destruct (Hgok k) as (y & Ey & _); [lia | eauto]. }
  exists I. split; [exact EI |].
  pose proof (mapM_length _ _ _ EI) as HlenI.
  rewrite length_map, length_seq in HlenI.
  split; [exact HlenI |]. split.
  - apply Forall_forall. intros x Hx.
    apply In_nth_error in Hx. destruct Hx as (k & Ek).
    assert (Hk : (k < m)%nat) by (rewrite <- HlenI; apply nth_error_Some; congruence).
    destruct (mapM_nth _ _ _ k _ EI (nth_error_seq_Z m k Hk)) as (y & Ey & Gy).
    destruct (Hgok k Hk) as (z & Gz & Hz).
    congruence.
  - intros f1 f2 c H1 H2.
    assert (K1 : (f1 < m)%nat) by (rewrite <- HlenC; apply nth_error_Some; congruence).
    assert (K2 : (f2 < m)%nat) by (rewrite <- HlenC; apply nth_error_Some; congruence).
    destruct (mapM_nth _ _ _ f1 _ EI (nth_error_seq_Z m f1 K1)) as (y1 & E1 & G1).
    destruct (mapM_nth _ _ _ f2 _ EI (nth_error_seq_Z m f2 K2)) as (y2 & E2 & G2).
    rewrite (Hg f1 c H1) in G1. rewrite (Hg f2 c H2) in G2.
    congruence.
Qed.

End ReorientFacts.

(** ** The triangles of a facet subset *)

Section SubsetOrder.

Variable ndebug : bool.
Variable V : list Point_3.
Variable F : list Facet.

Local Abbreviation row := (eigen_at ndebug).
Local Abbreviation owner_of k := (to_index (to_size_t k)).

Lemma owner_in_range (J : list Z) (k fi : Z) :
  row J (owner_of k) = Ok fi -> owner_of k = to_size_t k.
Proof.
  intros H. apply eigen_at_ok in H. destruct H as [Hr _].
  unfold to_index in *.
  assert (0 <= to_size_t k < 2 ^ 64) by (unfold to_size_t; apply Z.mod_pos_bound; lia).
  destruct (to_size_t k <? 2 ^ 63); lia.
Qed.

Lemma built_triangle (J : list Z) (tl : list Triangle) (k fi : Z) :
  build_triangles ndebug V F J = Ok tl ->
  row J (owner_of k) = Ok fi ->
  exists t, vector_at tl (to_size_t k) = Ok t
            /\ make_triangle ndebug V F fi = Ok t.
Proof.
  intros Hb Hk. pose proof (owner_in_range J k fi Hk) as E.
  rewrite E in Hk. apply eigen_at_ok in Hk. destruct Hk as [Hr Hn].
  destruct (mapM_nth _ _ _ _ _ Hb Hn) as (t & Ht & Hm).
  exists t. split; [| exact Hm].
  pose proof (vector_at_nth tl _ t Ht) as X. rewrite Z2Nat.id in X by lia.
  exact X.
Qed.

End SubsetOrder.

Lemma build_triangles_perm (ndebug : bool) (V : list Point_3) (F : list Facet)
    (I I' : list Z) (ts : list Triangle) :
  Permutation I I' -> build_triangles ndebug V F I = Ok ts ->
  exists ts', build_triangles ndebug V F I' = Ok ts'.
Proof.
  intros Hperm Hts. unfold build_triangles in *. apply mapM_ok.
  intros fi Hfi. apply (Permutation_in _ (Permutation_sym Hperm)) in Hfi.
  apply In_nth_error in Hfi. destruct Hfi as (k & Hk).
  destruct (mapM_nth _ _ _ _ _ Hts Hk) as (t & _ & Ht). eauto.
Qed.

(** ** Concrete runs *)

Section ConcreteRuns.

Import Samples.

Lemma index_contract_samples (nearest : list Triangle -> Point_3 -> Point_3 * Z) :
  (forall ts q, snd (nearest ts q) = 0) ->
  index_contract nearest report_all.
Proof.
  intros Hzero. constructor.
  - intros ts q Hne. rewrite Hzero. destruct ts; [congruence | cbn [length]; lia].
  - intros ts g i Hi. unfold report_all in Hi.
    apply in_map_iff in Hi. destruct Hi as (k & <- & Hk).
    apply in_seq in Hk. lia.
  - intros ts g. unfold report_all.
    apply NoDup_map_of_nat, seq_NoDup.
  - intros ts g i t Hi _. unfold report_all.
    apply in_map, in_seq.
    assert (i < length ts)%nat by (apply nth_error_Some; congruence). lia.
Qed.

(** C4, at the query (-1,-1,0) in the plane of the single triangle
    (0,0,0), (1,0,0), (0,1,0), whose nearest point is corner 0: the only
    candidate plane contains the query, so no vertex [d] is found.  With
    assertions compiled in the process aborts at [assert(d != max)]; with
    [NDEBUG] the call goes on to [process_edge_case] with d = SIZE_MAX
    and reads row -1 of [V].  No [std::runtime_error] is thrown in either
    build. *)
Theorem unresolved_vertex_case_is_only_asserted :
  closest_facet_all false nearest_corner0 report_all order_never
    V_tri F_tri [pt (-1) (-1) 0] no_out
  = (Abort AssertEdgeFound, mkOut [None] [None])
  /\ closest_facet_all true nearest_corner0 report_all order_never
       V_tri F_tri [pt (-1) (-1) 0] no_out
     = (Undefined, mkOut [None] [None]).
Proof. split; vm_compute; reflexivity. Qed.

(** C1 fails as worded: on the wedge, with the angular order (facet 0,
    facet 1) and facet 1 preferred, the last entry is returned with
    orientation true although its signed index, 2, is positive. *)
Lemma last_entry_sign_is_reversed : ~ orientation_is_negative_sign.
Proof.
  intros Hclaim.
  pose proof (Hclaim false report_all order_as_given V_wedge F_wedge [0; 1]
                [q_wedge] ts_wedge 0 0 1 1
                (pt 0 0 0) (pt 1 0 0) q_wedge [0; 1] [-1; 2] 1 true) as H.
  do 4 specialize (H ltac:(vm_compute; reflexivity)).
  specialize (H ltac:(cbn [length]; lia)).
  do 2 specialize (H ltac:(vm_compute; reflexivity)).
  destruct H as (k & sg & Hk & Hsg & Hori).
  destruct k as [| [| k]].
  - cbn in Hk. discriminate Hk.
  - cbn in Hsg. inversion Hsg; subst sg. cbn in Hori. discriminate Hori.
  - destruct k; cbn in Hk; discriminate Hk.
Qed.

(** The two runs on the wedge: whichever of the two facets comes last
    in the angular order, preferring it returns it with the orientation
    "signed index positive". *)
Lemma wedge_runs :
  signed_indices false F_wedge 0 1 [0; 1] = Ok [-1; 2]
  /\ process_edge_case false report_all order_as_given V_wedge F_wedge [0; 1]
       [q_wedge] ts_wedge 0 0 1 1 = Ok (1, true)
  /\ process_edge_case false report_all order_reversed V_wedge F_wedge [0; 1]
       [q_wedge] ts_wedge 0 0 1 0 = Ok (0, false).
Proof. repeat split; vm_compute; reflexivity. Qed.

(** On the roof the middle of the ridge lies on both facets and no
    point of either facet is nearer to the query above it: the nearest
    primitive is a tie between the two. *)
Lemma ridge_is_nearest_on_both :
  Forall (on_triangle mid_ridge) ts_roof
  /\ forall t p, In t ts_roof -> on_triangle p t ->
       (squared_distance q_ridge mid_ridge <= squared_distance q_ridge p)%Q.
Proof.
  split.
  - repeat constructor.
    + exists (1 # 2)%Q, (1 # 2)%Q, 0%Q. cbn. repeat split; try lra; reflexivity.
    + exists (1 # 2)%Q, (1 # 2)%Q, 0%Q. cbn. repeat split; try lra; reflexivity.
  - assert (Hsq : forall u : Q, (0 <= u * u)%Q) by (intros u; nra).
    intros t p [<- | [<- | []]] (x & y & z & (Hx & Hy & Hz & Hsum) & Ex & Ey & Ez);
      unfold squared_distance; cbn in *; rewrite Ex, Ey, Ez;
      unfold inject_Z.
    + pose proof (Hsq ((1 # 2) - y)%Q). pose proof (Hsq z). lra.
    + pose proof (Hsq ((1 # 2) - (x + z))%Q). pose proof (Hsq z). lra.
Qed.

(** The two runs on the roof, query above the middle of the ridge: the
    index names primitive 0 as the owner of the nearest point both times,
    which is facet 0 of the mesh for the subset [0;1] and facet 1 for the
    subset [1;0]; both facets are intersected, so the preferred one is
    the first or the last of any angular order and is returned. *)
Lemma roof_runs :
  closest_facet false nearest_mid01 report_all order_as_given
    V_roof F_roof [0; 1] [q_ridge] no_out
  = (Ok tt, mkOut [Some 0] [Some 1])
  /\ closest_facet false nearest_mid01 report_all order_as_given
       V_roof F_roof [1; 0] [q_ridge] no_out
     = (Ok tt, mkOut [Some 1] [Some 1])
  /\ closest_facet false nearest_mid01 report_all order_reversed
       V_roof F_roof [0; 1] [q_ridge] no_out
     = (Ok tt, mkOut [Some 0] [Some 0])
  /\ closest_facet false nearest_mid01 report_all order_reversed
       V_roof F_roof [1; 0] [q_ridge] no_out
     = (Ok tt, mkOut [Some 1] [Some 0]).
Proof. repeat split; vm_compute; reflexivity. Qed.

End ConcreteRuns.

(** ** The statements at concrete inputs *)

Section Instances.

Import Samples.

(** C1 on the wedge: two intersected facets, angular order (0, 1),
    facet 1 preferred. *)
Lemma wedge_first_then_last :
  exists o_first o_last i_first i_last sg_first sg_last,
    nth_error [0; 1] 0 = Some o_first
    /\ nth_error [0; 1] (2 - 1) = Some o_last
    /\ nth_error [0; 1] (Z.to_nat o_first) = Some i_first
    /\ nth_error [0; 1] (Z.to_nat o_last) = Some i_last
    /\ nth_error [-1; 2] (Z.to_nat o_first) = Some sg_first
    /\ nth_error [-1; 2] (Z.to_nat o_last) = Some sg_last
    /\ process_edge_case false report_all order_as_given V_wedge F_wedge
         [0; 1] [q_wedge] ts_wedge 0 0 1 1
       = Ok (if i_first =? 1 then (i_first, sg_first <? 0)
             else if i_last =? 1 then (i_last, sg_last >? 0)
             else (i_first, sg_first <? 0)).
Proof.
  apply (edge_case_first_or_last false report_all order_as_given
           V_wedge F_wedge [0; 1] [q_wedge] ts_wedge 0 0 1 1
           (pt 0 0 0) (pt 1 0 0) q_wedge [0; 1] [-1; 2] [0; 1]).
  - reflexivity.
  - reflexivity.
  - reflexivity.
  - vm_compute. lia.
  - vm_compute. reflexivity.
  - vm_compute. reflexivity.
  - vm_compute. reflexivity.
  - reflexivity.
  - apply Permutation_refl.
Defined.

(** C2 on the single triangle: edge (0,1), query above the plane. *)
Lemma boundary_edge_of_one_triangle :
  process_edge_case false report_all order_as_given V_tri F_tri [0]
    [pt 0 0 1] [t_tri] 0 0 1 0
  = Ok (0, true)
  /\ process_edge_case false report_all order_as_given V_tri F_tri [0]
       [pt 0 0 1] [t_tri] 0 0 1 0
     = process_edge_case false report_all
         (fun _ _ _ _ _ _ => Throw OrderFacetsFailure) V_tri F_tri [0]
         [pt 0 0 1] [t_tri] 0 0 1 0.
Proof.
  exact (single_intersection_uses_plane_side false report_all order_as_given
           V_tri F_tri [0] [pt 0 0 1] [t_tri] 0 0 1 0
           (pt 0 0 0) (pt 1 0 0) (pt 0 0 1) 0 0 (0, 1, 2) false
           (pt 0 0 0) (pt 1 0 0) (pt 0 1 0)
           eq_refl eq_refl eq_refl eq_refl eq_refl eq_refl eq_refl
           eq_refl eq_refl eq_refl).
Defined.

(** C3 on the single triangle: the middle of edge (0,1) is an EDGE point
    with element index 2. *)
Lemma classify_edge_midpoint :
  determine_element_type [t_tri] (mkPoint (1 # 2) 0 0) 0 = Ok (EDGE, 2).
Proof.
  exact (proj1 (determine_element_type_priority [t_tri]
                  (mkPoint (1 # 2) 0 0) 0 t_tri eq_refl)).
Defined.

(** C5 on three collinear points: an empty subset, and a subset that
    selects the needle. *)
Lemma empty_and_needle_rejected :
  closest_facet false nearest_corner0 report_all order_never
    V_flat [(0, 1, 2)] [] [pt 0 0 1] no_out = (Throw EmptyMesh, no_out)
  /\ closest_facet false nearest_corner0 report_all order_never
       V_flat [(0, 1, 2)] [0] [pt 0 0 1] no_out
     = (Throw DegeneratedTriangles, no_out).
Proof.
  split.
  - apply (proj1 (construction_rejects_bad_input false nearest_corner0
                    report_all order_never V_flat [(0, 1, 2)] []
                    [pt 0 0 1] no_out)).
    right. reflexivity.
  - apply (proj2 (construction_rejects_bad_input false nearest_corner0
                    report_all order_never V_flat [(0, 1, 2)] [0]
                    [pt 0 0 1] no_out)).
    + constructor; [| constructor].
      exists (pt 0 0 0, pt 1 0 0, pt 2 0 0).
      exists (0, 1, 2), (pt 0 0 0), (pt 1 0 0), (pt 2 0 0).
      repeat split; reflexivity.
    + constructor.
      exists (pt 0 0 0, pt 1 0 0, pt 2 0 0). split.
      * exists (0, 1, 2), (pt 0 0 0), (pt 1 0 0), (pt 2 0 0).
        repeat split; reflexivity.
      * vm_compute. reflexivity.
Defined.

(** C6 on the single triangle, for the pair (1,1), which is no edge. *)
Lemma connectivity_of_one_triangle :
  get_orientation false F_tri 0 1 1 = Throw IncorrectConnectivity <->
  edge_matches (0, 1, 2) 1 1 = [].
Proof.
  exact (proj1 (get_orientation_connectivity false report_all order_never
                  V_tri F_tri [0] [] 0 1 1 (0, 1, 2) eq_refl)).
Defined.

(** C7 on the single triangle, nearest point (1/4, 1/4, 0). *)
Lemma interior_point_of_one_triangle :
  resolve false nearest_inside report_all order_never V_tri F_tri [0]
    [pt 0 0 1] [t_tri] 0
  = process_face_case false report_all order_never V_tri F_tri [0]
      [pt 0 0 1] [t_tri] 0 0
  /\ process_face_case false report_all order_never V_tri F_tri [0]
       [pt 0 0 1] [t_tri] 0 0
     = process_edge_case false report_all order_never V_tri F_tri [0]
         [pt 0 0 1] [t_tri] 0 0 1 0.
Proof.
  exact (face_case_is_edge_case false nearest_inside report_all order_never
           V_tri F_tri [0] [pt 0 0 1] [t_tri] 0 (pt 0 0 1) t_tri 0 (0, 1, 2)
           eq_refl eq_refl eq_refl eq_refl eq_refl eq_refl).
Defined.

(** C8 on the single triangle, query (0,0,1). *)
Lemma query_above_one_triangle :
  closest_facet_all false nearest_corner0 report_all order_never
    V_tri F_tri [pt 0 0 1] no_out
  = (Ok tt, mkOut [Some 0] [Some 1]).
Proof.
  apply (proj1 (single_triangle_resolves_by_side false nearest_corner0
                  report_all order_never V_tri (0, 1, 2) t_tri (pt 0 0 1) no_out
                  (index_contract_samples nearest_corner0 (fun _ _ => eq_refl))
                  ltac:(repeat split; vm_compute; congruence)
                  ltac:(exists (0, 1, 2), (pt 0 0 0), (pt 1 0 0), (pt 0 1 0);
                        repeat split; reflexivity)
                  ltac:(vm_compute; discriminate))).
  vm_compute. reflexivity.
Defined.

(** C10 on three faces in two patches, distance votes. *)
Lemma flags_of_three_faces :
  exists I,
    reorient_facets_raycast false Q 0%Q Qplus qlt 3 [0; 0; 1] false rays_sample
    = Ok I
    /\ length I = 3%nat
    /\ Forall (fun x => x = 0 \/ x = 1) I
    /\ (forall f1 f2 c,
          nth_error [0; 0; 1] f1 = Some c -> nth_error [0; 0; 1] f2 = Some c ->
          nth_error I f1 = nth_error I f2).
Proof.
  apply (flags_are_per_patch false Q 0%Q Qplus qlt 3 [0; 0; 1] false rays_sample).
  - reflexivity.
  - lia.
  - repeat constructor; lia.
  - repeat constructor; cbn; lia.
Defined.

End Instances.

(* ================================================================== *)
(** * Further properties of closest_facet.cpp *)

(** ** Signed indices *)

Lemma signed_index_small (index : Z) (ori : bool) :
  0 <= index < 2 ^ 31 - 1 ->
  index_to_signed_index index ori = if ori then index + 1 else - (index + 1).
Proof.
  intros H. unfold index_to_signed_index.
  rewrite (Z.mod_small (index + 1)) by lia.
  destruct ori.
  - change (to_size_t 1) with 1. rewrite Z.mul_1_r.
    rewrite Z.mod_small by lia. apply to_int_small. lia.
  - change (to_size_t (-1)) with (2 ^ 64 - 1).
    assert (E : ((index + 1) * (2 ^ 64 - 1)) mod 2 ^ 64 = 2 ^ 64 - (index + 1)).
    { symmetry. apply Z.mod_unique with (q := index); lia. }
    rewrite E. unfold to_int.
    assert (E' : (2 ^ 64 - (index + 1) + 2 ^ 31) mod 2 ^ 32
                 = 2 ^ 31 - (index + 1)).
    { symmetry. apply Z.mod_unique with (q := 2 ^ 32); lia. }
    rewrite E'. lia.
Qed.

(** X1.  For a facet id below 2^31 - 1 the signed index is id + 1 with
    the sign of the orientation: it is never 0, it is negative exactly
    when the orientation is false, and |signed| - 1 gives the id back
    (the inverse that the source keeps in a comment).  At id = 2^31 - 1
    the conversion to [int] wraps and both orientations give -2^31. *)
Theorem signed_index_round_trip (index : Z) (ori : bool) :
  0 <= index < 2 ^ 31 - 1 ->
  index_to_signed_index index ori <> 0
  /\ (index_to_signed_index index ori <? 0) = negb ori
  /\ Z.abs (index_to_signed_index index ori) - 1 = index
  /\ index_to_signed_index (2 ^ 31 - 1) true
     = index_to_signed_index (2 ^ 31 - 1) false.
Proof.
  intros H. rewrite (signed_index_small index ori H).
  assert (Hwrap : index_to_signed_index (2 ^ 31 - 1) true
                  = index_to_signed_index (2 ^ 31 - 1) false)
    by (vm_compute; reflexivity).
  destruct ori; cbn [negb]; repeat split; try lia; exact Hwrap.
Qed.

(** ** Winding and edge direction *)

Lemma sign_of_opp (x y : Q) : (x == - y)%Q -> sign_of x = opposite (sign_of y).
Proof.
  intros H. unfold sign_of.
  destruct (Qcompare_spec x 0) as [E | E | E],
           (Qcompare_spec y 0) as [E' | E' | E'];
    try reflexivity; exfalso; lra.
Qed.

Lemma orientation_swap (p q r x : Point_3) :
  orientation q p r x = opposite (orientation p q r x).
Proof. unfold orientation. apply sign_of_opp, det3_swap. Qed.

Lemma orientation_rot (p q r x : Point_3) :
  orientation q r p x = orientation p q r x.
Proof. unfold orientation. apply sign_of_morph, det3_rot. Qed.

Lemma facet_orientation_reverse (f : Facet) (s d : Z) :
  facet_ints f -> facet_distinct f ->
  facet_orientation f d s = negated (facet_orientation f s d).
Proof.
  destruct f as [[a b] c].
  unfold facet_ints, facet_distinct. cbn.
  intros (Ia & Ib & Ic) (Hab & Hbc & Hca).
  assert (Nab : to_size_t a <> to_size_t b)
    by (intros E; apply Hab, to_size_t_inj; assumption).
  assert (Nbc : to_size_t b <> to_size_t c)
    by (intros E; apply Hbc, to_size_t_inj; assumption).
  assert (Nca : to_size_t c <> to_size_t a)
    by (intros E; apply Hca, to_size_t_inj; assumption).
  unfold facet_orientation, negated. cbn.
  destruct (Z.eqb_spec (to_size_t a) s), (Z.eqb_spec (to_size_t b) s),
    (Z.eqb_spec (to_size_t c) s), (Z.eqb_spec (to_size_t a) d),
    (Z.eqb_spec (to_size_t b) d), (Z.eqb_spec (to_size_t c) d);
    cbn; try reflexivity; congruence.
Qed.

Lemma facet_orientation_flip (f : Facet) (s d : Z) :
  facet_ints f -> facet_distinct f ->
  facet_orientation (flip_winding f) s d = negated (facet_orientation f s d).
Proof.
  destruct f as [[a b] c].
  unfold facet_ints, facet_distinct, flip_winding. cbn.
  intros (Ia & Ib & Ic) (Hab & Hbc & Hca).
  assert (Nab : to_size_t a <> to_size_t b)
    by (intros E; apply Hab, to_size_t_inj; assumption).
  assert (Nbc : to_size_t b <> to_size_t c)
    by (intros E; apply Hbc, to_size_t_inj; assumption).
  assert (Nca : to_size_t c <> to_size_t a)
    by (intros E; apply Hca, to_size_t_inj; assumption).
  unfold facet_orientation, negated. cbn.
  destruct (Z.eqb_spec (to_size_t a) s), (Z.eqb_spec (to_size_t b) s),
    (Z.eqb_spec (to_size_t c) s), (Z.eqb_spec (to_size_t a) d),
    (Z.eqb_spec (to_size_t b) d), (Z.eqb_spec (to_size_t c) d);
    cbn; try reflexivity; congruence.
Qed.

Lemma facet_orientation_rotate (f : Facet) (s d : Z) :
  facet_orientation (rotate_winding f) s d = facet_orientation f s d.
Proof.
  destruct f as [[a b] c]. unfold rotate_winding, facet_orientation. cbn.
  destruct (to_size_t a =? s), (to_size_t b =? s), (to_size_t c =? s),
    (to_size_t a =? d), (to_size_t b =? d), (to_size_t c =? d); reflexivity.
Qed.

Section WindingFacts.

Variable ndebug : bool.
Variable V : list Point_3.

Local Abbreviation row := (eigen_at ndebug).

Lemma eigen_at_cases {A} (M : list A) (i : Z) :
  (exists a, row M i = Ok a) \/ row M i = index_failure ndebug.
Proof.
  unfold eigen_at, index_failure.
  destruct ((0 <=? i) && (i <? Z.of_nat (length M))) eqn:E.
  - apply andb_true_iff in E. destruct E as [E0 E1].
    apply Z.leb_le in E0. apply Z.ltb_lt in E1.
    destruct (nth_error_lt M (Z.to_nat i)) as (a & Ea); [lia |].
    rewrite Ea. left. eauto.
  - right. reflexivity.
Qed.

Lemma bind_index_failure {A B} (k : A -> outcome B) :
  bind (index_failure ndebug) k = index_failure ndebug.
Proof. unfold index_failure. destruct ndebug; reflexivity. Qed.

(** X3.  [get_orientation] depends on the winding only: rotating the
    corners of the facet leaves the answer as it is; for a facet with
    three distinct [int] indices, reversing the edge (s,d) -> (d,s)
    negates the answer, and so does reversing the facet's winding; the
    connectivity error is the same in all cases. *)
Theorem get_orientation_follows_winding
    (F Fflip Frot : list Facet) (fid s d : Z) (f : Facet) :
  row F (to_index fid) = Ok f ->
  row Fflip (to_index fid) = Ok (flip_winding f) ->
  row Frot (to_index fid) = Ok (rotate_winding f) ->
  get_orientation ndebug Frot fid s d = get_orientation ndebug F fid s d
  /\ (facet_ints f -> facet_distinct f ->
      get_orientation ndebug F fid d s
      = negated (get_orientation ndebug F fid s d)
      /\ get_orientation ndebug Fflip fid s d
         = negated (get_orientation ndebug F fid s d)).
Proof.
  intros Hf Hflip Hrot. unfold get_orientation.
  rewrite Hf, Hflip, Hrot. cbn [bind]. split.
  - apply facet_orientation_rotate.
  - intros Hi Hd. split.
    + apply facet_orientation_reverse; assumption.
    + apply facet_orientation_flip; assumption.
Qed.

(** X2.  [on_the_positive_side] depends on the winding only: rotating
    the corners of the facet leaves the answer as it is, and reversing
    the winding negates it; the self-intersection error (query in the
    plane) and a failed index check are the same in both. *)
Theorem positive_side_follows_winding
    (F Fflip Frot : list Facet) (fid : Z) (f : Facet) (p : Point_3) :
  row F (to_index fid) = Ok f ->
  row Fflip (to_index fid) = Ok (flip_winding f) ->
  row Frot (to_index fid) = Ok (rotate_winding f) ->
  on_the_positive_side ndebug V Frot fid p
  = on_the_positive_side ndebug V F fid p
  /\ on_the_positive_side ndebug V Fflip fid p
     = negated (on_the_positive_side ndebug V F fid p).
Proof.
  intros Hf Hflip Hrot. unfold on_the_positive_side.
  rewrite Hf, Hflip, Hrot. cbn [bind].
  destruct f as [[a b] c]. unfold flip_winding, rotate_winding. cbn.
  destruct (eigen_at_cases V a) as [(v0 & ->) | ->],
           (eigen_at_cases V b) as [(v1 & ->) | ->],
           (eigen_at_cases V c) as [(v2 & ->) | ->];
    cbn [bind]; rewrite ?bind_index_failure;
    try (split; unfold index_failure, negated; destruct ndebug; reflexivity).
  rewrite (orientation_rot v0 v1 v2 p), (orientation_swap v0 v1 v2 p).
  destruct (orientation v0 v1 v2 p); split; reflexivity.
Qed.

End WindingFacts.

(** ** Classification, edge case and vertex case *)

Lemma bind_ok {A B} (m : outcome A) (k : A -> outcome B) (b : B) :
  bind m k = Ok b -> exists a, m = Ok a /\ k a = Ok b.
Proof. destruct m; cbn [bind]; intros H; try discriminate H. eauto. Qed.

Lemma vector_at_in {A} (v : list A) (i : Z) (a : A) :
  vector_at v i = Ok a -> In a v.
Proof.
  unfold vector_at. destruct ((0 <=? i) && (i <? Z.of_nat (length v)));
    [| discriminate].
  destruct (nth_error v (Z.to_nat i)) eqn:E; [| discriminate].
  intros H. inversion H; subst. eapply nth_error_In; eassumption.
Qed.

Lemma mapM_in {A B} (g : A -> outcome B) (l : list A) (l' : list B) (b : B) :
  mapM g l = Ok l' -> In b l' -> exists a, In a l /\ g a = Ok b.
Proof.
  revert l'. induction l as [| x l IH]; intros l' H Hb; cbn [mapM] in H.
  - inversion H; subst. contradiction.
  - apply bind_ok in H. destruct H as (bx & Ex & H).
    apply bind_ok in H. destruct H as (bs & Es & H).
    inversion H; subst l'. destruct Hb as [<- | Hb].
    + exists x. split; [left; reflexivity | exact Ex].
    + destruct (IH bs Es Hb) as (a & Ha & Ga). exists a. split; [right |]; assumption.
Qed.

(** X4.  What [determine_element_type] returns fits the way the loop
    over the queries uses it: the index is 0, 1 or 2; for VERTEX the
    point equals that corner; for EDGE the point is no corner and is
    collinear with the corners (index+1)%3 and (index+2)%3, the two that
    the loop takes as the edge (s,d); for FACE the index is 0 and the
    point is on none of the three edge lines. *)
Theorem element_type_fits_dispatch
    (triangles : list Triangle) (p : Point_3) (fid : Z) (tri : Triangle)
    (ty : ElementType) (idx : Z) :
  vector_at triangles fid = Ok tri ->
  determine_element_type triangles p fid = Ok (ty, idx) ->
  let corner k := vertex tri (Z.to_nat k) in
  let no_corner :=
    point_eqb p (vertex tri 0) = false /\ point_eqb p (vertex tri 1) = false
    /\ point_eqb p (vertex tri 2) = false in
  0 <= idx < 3
  /\ match ty with
     | VERTEX => point_eqb p (corner idx) = true
     | EDGE =>
         no_corner
         /\ collinear (corner ((idx + 1) mod 3)) (corner ((idx + 2) mod 3)) p
            = true
     | FACE =>
         idx = 0 /\ no_corner
         /\ collinear (vertex tri 0) (vertex tri 1) p = false
         /\ collinear (vertex tri 1) (vertex tri 2) p = false
         /\ collinear (vertex tri 2) (vertex tri 0) p = false
     end.
Proof.
  intros Htri H. rewrite (determine_element_type_classification _ _ _ _ Htri) in H.
  revert H. unfold classification. cbn [first_true option_map].
  destruct (point_eqb p (vertex tri 0)) eqn:E0;
    [intros H; inversion H; subst; cbn; split; [lia | exact E0] |].
  destruct (point_eqb p (vertex tri 1)) eqn:E1;
    [intros H; inversion H; subst; cbn; split; [lia | exact E1] |].
  destruct (point_eqb p (vertex tri 2)) eqn:E2;
    [intros H; inversion H; subst; cbn; split; [lia | exact E2] |].
  destruct (collinear (vertex tri 0) (vertex tri 1) p) eqn:C0;
    [intros H; inversion H; subst; cbn; split; [lia | auto] |].
  destruct (collinear (vertex tri 1) (vertex tri 2) p) eqn:C1;
    [intros H; inversion H; subst; cbn; split; [lia | auto] |].
  destruct (collinear (vertex tri 2) (vertex tri 0) p) eqn:C2;
    intros H; inversion H; subst; cbn; split; try lia; auto 10.
Qed.

Section AdjacentVertexFacts.

Variable ndebug : bool.
Variable V : list Point_3.
Variable F : list Facet.

Local Abbreviation row := (eigen_at ndebug).

Lemma set_insert_in (x y : Z) (l : list Z) :
  In y (set_insert x l) <-> y = x \/ In y l.
Proof.
  induction l as [| z l IH]; cbn [set_insert].
  - cbn. intuition.
  - destruct (x <? z) eqn:E1; [cbn; intuition |].
    destruct (Z.eqb_spec x z) as [-> | N]; [cbn; intuition |].
    cbn [In]. rewrite IH. intuition.
Qed.

Lemma set_insert_sorted (x : Z) (l : list Z) :
  StronglySorted Z.lt l -> StronglySorted Z.lt (set_insert x l).
Proof.
  induction 1 as [| z l Hl IH Hz]; cbn [set_insert].
  - repeat constructor.
  - destruct (x <? z) eqn:E1.
    + apply Z.ltb_lt in E1. constructor; [constructor; assumption |].
      constructor; [exact E1 |].
      eapply Forall_impl; [| exact Hz]. cbn. intros; lia.
    + apply Z.ltb_ge in E1.
      destruct (Z.eqb_spec x z) as [-> | N]; [constructor; assumption |].
      constructor; [exact IH |].
      apply Forall_forall. intros y Hy. apply set_insert_in in Hy.
      destruct Hy as [-> | Hy]; [lia |].
      rewrite Forall_forall in Hz. apply Hz. exact Hy.
Qed.

Lemma insert_unless_in (s v y : Z) (acc : list Z) :
  In y (insert_unless s v acc) <-> In y acc \/ (y = to_size_t v /\ y <> s).
Proof.
  unfold insert_unless. destruct (Z.eqb_spec (to_size_t v) s) as [E | N].
  - intuition congruence.
  - rewrite set_insert_in. intuition congruence.
Qed.

Lemma insert_unless_sorted (s v : Z) (acc : list Z) :
  StronglySorted Z.lt acc -> StronglySorted Z.lt (insert_unless s v acc).
Proof.
  intros H. unfold insert_unless.
  destruct (to_size_t v =? s); [exact H | apply set_insert_sorted; exact H].
Qed.

Lemma add_adjacent_in (s y : Z) (acc : list Z) (f : Facet) :
  In y (add_adjacent s acc f) <->
  In y acc \/ (In y (facet_vertices f) /\ y <> s).
Proof.
  unfold add_adjacent, facet_vertices. rewrite !insert_unless_in. cbn [In].
  intuition congruence.
Qed.

Lemma collect_adjacent_spec (s : Z) (indices acc adj : list Z) :
  StronglySorted Z.lt acc ->
  collect_adjacent ndebug F s indices acc = Ok adj ->
  StronglySorted Z.lt adj
  /\ forall x, In x adj <->
       In x acc
       \/ (x <> s /\ exists fid f, In fid indices
                                  /\ row F (to_index fid) = Ok f
                                  /\ In x (facet_vertices f)).
Proof.
  revert acc. induction indices as [| fid rest IH]; intros acc Hacc H;
    cbn [collect_adjacent] in H.
  - inversion H; subst adj. split; [exact Hacc |].
    intros x. split; [auto |]. intros [Hx | (_ & fid & f & [] & _)]. exact Hx.
  - apply bind_ok in H. destruct H as (f & Hf & H).
    apply IH in H; [| unfold add_adjacent; repeat apply insert_unless_sorted;
                      exact Hacc].
    destruct H as (Hsorted & Hin). split; [exact Hsorted |].
    intros x. rewrite Hin, add_adjacent_in. split.
    + intros [[Hx | (Hx & Hn)] | (Hn & fid' & f' & Hfid' & Hf' & Hx)].
      * left. exact Hx.
      * right. split; [exact Hn |]. exists fid, f. cbn [In]. auto.
      * right. split; [exact Hn |]. exists fid', f'. cbn [In]. auto.
    + intros [Hx | (Hn & fid' & f' & [<- | Hfid'] & Hf' & Hx)].
      * left. left. exact Hx.
      * rewrite Hf in Hf'. inversion Hf'; subst f'. left. right. auto.
      * right. split; [exact Hn |]. exists fid', f'. auto.
Qed.

Lemma other_corners_membership
    (s : Z) (indices adj : list Z) :
  collect_adjacent ndebug F s indices [] = Ok adj ->
  forall x, In x adj <->
    x <> s /\ exists fid f, In fid indices
                            /\ row F (to_index fid) = Ok f
                            /\ In x (facet_vertices f).
Proof.
  intros H. apply collect_adjacent_spec in H; [| constructor].
  destruct H as (_ & Hin). intros x. rewrite Hin. cbn [In]. tauto.
Qed.

(** X6.  The adjacent vertices gathered in the vertex case: the list is
    strictly ascending (so it has no duplicate), it never contains the
    shared vertex [s], and it holds exactly the corners other than [s] of
    the intersected facets. *)
Theorem adjacent_vertices_are_the_other_corners
    (s : Z) (indices adj : list Z) :
  collect_adjacent ndebug F s indices [] = Ok adj ->
  StronglySorted Z.lt adj
  /\ NoDup adj
  /\ ~ In s adj
  /\ forall x, In x adj <->
       x <> s /\ exists fid f, In fid indices
                               /\ row F (to_index fid) = Ok f
                               /\ In x (facet_vertices f).
Proof.
  intros H. pose proof H as H0.
  apply collect_adjacent_spec in H; [| constructor].
  destruct H as (Hsorted & Hin).
  pose proof (other_corners_membership s indices adj H0)
    as Hin'.
  split; [exact Hsorted |]. split; [| split; [| exact Hin']].
  - clear Hin Hin' H0. induction Hsorted as [| z l Hl IH Hz]; constructor.
    + intros Hz'. rewrite Forall_forall in Hz. specialize (Hz z Hz'). lia.
    + exact IH.
  - intros Hs. apply Hin' in Hs. destruct Hs as [Hs _]. congruence.
Qed.

Lemma count_side_zero (side : Sign) (h : Plane_3) (pts : list Point_3) :
  count_side side h pts = 0%nat <->
  Forall (fun p => oriented_side h p <> side) pts.
Proof.
  unfold count_side. induction pts as [| p pts IH]; cbn [filter].
  - split; [constructor | reflexivity].
  - destruct (Sign_eqb (oriented_side h p) side) eqn:E.
    + split; [discriminate |]. intros H. inversion H as [| ? ? Hp _]; subst.
      exfalso. apply Hp.
      destruct (oriented_side h p), side; try discriminate E; reflexivity.
    + rewrite IH. split.
      * intros H. constructor; [| exact H].
        intros Hp. rewrite Hp in E. destruct side; discriminate E.
      * intros H. inversion H; assumption.
Qed.

Lemma is_on_exterior_spec (adj_points : list Point_3) (q : Point_3)
    (h : Plane_3) :
  is_on_exterior adj_points q h = true <->
  oriented_side h q <> ZERO
  /\ Forall (fun p => oriented_side h p <> oriented_side h q) adj_points.
Proof.
  unfold is_on_exterior.
  rewrite orb_true_iff, !andb_true_iff, !Nat.eqb_eq, !count_side_zero.
  destruct (oriented_side h q); cbn [Sign_eqb]; split.
  - intros [[_ H] | [H _]]; [discriminate H | split; [discriminate | exact H]].
  - intros [_ H]. right. split; [exact H | reflexivity].
  - intros [[_ H] | [_ H]]; discriminate H.
  - intros [H _]. contradiction.
  - intros [[H _] | [_ H]]; [split; [discriminate | exact H] | discriminate H].
  - intros [_ H]. left. split; [exact H | reflexivity].
Qed.

Lemma search_j_true (adj_points : list Point_3)
    (closest_point query_point pi : Point_3) (pjs : list Point_3) :
  search_j ndebug adj_points closest_point query_point pi pjs = Ok true ->
  exists pj, In pj pjs
    /\ plane_is_degenerate (plane_from_points closest_point pi pj) = false
    /\ is_on_exterior adj_points query_point
         (plane_from_points closest_point pi pj) = true.
Proof.
  induction pjs as [| pj rest IH]; cbn [search_j]; [discriminate |].
  destruct (plane_is_degenerate (plane_from_points closest_point pi pj)) eqn:Ed;
    [discriminate |].
  destruct (is_on_exterior adj_points query_point
              (plane_from_points closest_point pi pj)) eqn:Ee.
  - intros _. exists pj. cbn [In]. auto.
  - intros H. destruct (IH H) as (pj' & Hin & H1 & H2).
    exists pj'. cbn [In]. auto.
Qed.

Lemma search_i_result (adj_points : list Point_3)
    (closest_point query_point : Point_3) (vs : list Z) (ps : list Point_3)
    (d d' : Z) :
  search_i ndebug adj_points closest_point query_point vs ps d = Ok d' ->
  d' = d
  \/ exists pi pj,
       In (d', pi) (combine vs ps) /\ In pj ps
       /\ plane_is_degenerate (plane_from_points closest_point pi pj) = false
       /\ is_on_exterior adj_points query_point
            (plane_from_points closest_point pi pj) = true.
Proof.
  revert ps d. induction vs as [| vi vs' IH]; intros ps d H.
  - cbn [search_i] in H. inversion H. left. reflexivity.
  - destruct ps as [| pi ps'].
    + cbn [search_i] in H. inversion H. left. reflexivity.
    + cbn [search_i] in H. apply bind_ok in H. destruct H as (found & Hj & H).
      destruct (IH _ _ H) as [E | (pi' & pj & Hc & Hpj & H1 & H2)].
      * destruct found; [| left; exact E].
        right. destruct (search_j_true _ _ _ _ _ Hj) as (pj & Hpj & H1 & H2).
        exists pi, pj. subst d'. cbn [combine In]. auto.
      * right. exists pi', pj. cbn [combine In]. auto.
Qed.

Lemma mapM_combine {A B} (g : A -> outcome B) (l : list A) (l' : list B)
    (a : A) (b : B) :
  mapM g l = Ok l' -> In (a, b) (combine l l') -> g a = Ok b.
Proof.
  revert l'. induction l as [| x l IH]; intros l' H Hin; cbn [mapM] in H.
  - inversion H; subst. contradiction.
  - apply bind_ok in H. destruct H as (bx & Ex & H).
    apply bind_ok in H. destruct H as (bs & Es & H).
    inversion H; subst l'. cbn [combine In] in Hin.
    destruct Hin as [Hin | Hin]; [inversion Hin; subst; exact Ex |].
    exact (IH bs Es Hin).
Qed.

Lemma mapM_image {A B} (g : A -> outcome B) (l : list A) (l' : list B)
    (a : A) :
  mapM g l = Ok l' -> In a l -> exists b, g a = Ok b /\ In b l'.
Proof.
  intros H Ha. apply In_nth_error in Ha. destruct Ha as (n & Hn).
  destruct (mapM_nth _ _ _ _ _ H Hn) as (b & Hb & Gb).
  exists b. split; [exact Gb | eapply nth_error_In; exact Hb].
Qed.

(** X7.  The second vertex of the vertex case is extremal.  When the
    search returns a vertex [d] other than its initial value SIZE_MAX,
    [d] is a corner, different from [s], of one of the intersected
    facets, and there is a second adjacent point [pj] such that the
    plane through [V(s)], [V(d)] and [pj] is not degenerate, the query is
    strictly on one side of it, and no adjacent point is strictly on
    that same side.  The adjacent points are all of them: the list
    [adj_points] holds exactly the points of the corners other than [s]
    of the intersected facets. *)
Theorem second_vertex_is_extremal
    (s : Z) (closest_point q : Point_3) (indices : list Z) (d : Z) :
  find_second_vertex ndebug V F s closest_point q indices = Ok d ->
  d = SIZE_MAX
  \/ (d <> s
      /\ (exists fid f, In fid indices /\ row F (to_index fid) = Ok f
                        /\ In d (facet_vertices f))
      /\ exists adj_points pd pj,
           row V (to_index d) = Ok pd /\ In pd adj_points /\ In pj adj_points
           /\ (forall p, In p adj_points <->
                 exists v fid f, row V (to_index v) = Ok p /\ v <> s
                   /\ In fid indices /\ row F (to_index fid) = Ok f
                   /\ In v (facet_vertices f))
           /\ let separator := plane_from_points closest_point pd pj in
              plane_is_degenerate separator = false
              /\ oriented_side separator q <> ZERO
              /\ Forall (fun p => oriented_side separator p
                                  <> oriented_side separator q) adj_points).
Proof.
  intros H. unfold find_second_vertex in H.
  apply bind_ok in H. destruct H as (adj & Hadj & H).
  apply bind_ok in H. destruct H as (adj_points & Hpts & H).
  pose proof (other_corners_membership s indices adj Hadj) as Hin.
  destruct (search_i_result _ _ _ _ _ _ _ H)
    as [E | (pd & pj & Hc & Hpj & Hdeg & Hext)]; [left; exact E |].
  right.
  pose proof (mapM_combine _ _ _ _ _ Hpts Hc) as Hpd.
  assert (Hd : In d adj) by (eapply in_combine_l; exact Hc).
  apply Hin in Hd. destruct Hd as (Hns & Hfacet).
  split; [exact Hns |]. split; [exact Hfacet |].
  exists adj_points, pd, pj.
  split; [exact Hpd |]. split; [eapply in_combine_r; exact Hc |].
  split; [exact Hpj |]. split.
  - intros p. split.
    + intros Hp. destruct (mapM_in _ _ _ _ Hpts Hp) as (v & Hv & Ev).
      apply Hin in Hv. destruct Hv as (Hvs & fid & f & H1 & H2 & H3).
      exists v, fid, f. auto.
    + intros (v & fid & f & Ev & Hvs & H1 & H2 & H3).
      assert (Hv : In v adj) by (apply Hin; split; [exact Hvs | eauto]).
      destruct (mapM_image _ _ _ _ Hpts Hv) as (p' & Ev' & Hp').
      rewrite Ev in Ev'. inversion Ev'; subst p'. exact Hp'.
  - cbv zeta. split; [exact Hdeg |]. apply is_on_exterior_spec. exact Hext.
Qed.

End AdjacentVertexFacts.

Section EdgeAndVertexFacts.

Variable ndebug : bool.
Variable closest_point_and_primitive : list Triangle -> Point_3 -> Point_3 * Z.
Variable all_intersected_primitives : list Triangle -> Segment_3 -> list Z.
Variable order_facets_around_edge :
  list Point_3 -> list Facet -> Z -> Z -> list Z -> Point_3 -> outcome (list Z).
Variable V : list Point_3.
Variable F : list Facet.
Variable I : list Z.
Variable P : list Point_3.

Local Abbreviation row := (eigen_at ndebug).
Local Abbreviation edge_case :=
  (process_edge_case ndebug all_intersected_primitives
     order_facets_around_edge V F I P).
Local Abbreviation vertex_case :=
  (process_vertex_case ndebug all_intersected_primitives
     order_facets_around_edge V F I P).
Local Abbreviation resolve' :=
  (resolve ndebug closest_point_and_primitive all_intersected_primitives
     order_facets_around_edge V F I P).

(** X5.  When the spatial index reports no facet on the segment from
    the edge midpoint to the query, the edge case returns no facet: with
    assertions compiled in it aborts at [assert(num_intersected_faces >=
    1)]; with [NDEBUG] it calls [order_facets_around_edge] on no facets
    and then reads [order[0]] and [order[-1]], so it ends in whatever
    that routine throws or in an out-of-range read. *)
Theorem edge_case_without_facets
    (triangles : list Triangle) (query_idx s d preferred_facet : Z)
    (vs vd q : Point_3) :
  row V (to_index s) = Ok vs ->
  row V (to_index d) = Ok vd ->
  row P (to_index query_idx) = Ok q ->
  all_intersected_primitives triangles (midpoint vs vd, q) = [] ->
  edge_case triangles query_idx s d preferred_facet
  = (if ndebug then
       match order_facets_around_edge V F s d [] q with
       | Ok _ => Undefined
       | Throw e => Throw e
       | Abort a => Abort a
       | Undefined => Undefined
       end
     else Abort AssertIntersectedNonEmpty)
  /\ is_ok (edge_case triangles query_idx s d preferred_facet) = false.
Proof.
  intros Hs Hd Hq Hnone.
  assert (E : edge_case triangles query_idx s d preferred_facet
              = if ndebug then
                  match order_facets_around_edge V F s d [] q with
                  | Ok _ => Undefined
                  | Throw e => Throw e
                  | Abort a => Abort a
                  | Undefined => Undefined
                  end
                else Abort AssertIntersectedNonEmpty).
  { unfold process_edge_case. rewrite Hs, Hd, Hq. cbn [bind]. rewrite Hnone.
    cbn [primitive_indices signed_indices mapM bind length Z.of_nat].
    unfold assert_. destruct ndebug; cbn [orb Z.leb Z.compare bind Z.eqb];
      [| reflexivity].
    destruct (order_facets_around_edge V F s d [] q) as [order | | |];
      cbn [bind]; try reflexivity.
    change (to_index (to_size_t (0 - 1))) with (-1).
    destruct (eigen_at_cases true order 0) as [(o0 & ->) | ->];
      cbn [bind]; reflexivity. }
  split; [exact E |]. rewrite E.
  destruct ndebug; [| reflexivity].
  destruct (order_facets_around_edge V F s d [] q); reflexivity.
Qed.

Lemma mapM_each_ok {A B} (g : A -> outcome B) (l : list A) (l' : list B)
    (a : A) :
  mapM g l = Ok l' -> In a l -> exists b, g a = Ok b.
Proof.
  intros H Ha. apply In_nth_error in Ha. destruct Ha as (n & Hn).
  destruct (mapM_nth _ _ _ _ _ H Hn) as (b & _ & Hb). eauto.
Qed.

Lemma edge_case_result
    (triangles : list Triangle) (query_idx s d preferred_facet fid : Z)
    (ori : bool) :
  edge_case triangles query_idx s d preferred_facet = Ok (fid, ori) ->
  exists vs vd q prim fi,
    row V (to_index s) = Ok vs /\ row V (to_index d) = Ok vd
    /\ row P (to_index query_idx) = Ok q
    /\ In prim (all_intersected_primitives triangles (midpoint vs vd, q))
    /\ row I prim = Ok fi /\ fid = to_size_t fi
    /\ is_ok (get_orientation ndebug F fid s d) = true.
Proof.
  intros H. unfold process_edge_case in H.
  apply bind_ok in H. destruct H as (vs & Hs & H).
  apply bind_ok in H. destruct H as (vd & Hd & H).
  apply bind_ok in H. destruct H as (q & Hq & H). cbv beta zeta in H.
  apply bind_ok in H. destruct H as (indices & Hidx & H).
  apply bind_ok in H. destruct H as (signed & Hsg & H).
  apply bind_ok in H. destruct H as (_ & _ & H).
  assert (Hfid : In fid indices).
  { destruct (Z.of_nat (length _) =? 1).
    - apply bind_ok in H. destruct H as (fid0 & H0 & H).
      apply bind_ok in H. destruct H as (o & _ & H).
      inversion H; subst. eapply vector_at_in; eassumption.
    - apply bind_ok in H. destruct H as (order & _ & H).
      apply bind_ok in H. destruct H as (o0 & _ & H).
      apply bind_ok in H. destruct H as (ol & _ & H).
      apply bind_ok in H. destruct H as (i_first & Hfirst & H).
      destruct (i_first =? preferred_facet).
      + apply bind_ok in H. destruct H as (sg & _ & H).
        inversion H; subst. eapply vector_at_in; eassumption.
      + apply bind_ok in H. destruct H as (i_last & Hlast & H).
        destruct (i_last =? preferred_facet);
          apply bind_ok in H; destruct H as (sg & _ & H);
          inversion H; subst; eapply vector_at_in; eassumption. }
  unfold primitive_indices in Hidx.
  destruct (mapM_in _ _ _ _ Hidx Hfid) as (prim & Hprim & Hfi).
  apply bind_ok in Hfi. destruct Hfi as (fi & Hfi & E). inversion E; subst fid.
  unfold signed_indices in Hsg.
  destruct (mapM_each_ok _ _ _ _ Hsg Hfid) as (sg & Hsgn).
  apply bind_ok in Hsgn. destruct Hsgn as (o & Ho & _).
  exists vs, vd, q, prim, fi. rewrite Ho. auto 10.
Qed.

Lemma resolve_result
    (triangles : list Triangle) (i fid : Z) (ori : bool) :
  resolve' triangles i = Ok (fid, ori) ->
  exists q g prim fi s d,
    row P (to_index i) = Ok q /\ snd g = q
    /\ In prim (all_intersected_primitives triangles g)
    /\ row I prim = Ok fi /\ In fi I /\ fid = to_size_t fi
    /\ is_ok (get_orientation ndebug F fid s d) = true.
Proof.
  intros H. unfold resolve in H.
  apply bind_ok in H. destruct H as (q & Hq & H). cbv beta zeta in H.
  apply bind_ok in H. destruct H as (l & _ & H).
  apply bind_ok in H. destruct H as ([ty idx] & _ & H).
  assert (Hedge : exists s d pref,
            edge_case triangles i s d pref = Ok (fid, ori)).
  { destruct ty.
    - apply bind_ok in H. destruct H as (fi & _ & H).
      apply bind_ok in H. destruct H as (f & _ & H). cbv beta zeta in H.
      unfold process_vertex_case in H.
      apply bind_ok in H. destruct H as (cp & _ & H).
      apply bind_ok in H. destruct H as (q' & _ & H). cbv beta zeta in H.
      apply bind_ok in H. destruct H as (indices & _ & H).
      apply bind_ok in H. destruct H as (d & _ & H).
      apply bind_ok in H. destruct H as (_ & _ & H). eauto.
    - apply bind_ok in H. destruct H as (fi & _ & H).
      apply bind_ok in H. destruct H as (f & _ & H). eauto.
    - unfold process_face_case in H.
      apply bind_ok in H. destruct H as (fi & _ & H).
      apply bind_ok in H. destruct H as (f & _ & H). eauto. }
  destruct Hedge as (s & d & pref & Hedge).
  destruct (edge_case_result _ _ _ _ _ _ _ Hedge)
    as (vs & vd & q' & prim & fi & _ & _ & Hq' & Hprim & Hfi & Hfid & Hor).
  rewrite Hq in Hq'. inversion Hq'; subst q'.
  exists q, (midpoint vs vd, q), prim, fi, s, d.
  repeat split; try assumption.
  apply eigen_at_ok in Hfi. destruct Hfi as [_ Hn].
  eapply nth_error_In; exact Hn.
Qed.

Lemma facet_orientation_corners (f : Facet) (s d : Z) (o : bool) :
  facet_orientation f s d = Ok o ->
  In s (facet_vertices f) /\ In d (facet_vertices f).
Proof.
  unfold facet_orientation, edge_match, facet_vertices. cbn [In].
  destruct (Z.eqb_spec (to_size_t (fget f 0)) s),
           (Z.eqb_spec (to_size_t (fget f 1)) s),
           (Z.eqb_spec (to_size_t (fget f 2)) s),
           (Z.eqb_spec (to_size_t (fget f 0)) d),
           (Z.eqb_spec (to_size_t (fget f 1)) d),
           (Z.eqb_spec (to_size_t (fget f 2)) d);
    cbn [andb]; intros H; try discriminate H; auto 6.
Qed.

Lemma resolve_final_edge_case
    (triangles : list Triangle) (i fid : Z) (ori : bool) :
  resolve' triangles i = Ok (fid, ori) ->
  exists q owner s d,
    row P (to_index i) = Ok q
    /\ row I (to_index (to_size_t
                (snd (closest_point_and_primitive triangles q)))) = Ok owner
    /\ edge_case triangles i s d (to_size_t owner) = Ok (fid, ori).
Proof.
  intros H. unfold resolve in H.
  apply bind_ok in H. destruct H as (q & Hq & H). cbv beta zeta in H.
  apply bind_ok in H. destruct H as (l & _ & H).
  apply bind_ok in H. destruct H as ([ty idx] & _ & H).
  exists q. destruct ty.
  - apply bind_ok in H. destruct H as (fi & Hfi & H).
    apply bind_ok in H. destruct H as (f & _ & H). cbv beta zeta in H.
    unfold process_vertex_case in H.
    apply bind_ok in H. destruct H as (cp & _ & H).
    apply bind_ok in H. destruct H as (q' & _ & H). cbv beta zeta in H.
    apply bind_ok in H. destruct H as (indices & _ & H).
    apply bind_ok in H. destruct H as (d & _ & H).
    apply bind_ok in H. destruct H as (_ & _ & H). eauto 8.
  - apply bind_ok in H. destruct H as (fi & Hfi & H).
    apply bind_ok in H. destruct H as (f & _ & H). eauto 8.
  - unfold process_face_case in H.
    apply bind_ok in H. destruct H as (fi & Hfi & H).
    apply bind_ok in H. destruct H as (f & _ & H). eauto 8.
Qed.

(** X8.  Whatever case resolves a query, the answer is the answer of one
    final edge case, for an edge (s,d) and with the owner of the nearest
    point as the preferred facet.  The facet returned is one the spatial
    index reported on the segment from the middle of that edge to the
    query point; it is an entry of the facet subset [I]; both [s] and [d]
    are corners of it, so that [get_orientation] succeeds on it for the
    edge (s,d). *)
Theorem returned_facet_is_intersected
    (triangles : list Triangle) (i fid : Z) (ori : bool) :
  resolve' triangles i = Ok (fid, ori) ->
  exists q owner s d vs vd prim fi f,
    row P (to_index i) = Ok q
    /\ row I (to_index (to_size_t
                (snd (closest_point_and_primitive triangles q)))) = Ok owner
    /\ edge_case triangles i s d (to_size_t owner) = Ok (fid, ori)
    /\ row V (to_index s) = Ok vs /\ row V (to_index d) = Ok vd
    /\ In prim (all_intersected_primitives triangles (midpoint vs vd, q))
    /\ row I prim = Ok fi /\ In fi I /\ fid = to_size_t fi
    /\ row F (to_index fid) = Ok f
    /\ In s (facet_vertices f) /\ In d (facet_vertices f)
    /\ is_ok (get_orientation ndebug F fid s d) = true.
Proof.
  intros H.
  destruct (resolve_final_edge_case _ _ _ _ H) as (q & owner & s & d & Hq & Ho & He).
  destruct (edge_case_result _ _ _ _ _ _ _ He)
    as (vs & vd & q' & prim & fi & Hs & Hd & Hq' & Hprim & Hfi & Hfid & Hor).
  rewrite Hq in Hq'. inversion Hq'; subst q'.
  assert (Hf : exists f o, row F (to_index fid) = Ok f
                           /\ facet_orientation f s d = Ok o).
  { unfold get_orientation in Hor.
    destruct (eigen_at ndebug F (to_index fid)) as [f | | |] eqn:Ef;
      cbn [bind is_ok] in Hor; try discriminate Hor.
    destruct (facet_orientation f s d) as [o | | |] eqn:Eo;
      cbn [is_ok] in Hor; try discriminate Hor. eauto. }
  destruct Hf as (f & o & Hf & Hfo).
  destruct (facet_orientation_corners f s d o Hfo) as (Hsf & Hdf).
  exists q, owner, s, d, vs, vd, prim, fi, f.
  repeat split; try assumption.
  apply eigen_at_ok in Hfi. destruct Hfi as [_ Hn].
  eapply nth_error_In; exact Hn.
Qed.

(** ** The loop over the queries *)

Lemma set_at_same_length {A} (l : list A) (i : nat) (x : A) :
  length (set_at l i x) = length l.
Proof. revert i. induction l as [| y l IH]; intros [| i]; cbn; auto. Qed.

Lemma nth_error_set_at_same {A} (l : list A) (i : nat) (x : A) :
  (i < length l)%nat -> nth_error (set_at l i x) i = Some x.
Proof.
  revert i. induction l as [| y l IH]; intros [| i] H; cbn in *; try lia.
  - reflexivity.
  - apply IH. lia.
Qed.

Lemma nth_error_set_at_other {A} (l : list A) (i j : nat) (x : A) :
  i <> j -> nth_error (set_at l i x) j = nth_error l j.
Proof.
  revert i j. induction l as [| y l IH]; intros [| i] [| j] H; cbn;
    try reflexivity; try congruence.
  apply IH. congruence.
Qed.

Lemma to_int_to_size_t (z : Z) : int_range z -> to_int (to_size_t z) = z.
Proof.
  unfold int_range. intros H. unfold to_int.
  destruct (Z_lt_ge_dec z 0) as [N | N].
  - rewrite to_size_t_neg by lia.
    replace ((z + 2 ^ 64 + 2 ^ 31) mod 2 ^ 32) with (z + 2 ^ 31); [lia |].
    apply Z.mod_unique with (q := 2 ^ 32); lia.
  - rewrite to_size_t_small by lia. rewrite Z.mod_small; lia.
Qed.

Local Abbreviation loop :=
  (query_loop ndebug closest_point_and_primitive all_intersected_primitives
     order_facets_around_edge V F I P).

Lemma query_loop_spec (triangles : list Triangle) (n : nat) :
  forall (a : nat) (out out' : outputs) (r : outcome unit),
    loop triangles (map Z.of_nat (seq a n)) out = (r, out') ->
    (a + n <= length (out_R out))%nat ->
    (a + n <= length (out_S out))%nat ->
    length (out_R out') = length (out_R out)
    /\ length (out_S out') = length (out_S out)
    /\ exists m, (m <= n)%nat
       /\ (forall k, (a <= k < a + m)%nat ->
             exists fid ori,
               resolve' triangles (Z.of_nat k) = Ok (fid, ori)
               /\ nth_error (out_R out') k = Some (Some (to_int fid))
               /\ nth_error (out_S out') k
                  = Some (Some (if ori then 1 else 0)))
       /\ (forall k, (k < a \/ a + m <= k)%nat ->
             nth_error (out_R out') k = nth_error (out_R out) k
             /\ nth_error (out_S out') k = nth_error (out_S out) k)
       /\ ((m = n /\ r = Ok tt)
           \/ ((m < n)%nat
               /\ is_ok (resolve' triangles (Z.of_nat (a + m))) = false
               /\ r = status (resolve' triangles (Z.of_nat (a + m))))).
Proof.
  induction n as [| n IH]; intros a out out' r H HR HS.
  - cbn in H. inversion H; subst. split; [reflexivity |]. split; [reflexivity |].
    exists 0%nat. split; [lia |]. split; [intros k Hk; lia |].
    split; [auto | left; auto].
  - cbn [seq map query_loop] in H.
    destruct (resolve' triangles (Z.of_nat a)) as [[fid ori] | e | x |] eqn:Er.
    + apply IH in H;
        [| unfold store; cbn [out_R out_S]; rewrite set_at_same_length; lia
         | unfold store; cbn [out_R out_S]; rewrite set_at_same_length; lia].
      unfold store in H. cbn [out_R out_S] in H.
      rewrite !set_at_same_length, Nat2Z.id in H.
      destruct H as (LR & LS & m & Hm & Hrows & Hkeep & Hend).
      split; [exact LR |]. split; [exact LS |].
      exists (S m). split; [lia |]. split; [| split].
      * intros k Hk. destruct (Nat.eq_dec k a) as [-> | Hne].
        -- exists fid, ori. split; [exact Er |].
           destruct (Hkeep a) as [K1 K2]; [lia |].
           rewrite K1, K2, !nth_error_set_at_same by lia. auto.
        -- apply Hrows. lia.
      * intros k Hk. destruct (Hkeep k) as [K1 K2]; [lia |].
        rewrite K1, K2, !nth_error_set_at_other by lia. auto.
      * replace (a + S m)%nat with (S a + m)%nat by lia.
        destruct Hend as [[-> ->] | (Hlt & Hbad & ->)]; [left; auto | right].
        split; [lia | auto].
    + inversion H; subst. split; [reflexivity |]. split; [reflexivity |].
      exists 0%nat. split; [lia |]. split; [intros k Hk; lia |].
      split; [auto |]. right. rewrite Nat.add_0_r, Er. split; [lia | auto].
    + inversion H; subst. split; [reflexivity |]. split; [reflexivity |].
      exists 0%nat. split; [lia |]. split; [intros k Hk; lia |].
      split; [auto |]. right. rewrite Nat.add_0_r, Er. split; [lia | auto].
    + inversion H; subst. split; [reflexivity |]. split; [reflexivity |].
      exists 0%nat. split; [lia |]. split; [intros k Hk; lia |].
      split; [auto |]. right. rewrite Nat.add_0_r, Er. split; [lia | auto].
Qed.

Lemma resize_length (n : nat) (M : list (option Z)) : length (resize n M) = n.
Proof.
  unfold resize. destruct (Nat.eqb_spec (length M) n); [assumption |].
  apply repeat_length.
Qed.

Local Abbreviation run :=
  (closest_facet ndebug closest_point_and_primitive all_intersected_primitives
     order_facets_around_edge V F I P).

Lemma closest_facet_phases (out out' : outputs) (r : outcome unit) :
  run out = (r, out') ->
  ((F = [] \/ I = []) /\ r = Throw EmptyMesh /\ out' = out)
  \/ (F <> [] /\ I <> []
      /\ is_ok (build_triangles ndebug V F I) = false
      /\ r = status (build_triangles ndebug V F I) /\ out' = out)
  \/ (F <> [] /\ I <> []
      /\ exists triangles,
           build_triangles ndebug V F I = Ok triangles
           /\ loop triangles (map Z.of_nat (seq 0 (length P)))
                (mkOut (resize (length P) (out_R out))
                       (resize (length P) (out_S out)))
              = (r, out')).
Proof.
  intros H. unfold closest_facet in H.
  destruct F as [| f0 F0]; [left; inversion H; auto |].
  destruct I as [| i0 I0];
    [left; cbn in H; inversion H; auto |].
  right. cbn [length Z.of_nat Z.leb Z.compare orb] in H.
  destruct (build_triangles ndebug V (f0 :: F0) (i0 :: I0)) as [ts | e | x |];
    [right | left; inversion H | left; inversion H | left; inversion H];
    repeat split; try discriminate; eauto.
Qed.

Lemma normal_run_rows (out out' : outputs) :
  run out = (Ok tt, out') ->
  exists triangles,
    build_triangles ndebug V F I = Ok triangles
    /\ length (out_R out') = length P
    /\ length (out_S out') = length P
    /\ forall k, (k < length P)%nat ->
         exists fid ori fi,
           resolve' triangles (Z.of_nat k) = Ok (fid, ori)
           /\ In fi I /\ fid = to_size_t fi
           /\ nth_error (out_R out') k = Some (Some (to_int fid))
           /\ (int_range fi -> nth_error (out_R out') k = Some (Some fi))
           /\ nth_error (out_S out') k = Some (Some (if ori then 1 else 0)).
Proof.
  intros H. apply closest_facet_phases in H.
  destruct H as [(_ & H & _) | [(_ & _ & Hbad & H & _) | (_ & _ & ts & Hts & H)]].
  - discriminate H.
  - destruct (build_triangles ndebug V F I); discriminate.
  - exists ts. split; [exact Hts |].
    apply query_loop_spec in H; cbn [out_R out_S]; rewrite ?resize_length;
      try lia.
    cbn [out_R out_S] in H. rewrite !resize_length in H.
    destruct H as (LR & LS & m & Hm & Hrows & _ & Hend).
    split; [exact LR |]. split; [exact LS |].
    destruct Hend as [[-> _] | (_ & Hbad & Hr)].
    + intros k Hk. destruct (Hrows k) as (fid & ori & Hres & HR & HS); [lia |].
      destruct (resolve_result _ _ _ _ Hres)
        as (q & g & prim & fi & s & d & _ & _ & _ & _ & Hin & Hfid & _).
      exists fid, ori, fi. repeat split; try assumption.
      intros Hint. rewrite HR, Hfid, to_int_to_size_t by exact Hint. reflexivity.
    + exfalso. destruct (resolve' ts (Z.of_nat (0 + m))); discriminate.
Qed.

(** X9.  A run that ends normally has built all triangles and answered
    every query: [R] and [S] have one row per query; row k of [R] holds
    the facet that [resolve] returns for query k, which is an entry of the
    facet subset [I] (converted to [size_t] and back to [int], so the
    entry itself when it is an [int]); row k of [S] holds 1 or 0 for the
    orientation. *)
Theorem normal_run_answers_every_query (out out' : outputs) :
  run out = (Ok tt, out') ->
  exists triangles,
    build_triangles ndebug V F I = Ok triangles
    /\ length (out_R out') = length P
    /\ length (out_S out') = length P
    /\ forall k, (k < length P)%nat ->
         exists fid ori fi,
           resolve' triangles (Z.of_nat k) = Ok (fid, ori)
           /\ In fi I /\ fid = to_size_t fi
           /\ nth_error (out_R out') k = Some (Some (to_int fid))
           /\ (int_range fi -> nth_error (out_R out') k = Some (Some fi))
           /\ nth_error (out_S out') k = Some (Some (if ori then 1 else 0)).
Proof. apply normal_run_rows. Qed.

(** X10.  A run that does not end normally ended in one of three ways:
    on an empty [F] or [I], with [R] and [S] untouched; in the loop that
    builds the triangles, with [R] and [S] untouched; or at the first
    query [m] that [resolve] does not answer, and then [R] and [S] have
    been resized, rows below [m] hold the answers of the earlier queries
    and rows from [m] on are as the resize left them. *)
Theorem failed_run_keeps_earlier_answers
    (out out' : outputs) (r : outcome unit) :
  run out = (r, out') -> r <> Ok tt ->
  ((F = [] \/ I = []) /\ r = Throw EmptyMesh /\ out' = out)
  \/ (is_ok (build_triangles ndebug V F I) = false
      /\ r = status (build_triangles ndebug V F I) /\ out' = out)
  \/ exists triangles m,
       build_triangles ndebug V F I = Ok triangles
       /\ (m < length P)%nat
       /\ is_ok (resolve' triangles (Z.of_nat m)) = false
       /\ r = status (resolve' triangles (Z.of_nat m))
       /\ (forall k, (k < m)%nat ->
             exists fid ori,
               resolve' triangles (Z.of_nat k) = Ok (fid, ori)
               /\ nth_error (out_R out') k = Some (Some (to_int fid))
               /\ nth_error (out_S out') k
                  = Some (Some (if ori then 1 else 0)))
       /\ (forall k, (m <= k)%nat ->
             nth_error (out_R out') k
             = nth_error (resize (length P) (out_R out)) k
             /\ nth_error (out_S out') k
                = nth_error (resize (length P) (out_S out)) k).
Proof.
  intros H Hr. apply closest_facet_phases in H.
  destruct H as [H | [(_ & _ & H) | (_ & _ & ts & Hts & H)]];
    [left; exact H | right; left; exact H | right; right].
  apply query_loop_spec in H; cbn [out_R out_S]; rewrite ?resize_length;
    try lia.
  cbn [out_R out_S] in H.
  destruct H as (_ & _ & m & Hm & Hrows & Hkeep & Hend).
  destruct Hend as [[_ E] | (Hlt & Hbad & E)]; [contradiction |].
  exists ts, m. cbn [Nat.add] in *.
  repeat split; try assumption.
  - intros k Hk. apply Hrows. lia.
  - apply Hkeep. lia.
  - apply Hkeep. lia.
Qed.

End EdgeAndVertexFacts.

(** ** Queries do not influence each other *)

Section QueryIndependence.

Variable ndebug : bool.
Variable closest_point_and_primitive : list Triangle -> Point_3 -> Point_3 * Z.
Variable all_intersected_primitives : list Triangle -> Segment_3 -> list Z.
Variable order_facets_around_edge :
  list Point_3 -> list Facet -> Z -> Z -> list Z -> Point_3 -> outcome (list Z).
Variable V : list Point_3.
Variable F : list Facet.
Variable I : list Z.
Variables P P' : list Point_3.
Variables i j : Z.

Hypothesis Hsame : eigen_at ndebug P (to_index i) = eigen_at ndebug P' (to_index j).

Lemma edge_case_same_query (triangles : list Triangle)
    (s d preferred_facet : Z) :
  process_edge_case ndebug all_intersected_primitives order_facets_around_edge
    V F I P triangles i s d preferred_facet
  = process_edge_case ndebug all_intersected_primitives
      order_facets_around_edge V F I P' triangles j s d preferred_facet.
Proof.
  unfold process_edge_case.
  apply bind_ext; intros vs _. apply bind_ext; intros vd _.
  rewrite Hsame. reflexivity.
Qed.

Lemma vertex_case_same_query (triangles : list Triangle)
    (s preferred_facet : Z) :
  process_vertex_case ndebug all_intersected_primitives
    order_facets_around_edge V F I P triangles i s preferred_facet
  = process_vertex_case ndebug all_intersected_primitives
      order_facets_around_edge V F I P' triangles j s preferred_facet.
Proof.
  unfold process_vertex_case.
  apply bind_ext; intros cp _. rewrite Hsame.
  apply bind_ext; intros q _. cbv zeta.
  apply bind_ext; intros indices _. apply bind_ext; intros d _.
  apply bind_ext; intros _ _. apply edge_case_same_query.
Qed.

Lemma resolve_same_query (triangles : list Triangle) :
  resolve ndebug closest_point_and_primitive all_intersected_primitives
    order_facets_around_edge V F I P triangles i
  = resolve ndebug closest_point_and_primitive all_intersected_primitives
      order_facets_around_edge V F I P' triangles j.
Proof.
  unfold resolve. rewrite Hsame.
  apply bind_ext; intros q _. cbv zeta.
  apply bind_ext; intros l _. apply bind_ext; intros [ty idx] _.
  destruct ty.
  - apply bind_ext; intros fi _. apply bind_ext; intros f _.
    apply vertex_case_same_query.
  - apply bind_ext; intros fi _. apply bind_ext; intros f _.
    apply edge_case_same_query.
  - unfold process_face_case.
    apply bind_ext; intros fi _. apply bind_ext; intros f _.
    apply edge_case_same_query.
Qed.

End QueryIndependence.

(** X11.  The answer to a query depends on that query's row of [P]
    only: query k of a batch is resolved exactly as the only query of a
    batch that holds just that point, for the same mesh, subset and
    triangle list. *)
Theorem query_is_resolved_alone
    (ndebug : bool)
    (closest_point_and_primitive : list Triangle -> Point_3 -> Point_3 * Z)
    (all_intersected_primitives : list Triangle -> Segment_3 -> list Z)
    (order_facets_around_edge :
       list Point_3 -> list Facet -> Z -> Z -> list Z -> Point_3
       -> outcome (list Z))
    (V : list Point_3) (F : list Facet) (I : list Z) (P : list Point_3)
    (triangles : list Triangle) (k : nat) (q : Point_3) :
  nth_error P k = Some q ->
  Z.of_nat k < 2 ^ 63 ->
  resolve ndebug closest_point_and_primitive all_intersected_primitives
    order_facets_around_edge V F I P triangles (Z.of_nat k)
  = resolve ndebug closest_point_and_primitive all_intersected_primitives
      order_facets_around_edge V F I [q] triangles 0.
Proof.
  intros Hk Hsmall. apply resolve_same_query.
  rewrite to_index_small by lia.
  rewrite (eigen_at_nth ndebug P k q Hk). reflexivity.
Qed.

(** ** Construction, and the overload without a subset *)

Section TriangleListFacts.

Variable ndebug : bool.
Variable V : list Point_3.
Variable F : list Facet.

Lemma make_triangle_ok (fi : Z) (t : Triangle) :
  make_triangle ndebug V F fi = Ok t <->
  facet_triangle ndebug V F fi t /\ is_degenerate t = false.
Proof.
  split.
  - intros H. unfold make_triangle in H.
    apply bind_ok in H. destruct H as (f & Hf & H).
    apply bind_ok in H. destruct H as (p0 & H0 & H).
    apply bind_ok in H. destruct H as (p1 & H1 & H).
    apply bind_ok in H. destruct H as (p2 & H2 & H).
    destruct (is_degenerate (p0, p1, p2)) eqn:E; [discriminate H |].
    inversion H; subst t. split; [| exact E].
    exists f, p0, p1, p2. auto.
  - intros [Ht Hnd]. rewrite (make_triangle_spec ndebug V F fi t Ht), Hnd.
    reflexivity.
Qed.

(** X12.  Construction succeeds exactly when every entry of [I] names a
    facet whose three corners exist and whose triangle has non-zero
    area; the triangle list then has one triangle per entry of [I], and
    triangle k is the triangle of facet [I(k)], which is what lets the
    code translate a primitive offset back through [I]. *)
Theorem triangles_follow_subset (I : list Z) :
  (is_ok (build_triangles ndebug V F I) = true <->
   Forall (fun fi => exists t, facet_triangle ndebug V F fi t
                               /\ ~ (doublearea_sq t == 0)%Q) I)
  /\ forall triangles,
       build_triangles ndebug V F I = Ok triangles ->
       length triangles = length I
       /\ forall k fi, nth_error I k = Some fi ->
            exists t, nth_error triangles k = Some t
                      /\ facet_triangle ndebug V F fi t.
Proof.
  unfold build_triangles. split.
  - split.
    + intros H. destruct (mapM (make_triangle ndebug V F) I) as [ts | | |] eqn:E;
        try discriminate H.
      apply Forall_forall. intros fi Hfi.
      destruct (mapM_each_ok _ _ _ _ E Hfi) as (t & Ht).
      apply make_triangle_ok in Ht. destruct Ht as [Ht Hnd].
      exists t. split; [exact Ht |]. intros Hz.
      apply is_degenerate_zero_area in Hz. congruence.
    + intros H.
      destruct (mapM_ok (make_triangle ndebug V F) I) as (ts & E);
        [| rewrite E; reflexivity].
      intros fi Hfi. rewrite Forall_forall in H.
      destruct (H fi Hfi) as (t & Ht & Hnz). exists t.
      apply make_triangle_ok. split; [exact Ht |].
      destruct (is_degenerate t) eqn:E; [| reflexivity].
      exfalso. apply Hnz. apply is_degenerate_zero_area. exact E.
  - intros ts E. split; [exact (mapM_length _ _ _ E) |].
    intros k fi Hk. destruct (mapM_nth _ _ _ _ _ E Hk) as (t & Ht & Hm).
    exists t. split; [exact Ht |]. apply make_triangle_ok in Hm. tauto.
Qed.

End TriangleListFacts.

Section ConstructionFacts.

Variable ndebug : bool.
Variable closest_point_and_primitive : list Triangle -> Point_3 -> Point_3 * Z.
Variable all_intersected_primitives : list Triangle -> Segment_3 -> list Z.
Variable order_facets_around_edge :
  list Point_3 -> list Facet -> Z -> Z -> list Z -> Point_3 -> outcome (list Z).
Variable V : list Point_3.
Variable F : list Facet.
Variable P : list Point_3.

(** X13.  The overload without a subset uses every facet: an empty [F]
    is rejected with the empty-mesh error and [R], [S] untouched, and a
    run that ends normally over fewer than 2^31 facets writes, for every
    query, the number of a row of [F] into [R]. *)
Theorem all_facets_overload (out out' : outputs) :
  let run := closest_facet_all ndebug closest_point_and_primitive
               all_intersected_primitives order_facets_around_edge V F P in
  (F = [] -> run out = (Throw EmptyMesh, out))
  /\ (run out = (Ok tt, out') -> Z.of_nat (length F) < 2 ^ 31 ->
      length (out_R out') = length P
      /\ forall k, (k < length P)%nat ->
           exists fi, 0 <= fi < Z.of_nat (length F)
                      /\ nth_error (out_R out') k = Some (Some fi)).
Proof.
  cbv zeta. unfold closest_facet_all. split.
  - intros ->. reflexivity.
  - intros H Hsmall.
    destruct (normal_run_rows _ _ _ _ _ _ _ _ _ _ H)
      as (ts & _ & LR & _ & Hrows).
    split; [exact LR |].
    intros k Hk. destruct (Hrows k Hk)
      as (fid & ori & fi & _ & Hin & _ & _ & HR & _).
    apply in_map_iff in Hin. destruct Hin as (n & <- & Hn).
    apply in_seq in Hn. exists (Z.of_nat n). split; [lia |].
    apply HR. unfold int_range. lia.
Qed.

End ConstructionFacts.

(** ** A query on a mesh vertex *)

Lemma plane_through_query (cp pi pj q : Point_3) :
  point_eqb q cp = true ->
  oriented_side (plane_from_points cp pi pj) q = ZERO.
Proof.
  unfold point_eqb. rewrite !andb_true_iff, !Qeq_bool_iff.
  intros [[Hx Hy] Hz].
  unfold oriented_side, plane_from_points. cbn [pa pb pc pd].
  apply sign_of_zero. rewrite Hx, Hy, Hz. ring.
Qed.

Section QueryAtVertex.

Variable ndebug : bool.
Variable all_intersected_primitives : list Triangle -> Segment_3 -> list Z.
Variable order_facets_around_edge :
  list Point_3 -> list Facet -> Z -> Z -> list Z -> Point_3 -> outcome (list Z).
Variable V : list Point_3.
Variable F : list Facet.
Variable I : list Z.
Variable P : list Point_3.

Lemma search_j_at_vertex (adj_points : list Point_3) (cp q pi : Point_3)
    (pjs : list Point_3) :
  point_eqb q cp = true ->
  search_j ndebug adj_points cp q pi pjs = Ok false
  \/ search_j ndebug adj_points cp q pi pjs = Throw DegeneratedFaces.
Proof.
  intros Hq. induction pjs as [| pj rest IH]; cbn [search_j]; [left; reflexivity |].
  destruct (plane_is_degenerate (plane_from_points cp pi pj));
    [right; reflexivity |].
  unfold is_on_exterior. rewrite (plane_through_query cp pi pj q Hq).
  cbn [Sign_eqb]. rewrite !andb_false_r. cbn [orb]. exact IH.
Qed.

Lemma search_i_at_vertex (adj_points : list Point_3) (cp q : Point_3)
    (vs : list Z) (ps : list Point_3) (d : Z) :
  point_eqb q cp = true ->
  search_i ndebug adj_points cp q vs ps d = Ok d
  \/ search_i ndebug adj_points cp q vs ps d = Throw DegeneratedFaces.
Proof.
  intros Hq. revert ps. induction vs as [| vi vs' IH]; intros ps;
    [left; reflexivity |].
  destruct ps as [| pi ps']; [left; reflexivity |].
  cbn [search_i].
  destruct (search_j_at_vertex adj_points cp q pi ps' Hq) as [-> | ->];
    cbn [bind]; [apply IH | right; reflexivity].
Qed.

(** X16.  A query that coincides with the shared vertex of the vertex
    case is never resolved.  Every candidate plane passes through the
    query, so no plane passes the exterior test and [d] keeps its initial
    value: unless an index check or a degenerate plane ends the call
    first, it ends in [assert(d != max)], or with [NDEBUG] in the read of
    row SIZE_MAX of [V]. *)
Theorem query_at_vertex_is_not_resolved
    (triangles : list Triangle) (query_idx s preferred_facet : Z)
    (cp q : Point_3) :
  eigen_at ndebug V (to_index s) = Ok cp ->
  eigen_at ndebug P (to_index query_idx) = Ok q ->
  point_eqb q cp = true ->
  let result := process_vertex_case ndebug all_intersected_primitives
                  order_facets_around_edge V F I P
                  triangles query_idx s preferred_facet in
  is_ok result = false
  /\ (forall e, result = Throw e -> e = DegeneratedFaces)
  /\ (forall a, result = Abort a -> a = AssertEdgeFound \/ a = AssertEigenIndex).
Proof.
  intros Hs Hq Heq. cbv zeta. unfold process_vertex_case.
  rewrite Hs. cbn [bind]. rewrite Hq. cbn [bind].
  assert (Hrow : forall (A : Type) (M : list A) (i : Z),
            (exists a, eigen_at ndebug M i = Ok a)
            \/ (eigen_at ndebug M i = Undefined /\ ndebug = true)
            \/ (eigen_at ndebug M i = Abort AssertEigenIndex /\ ndebug = false)).
  { intros A M i. destruct (eigen_at_cases ndebug M i) as [Hok | Hbad]; [auto |].
    right. rewrite Hbad. unfold index_failure. destruct ndebug; auto. }
  assert (Hfail : forall (A : Type) (r : outcome A),
            r = Undefined \/ r = Abort AssertEigenIndex
            \/ r = Abort AssertEdgeFound \/ r = Throw DegeneratedFaces ->
            is_ok r = false
            /\ (forall e, r = Throw e -> e = DegeneratedFaces)
            /\ (forall a, r = Abort a -> a = AssertEdgeFound \/ a = AssertEigenIndex)).
  { intros A r [-> | [-> | [-> | ->]]]; repeat split; intros x Hx;
      inversion Hx; auto. }
  apply Hfail.
  set (prims := all_intersected_primitives triangles (cp, q)).
  assert (Hmap : forall (A B : Type) (g : A -> outcome B) (l : list A),
            (forall a, (exists b, g a = Ok b) \/ g a = Undefined
                       \/ g a = Abort AssertEigenIndex) ->
            (exists l', mapM g l = Ok l') \/ mapM g l = Undefined
            \/ mapM g l = Abort AssertEigenIndex).
  { intros A B g l Hg. induction l as [| a l IH]; cbn [mapM]; [left; eauto |].
    destruct (Hg a) as [(b & ->) | [-> | ->]]; cbn [bind]; auto.
    destruct IH as [(l' & ->) | [-> | ->]]; cbn [bind]; eauto. }
  assert (Hidx : forall itr,
            (exists b, (i <- eigen_at ndebug I itr ;; Ok (to_size_t i)) = Ok b)
            \/ (i <- eigen_at ndebug I itr ;; Ok (to_size_t i)) = Undefined
            \/ (i <- eigen_at ndebug I itr ;; Ok (to_size_t i))
               = Abort AssertEigenIndex).
  { intros itr. destruct (Hrow _ I itr) as [(a & ->) | [[-> _] | [-> _]]];
      cbn [bind]; eauto. }
  unfold primitive_indices.
  destruct (Hmap _ _ _ prims Hidx) as [(indices & ->) | [-> | ->]];
    cbn [bind]; auto.
  unfold find_second_vertex.
  assert (Hadj : forall l acc,
            (exists adj, collect_adjacent ndebug F s l acc = Ok adj)
            \/ collect_adjacent ndebug F s l acc = Undefined
            \/ collect_adjacent ndebug F s l acc = Abort AssertEigenIndex).
  { induction l as [| fid rest IH]; intros acc; cbn [collect_adjacent];
      [left; eauto |].
    destruct (Hrow _ F (to_index fid)) as [(f & ->) | [[-> _] | [-> _]]];
      cbn [bind]; auto. }
  destruct (Hadj indices []) as [(adj & ->) | [-> | ->]]; cbn [bind]; auto.
  assert (Hpts : forall vid,
            (exists b, eigen_at ndebug V (to_index vid) = Ok b)
            \/ eigen_at ndebug V (to_index vid) = Undefined
            \/ eigen_at ndebug V (to_index vid) = Abort AssertEigenIndex).
  { intros vid.
    destruct (Hrow _ V (to_index vid)) as [(a & ->) | [[-> _] | [-> _]]]; eauto. }
  destruct (Hmap _ _ _ adj Hpts) as [(pts & ->) | [-> | ->]]; cbn [bind]; auto.
  destruct (search_i_at_vertex pts cp q adj pts SIZE_MAX Heq) as [-> | ->];
    cbn [bind]; auto.
  unfold assert_. rewrite Z.eqb_refl. cbn [negb].
  destruct ndebug eqn:En; cbn [orb bind]; auto.
  unfold process_edge_case. rewrite Hs. cbn [bind].
  change (to_index SIZE_MAX) with (-1). cbn. auto.
Qed.

End QueryAtVertex.

(** ** Which adjacent vertex the search keeps *)

Section SearchOrder.

Variable ndebug : bool.
Variable adj_points : list Point_3.
Variables closest_point query_point : Point_3.

Local Abbreviation row_of ps k :=
  (search_j ndebug adj_points closest_point query_point
     (nth k ps closest_point) (skipn (S k) ps)).

Lemma search_i_rows_false (vs : list Z) (ps : list Point_3) (d : Z) :
  (forall k, (k < length ps)%nat -> row_of ps k = Ok false) ->
  search_i ndebug adj_points closest_point query_point vs ps d = Ok d.
Proof.
  revert ps d. induction vs as [| vi vs' IH]; intros ps d H; [reflexivity |].
  destruct ps as [| pi ps']; [reflexivity |].
  cbn [search_i].
  pose proof (H 0%nat ltac:(cbn; lia)) as H0. cbn [nth skipn] in H0.
  rewrite H0. cbn [bind]. apply IH.
  intros k Hk. specialize (H (S k) ltac:(cbn; lia)). exact H.
Qed.

(** X17.  The search over the adjacent vertices does not stop at the
    first vertex that has an exterior plane: [break] leaves the loop over
    [j] only, so every later vertex is tried as well and the last vertex
    whose row finds an exterior plane is the one kept in [d]. *)
Theorem last_extremal_vertex_is_kept
    (vs : list Z) (ps : list Point_3) (d : Z) (i : nat) (vi : Z) :
  length vs = length ps ->
  nth_error vs i = Some vi ->
  row_of ps i = Ok true ->
  (forall k, (k < i)%nat -> is_ok (row_of ps k) = true) ->
  (forall k, (i < k < length ps)%nat -> row_of ps k = Ok false) ->
  search_i ndebug adj_points closest_point query_point vs ps d = Ok vi.
Proof.
  revert ps d i. induction vs as [| v vs' IH]; intros ps d i Hlen Hi Htrue Hbefore Hafter.
  - destruct i; discriminate Hi.
  - destruct ps as [| p ps']; [discriminate Hlen |].
    cbn [search_i]. destruct i as [| i'].
    + cbn [nth skipn] in Htrue. rewrite Htrue. cbn [bind].
      cbn in Hi. inversion Hi; subst v.
      apply search_i_rows_false. intros k Hk.
      exact (Hafter (S k) ltac:(cbn; lia)).
    + pose proof (Hbefore 0%nat ltac:(lia)) as H0. cbn [nth skipn] in H0.
      destruct (search_j ndebug adj_points closest_point query_point p ps')
        as [found | | |]; try discriminate H0.
      cbn [bind]. cbn in Hi, Hlen.
      apply (IH ps' _ i'); [lia | exact Hi | exact Htrue | |].
      * intros k Hk. exact (Hbefore (S k) ltac:(lia)).
      * intros k Hk. exact (Hafter (S k) ltac:(cbn; lia)).
Qed.

End SearchOrder.

(* ================================================================== *)
(** * Further properties of reorient_facets_raycast.cpp *)

Section VoteFacts.

Variable ndebug : bool.
Variable float : Type.
Variable float_zero : float.
Variable float_add : float -> float -> float.
Variable float_lt : float -> float -> bool.

Local Abbreviation ray := (Ray float).
Local Abbreviation front := (front_hits float).
Local Abbreviation back := (back_hits float).
Local Abbreviation dist := (C_vote_distance float).
Local Abbreviation inf := (C_vote_infinity float).
Local Abbreviation par := (C_vote_parity float).
Local Abbreviation dsum := (distance_sum float float_add).

Lemma update_at_nth {A} (v v' : list A) (c : Z) (g : A -> A) (k : nat) :
  update_at v c g = Ok v' ->
  0 <= c
  /\ nth_error v' k
     = if Nat.eqb k (Z.to_nat c) then option_map g (nth_error v k)
       else nth_error v k.
Proof.
  unfold update_at. intros H. apply bind_ok in H. destruct H as (x & Hx & H).
  inversion H; subst v'. clear H.
  unfold vector_at in Hx.
  destruct (0 <=? c) eqn:E0; [| discriminate Hx].
  destruct (c <? Z.of_nat (length v)) eqn:E1; [| discriminate Hx].
  apply Z.leb_le in E0. apply Z.ltb_lt in E1. cbn [andb] in Hx.
  destruct (nth_error v (Z.to_nat c)) as [y |] eqn:Ey; [| discriminate Hx].
  inversion Hx; subst y. split; [exact E0 |].
  destruct (Nat.eqb_spec k (Z.to_nat c)) as [-> | N].
  - rewrite Ey. cbn [option_map]. apply nth_error_set_at_same. lia.
  - apply nth_error_set_at_other. congruence.
Qed.

Lemma in_patch_of_row (C : list Z) (f c c' : Z) (fr bk : list (Hit float)) :
  eigen_at ndebug C f = Ok c -> 0 <= c -> 0 <= c' ->
  in_patch float C c' (f, fr, bk) = Nat.eqb (Z.to_nat c') (Z.to_nat c).
Proof.
  intros H Hc Hc'. apply eigen_at_ok in H. destruct H as [Hr Hn].
  unfold in_patch. cbn [fst]. rewrite Hn.
  replace (0 <=? f) with true by (symmetry; apply Z.leb_le; lia).
  cbn [andb].
  destruct (Z.eqb_spec c c') as [E | N],
    (Nat.eqb_spec (Z.to_nat c') (Z.to_nat c)); try reflexivity; lia.
Qed.

(** What one ray does to the entries of patch [c] in the three tables. *)
Lemma shoot_entries (use_parity : bool) (C : list Z) (v v' : votes float)
    (r : ray) (c : Z) (d : float * float) (i p : Z * Z) :
  Forall (fun x => 0 <= x) C -> 0 <= c ->
  shoot ndebug float float_add use_parity C v r = Ok v' ->
  nth_error (dist v) (Z.to_nat c) = Some d ->
  nth_error (inf v) (Z.to_nat c) = Some i ->
  nth_error (par v) (Z.to_nat c) = Some p ->
  let rs := if in_patch float C c r then [r] else [] in
  if use_parity then
    nth_error (dist v') (Z.to_nat c) = Some d
    /\ nth_error (inf v') (Z.to_nat c) = Some i
    /\ nth_error (par v') (Z.to_nat c)
       = Some (parity_sum float front rs (fst p), parity_sum float back rs (snd p))
  else
    nth_error (dist v') (Z.to_nat c)
    = Some (dsum front rs (fst d), dsum back rs (snd d))
    /\ nth_error (inf v') (Z.to_nat c)
       = Some (escaped float front rs (fst i), escaped float back rs (snd i))
    /\ nth_error (par v') (Z.to_nat c) = Some p.
Proof.
  intros HC Hc H Hd Hi Hp. destruct r as [[f fr] bk].
  unfold shoot in H. apply bind_ok in H. destruct H as (cf & Hcf & H).
  assert (Hcf0 : 0 <= cf).
  { pose proof (eigen_at_ok _ _ _ _ Hcf) as [_ Hn].
    apply nth_error_In in Hn. rewrite Forall_forall in HC. exact (HC cf Hn). }
  rewrite (in_patch_of_row C f cf c fr bk Hcf Hcf0 Hc). cbv zeta.
  unfold front_hits, back_hits. cbn [fst snd].
  destruct use_parity.
  - apply bind_ok in H. destruct H as (vp & E1 & H).
    apply bind_ok in H. destruct H as (vp' & E2 & H).
    inversion H; subst v'. cbn [C_vote_distance C_vote_infinity C_vote_parity].
    split; [exact Hd |]. split; [exact Hi |].
    destruct (update_at_nth _ _ _ _ (Z.to_nat c) E1) as [_ N1].
    destruct (update_at_nth _ _ _ _ (Z.to_nat c) E2) as [_ N2].
    rewrite N2, N1, Hp.
    destruct (Nat.eqb (Z.to_nat c) (Z.to_nat cf)); destruct p; reflexivity.
  - apply bind_ok in H. destruct H as ([vd vi] & E1 & H).
    assert (Hfront :
      nth_error vd (Z.to_nat c)
      = Some (if Nat.eqb (Z.to_nat c) (Z.to_nat cf)
              then (match erase_self float f fr with
                    | [] => fst d
                    | h :: _ => float_add (fst d) (hit_t float h)
                    end, snd d)
              else d)
      /\ nth_error vi (Z.to_nat c)
         = Some (if Nat.eqb (Z.to_nat c) (Z.to_nat cf)
                 then (match erase_self float f fr with
                       | [] => fst i + 1
                       | _ :: _ => fst i
                       end, snd i)
                 else i)).
    { destruct (erase_self float f fr) as [| h ?].
      - apply bind_ok in E1. destruct E1 as (vi0 & E1 & E).
        inversion E; subst vd vi.
        destruct (update_at_nth _ _ _ _ (Z.to_nat c) E1) as [_ N1].
        rewrite N1, Hi, Hd.
        destruct (Nat.eqb (Z.to_nat c) (Z.to_nat cf)); destruct d, i; auto.
      - apply bind_ok in E1. destruct E1 as (vd0 & E1 & E).
        inversion E; subst vd vi.
        destruct (update_at_nth _ _ _ _ (Z.to_nat c) E1) as [_ N1].
        rewrite N1, Hi, Hd.
        destruct (Nat.eqb (Z.to_nat c) (Z.to_nat cf)); destruct d, i; auto. }
    destruct Hfront as [Fd Fi].
    destruct (erase_self float f bk) as [| h' ?] eqn:Eb.
    + apply bind_ok in H. destruct H as (vi' & E2 & H).
      inversion H; subst v'. cbn [C_vote_distance C_vote_infinity C_vote_parity].
      destruct (update_at_nth _ _ _ _ (Z.to_nat c) E2) as [_ N2].
      rewrite N2, Fd, Fi.
      destruct (Nat.eqb (Z.to_nat c) (Z.to_nat cf)); cbn; rewrite ?Eb;
        destruct (erase_self float f fr); destruct d, i; auto.
    + apply bind_ok in H. destruct H as (vd' & E2 & H).
      inversion H; subst v'. cbn [C_vote_distance C_vote_infinity C_vote_parity].
      destruct (update_at_nth _ _ _ _ (Z.to_nat c) E2) as [_ N2].
      rewrite N2, Fd, Fi.
      destruct (Nat.eqb (Z.to_nat c) (Z.to_nat cf)); cbn; rewrite ?Eb;
        destruct (erase_self float f fr); destruct d, i; auto.
Qed.

Lemma rays_of_patch_cons (C : list Z) (c : Z) (r : ray) (rest : list ray) :
  rays_of_patch float C c (r :: rest)
  = (if in_patch float C c r then [r] else []) ++ rays_of_patch float C c rest.
Proof.
  unfold rays_of_patch. cbn [filter]. destruct (in_patch float C c r); reflexivity.
Qed.

Lemma shoot_all_entries (use_parity : bool) (C : list Z) (c : Z)
    (rays : list ray) :
  Forall (fun x => 0 <= x) C -> 0 <= c ->
  forall (v v' : votes float) (d : float * float) (i p : Z * Z),
    shoot_all ndebug float float_add use_parity C v rays = Ok v' ->
    nth_error (dist v) (Z.to_nat c) = Some d ->
    nth_error (inf v) (Z.to_nat c) = Some i ->
    nth_error (par v) (Z.to_nat c) = Some p ->
    let rs := rays_of_patch float C c rays in
    if use_parity then
      nth_error (dist v') (Z.to_nat c) = Some d
      /\ nth_error (inf v') (Z.to_nat c) = Some i
      /\ nth_error (par v') (Z.to_nat c)
         = Some (parity_sum float front rs (fst p),
                 parity_sum float back rs (snd p))
    else
      nth_error (dist v') (Z.to_nat c)
      = Some (dsum front rs (fst d), dsum back rs (snd d))
      /\ nth_error (inf v') (Z.to_nat c)
         = Some (escaped float front rs (fst i), escaped float back rs (snd i))
      /\ nth_error (par v') (Z.to_nat c) = Some p.
Proof.
  intros HC Hc. induction rays as [| r rest IH]; intros v v' d i p H Hd Hi Hp.
  - cbn [shoot_all] in H. inversion H; subst v'. cbv zeta.
    unfold rays_of_patch, parity_sum, distance_sum, escaped. cbn [filter fold_left].
    destruct use_parity, d, i, p; auto.
  - cbn [shoot_all] in H. apply bind_ok in H. destruct H as (v1 & E1 & H).
    pose proof (shoot_entries use_parity C v v1 r c d i p HC Hc E1 Hd Hi Hp) as S1.
    cbv zeta in S1 |- *. rewrite rays_of_patch_cons.
    unfold parity_sum, distance_sum, escaped in *. rewrite !fold_left_app.
    destruct use_parity.
    + destruct S1 as (D1 & I1 & P1).
      exact (IH v1 v' d i _ H D1 I1 P1).
    + destruct S1 as (D1 & I1 & P1).
      exact (IH v1 v' _ _ p H D1 I1 P1).
Qed.

(** The flag of a patch, read off the rays that start on it. *)
Lemma flags_from_votes (m : nat) (C : list Z) (use_parity : bool)
    (rays : list ray) :
  length C = m -> (0 < m)%nat ->
  Forall (fun c => 0 <= c) C ->
  Forall (fun r => 0 <= fst (fst r) < Z.of_nat m) rays ->
  exists I,
    reorient_facets_raycast ndebug float float_zero float_add float_lt
      m C use_parity rays = Ok I
    /\ forall f c,
         nth_error C f = Some c ->
         let rs := rays_of_patch float C c rays in
         nth_error I f
         = Some (if use_parity then
                   if parity_sum float front rs 0 >? parity_sum float back rs 0
                   then 1 else 0
                 else
                   if (escaped float front rs 0 =? escaped float back rs 0)
                      && float_lt (dsum front rs float_zero)
                                  (dsum back rs float_zero)
                      || (escaped float front rs 0 <? escaped float back rs 0)
                   then 1 else 0).
Proof.
  intros HlenC Hm Hpos Hrays.
  unfold reorient_facets_raycast.
  destruct (maxCoeff_bound ndebug C) as (mx & Emx & Hmx);
    [destruct C; [cbn in HlenC; lia | discriminate] |].
  rewrite Emx. cbn [bind].
  set (n := Z.to_nat (mx + 1)).
  assert (HC : Forall (fun c => 0 <= c < Z.of_nat n) C).
  { rewrite Forall_forall in *. intros c Hc.
    specialize (Hpos c Hc). specialize (Hmx c Hc). subst n. lia. }
  set (v0 := mkVotes float (repeat (float_zero, float_zero) n)
               (repeat (0, 0) n) (repeat (0, 0) n)).
  assert (Hv0 : votes_sized float n v0).
  { unfold votes_sized, v0. cbn. rewrite !repeat_length. auto. }
  destruct (shoot_all_ok ndebug float float_add use_parity C n rays v0 Hv0 HC)
    as (v & Ev & Hv).
  { rewrite HlenC. exact Hrays. }
  rewrite Ev. cbn [bind].
  set (g := fun f => c <- eigen_at ndebug C f ;; flag float float_lt use_parity v c).
  assert (Hflag : forall c, In c C ->
            let rs := rays_of_patch float C c rays in
            flag float float_lt use_parity v c
            = Ok (if use_parity then
                    if parity_sum float front rs 0 >? parity_sum float back rs 0
                    then 1 else 0
                  else
                    if (escaped float front rs 0 =? escaped float back rs 0)
                       && float_lt (dsum front rs float_zero)
                                   (dsum back rs float_zero)
                       || (escaped float front rs 0 <? escaped float back rs 0)
                    then 1 else 0)).
  { intros c Hc. rewrite Forall_forall in HC. specialize (HC c Hc).
    assert (Hk : (Z.to_nat c < n)%nat) by lia.
    pose proof (shoot_all_entries use_parity C c rays Hpos (proj1 HC) v0 v
                  (float_zero, float_zero) (0, 0) (0, 0) Ev
                  (nth_error_repeat _ Hk) (nth_error_repeat _ Hk)
                  (nth_error_repeat _ Hk)) as He.
    cbv zeta in He |- *. cbn [fst snd] in He. unfold flag.
    destruct use_parity.
    - destruct He as (_ & _ & Hp).
      pose proof (vector_at_nth _ _ _ Hp) as X. rewrite Z2Nat.id in X by lia.
      rewrite X. reflexivity.
    - destruct He as (Hd & Hi & _).
      pose proof (vector_at_nth _ _ _ Hi) as X. rewrite Z2Nat.id in X by lia.
      pose proof (vector_at_nth _ _ _ Hd) as Y. rewrite Z2Nat.id in Y by lia.
      rewrite X. cbn [bind]. rewrite Y. reflexivity. }
  assert (Hg : forall k c, nth_error C k = Some c ->
                g (Z.of_nat k) = flag float float_lt use_parity v c).
  { intros k c Hk. unfold g. rewrite (eigen_at_nth ndebug C k c Hk). reflexivity. }
  destruct (mapM_ok g (map Z.of_nat (seq 0 m))) as (I & EI).
  { intros x Hx. apply in_map_iff in Hx. destruct Hx as (k & <- & Hk).
    apply in_seq in Hk. destruct (nth_error_lt C k) as (c & Ec); [lia |].
    rewrite (Hg k c Ec), (Hflag c (nth_error_In _ _ Ec)). eauto. }
  exists I. split; [exact EI |].
  intros f c Hf. cbv zeta.
  assert (Kf : (f < m)%nat) by (rewrite <- HlenC; apply nth_error_Some; congruence).
  destruct (mapM_nth _ _ _ f _ EI (nth_error_seq_Z m f Kf)) as (y & Ey & Gy).
  rewrite (Hg f c Hf), (Hflag c (nth_error_In _ _ Hf)) in Gy.
  inversion Gy; subst y. exact Ey.
Qed.

(** X14.  What the votes decide.  With patch labels as [bfs_orient]
    delivers them and rays that start on faces of the mesh, the flag of a
    face is read off the rays that start on its patch, in ray order.
    Parity mode: 1 exactly when the front hit counts modulo 2 add up to
    more than the back ones.  Otherwise: 1 exactly when fewer front rays
    than back rays hit nothing, or equally many and the front distances
    to the first hit add up to less than the back ones. *)
Theorem flags_follow_votes (m : nat) (C : list Z) (use_parity : bool)
    (rays : list ray) :
  length C = m -> (0 < m)%nat ->
  Forall (fun c => 0 <= c) C ->
  Forall (fun r => 0 <= fst (fst r) < Z.of_nat m) rays ->
  exists I,
    reorient_facets_raycast ndebug float float_zero float_add float_lt
      m C use_parity rays = Ok I
    /\ forall f c,
         nth_error C f = Some c ->
         let rs := rays_of_patch float C c rays in
         nth_error I f
         = Some (if use_parity then
                   if parity_sum float front rs 0 >? parity_sum float back rs 0
                   then 1 else 0
                 else
                   if (escaped float front rs 0 =? escaped float back rs 0)
                      && float_lt (dsum front rs float_zero)
                                  (dsum back rs float_zero)
                      || (escaped float front rs 0 <? escaped float back rs 0)
                   then 1 else 0).
Proof. apply flags_from_votes. Qed.

(** X15.  A patch on which no ray starts (as happens for a patch of
    area zero, which the ray generator skips) is not flipped: in parity
    mode its faces get flag 0, and in the other mode too as long as the
    [float] comparison 0 < 0 is false. *)
Theorem patch_without_rays_is_not_flipped (m : nat) (C : list Z)
    (use_parity : bool) (rays : list ray) (c : Z) :
  length C = m -> (0 < m)%nat ->
  Forall (fun c => 0 <= c) C ->
  Forall (fun r => 0 <= fst (fst r) < Z.of_nat m) rays ->
  rays_of_patch float C c rays = [] ->
  (use_parity = false -> float_lt float_zero float_zero = false) ->
  exists I,
    reorient_facets_raycast ndebug float float_zero float_add float_lt
      m C use_parity rays = Ok I
    /\ forall f, nth_error C f = Some c -> nth_error I f = Some 0.
Proof.
  intros HlenC Hm Hpos Hrays Hnone Hlt.
  destruct (flags_from_votes m C use_parity rays HlenC Hm Hpos Hrays)
    as (I & EI & Hflags).
  exists I. split; [exact EI |].
  intros f Hf. rewrite (Hflags f c Hf). cbv zeta. rewrite Hnone.
  unfold parity_sum, escaped, distance_sum. cbn [fold_left].
  destruct use_parity; [reflexivity |].
  rewrite (Hlt eq_refl). reflexivity.
Qed.

End VoteFacts.

(* ================================================================== *)
(** * Reordering the facet subset *)

(** ** Lists under permutation *)

Lemma Permutation_filter_same {A} (p : A -> bool) (l l' : list A) :
  Permutation l l' -> Permutation (filter p l) (filter p l').
Proof.
  induction 1 as [| x l l' _ IH | x y l | l l' l'' _ IH1 _ IH2]; cbn [filter].
  - constructor.
  - destruct (p x); [constructor |]; exact IH.
  - destruct (p x), (p y); try apply Permutation_refl. apply perm_swap.
  - eapply perm_trans; eassumption.
Qed.

Lemma forallb_Permutation {A} (p : A -> bool) (l l' : list A) :
  Permutation l l' -> forallb p l = forallb p l'.
Proof.
  induction 1 as [| x l l' _ IH | x y l | l l' l'' _ IH1 _ IH2]; cbn [forallb].
  - reflexivity.
  - rewrite IH. reflexivity.
  - destruct (p x), (p y); reflexivity.
  - congruence.
Qed.

Lemma strictly_sorted_unique (l l' : list Z) :
  StronglySorted Z.lt l -> StronglySorted Z.lt l' ->
  (forall x, In x l <-> In x l') -> l = l'.
Proof.
  intros Hl. revert l'. induction Hl as [| a l Hl IH Ha]; intros l' Hl' Hin.
  - destruct l' as [| b l']; [reflexivity |].
    exfalso. apply (proj2 (Hin b)). left. reflexivity.
  - destruct Hl' as [| b l' Hl' Hb].
    + exfalso. apply (proj1 (Hin a)). left. reflexivity.
    + rewrite Forall_forall in Ha, Hb.
      assert (E : a = b).
      { destruct (proj1 (Hin a) (or_introl eq_refl)) as [E | Hab]; [auto |].
        destruct (proj2 (Hin b) (or_introl eq_refl)) as [E | Hba]; [auto |].
        specialize (Ha _ Hba). specialize (Hb _ Hab). lia. }
      subst b. f_equal. apply IH; [exact Hl' |].
      intros x. split; intros Hx.
      * destruct (proj1 (Hin x) (or_intror Hx)) as [E | H]; [| exact H].
        specialize (Ha _ Hx). lia.
      * destruct (proj2 (Hin x) (or_intror Hx)) as [E | H]; [| exact H].
        specialize (Hb _ Hx). lia.
Qed.

Lemma filter_shifted {B} (f : nat -> B) (q : nat -> bool) (r : list nat) :
  map f (filter q (map S r))
  = map (fun k => f (S k)) (filter (fun k => q (S k)) r).
Proof.
  induction r as [| k r IH]; [reflexivity |].
  cbn [map filter]. destruct (q (S k)); cbn [map]; rewrite IH; reflexivity.
Qed.

Lemma filter_positions {A} (p : A -> bool) (d : A) (l : list A) :
  map (fun k => nth k l d) (filter (fun k => p (nth k l d)) (seq 0 (length l)))
  = filter p l.
Proof.
  induction l as [| a l IH]; [reflexivity |].
  change (seq 0 (length (a :: l))) with (0%nat :: seq 1 (length l)).
  rewrite <- seq_shift.
  change (filter (fun k => p (nth k (a :: l) d)) (0%nat :: map S (seq 0 (length l))))
    with (if p a then 0%nat :: filter (fun k => p (nth k (a :: l) d))
                                (map S (seq 0 (length l)))
          else filter (fun k => p (nth k (a :: l) d)) (map S (seq 0 (length l)))).
  cbn [filter]. rewrite <- IH.
  destruct (p a); cbn [map nth];
    rewrite (filter_shifted (fun k => nth k (a :: l) d)
               (fun k => p (nth k (a :: l) d))); reflexivity.
Qed.

Lemma mapM_map {A B} (g : A -> outcome B) (h : A -> B) (l : list A) :
  (forall a, In a l -> g a = Ok (h a)) -> mapM g l = Ok (map h l).
Proof.
  induction l as [| a l IH]; intros H; cbn [mapM map]; [reflexivity |].
  rewrite (H a (or_introl eq_refl)). cbn [bind].
  rewrite IH by (intros b Hb; apply H; right; exact Hb). reflexivity.
Qed.

(** ** The same answer for a reordered subset *)

Section SubsetPermutation.

Variable ndebug : bool.
Variable V : list Point_3.
Variable F : list Facet.

Local Abbreviation row := (eigen_at ndebug).
Local Abbreviation triangle_of := (make_triangle ndebug V F).
Local Abbreviation entry J := (fun k => nth (Z.to_nat k) J 0).
Local Abbreviation selected meets g :=
  (fun fi => match triangle_of fi with
             | Ok t => meets g t
             | _ => false
             end).

Lemma built_entry (J : list Z) (tl : list Triangle) (n : nat) :
  build_triangles ndebug V F J = Ok tl ->
  (n < length J)%nat ->
  exists t f, nth_error J n = Some (nth n J 0)
              /\ nth_error tl n = Some t
              /\ triangle_of (nth n J 0) = Ok t
              /\ row F (nth n J 0) = Ok f.
Proof.
  intros Hb Hn. unfold build_triangles in Hb.
  assert (Hnth : nth_error J n = Some (nth n J 0)) by (apply nth_error_nth'; exact Hn).
  destruct (mapM_nth _ _ _ _ _ Hb Hnth) as (t & Ht & Hm).
  pose proof Hm as Hm'. unfold make_triangle in Hm'.
  apply bind_ok in Hm'. destruct Hm' as (f & Hf & _).
  exists t, f. auto.
Qed.

Lemma selected_entry_valid (J : list Z) (tl : list Triangle) (fi : Z) :
  build_triangles ndebug V F J = Ok tl -> Forall int_range J -> In fi J ->
  0 <= fi < 2 ^ 31 /\ exists f, row F fi = Ok f.
Proof.
  intros Hb Hint Hin. rewrite Forall_forall in Hint. specialize (Hint fi Hin).
  apply In_nth_error in Hin. destruct Hin as (n & Hn).
  assert (Hlt : (n < length J)%nat) by (apply nth_error_Some; congruence).
  destruct (built_entry J tl n Hb Hlt) as (t & f & Hn' & _ & _ & Hf).
  assert (E : fi = nth n J 0) by congruence. rewrite <- E in Hf.
  pose proof (eigen_at_ok _ _ _ _ Hf) as [Hr _].
  unfold int_range in Hint. split; [lia | exists f; exact Hf].
Qed.

Lemma reported_indices
    (all_intersected_primitives : list Triangle -> Segment_3 -> list Z)
    (meets : Segment_3 -> Triangle -> bool)
    (J : list Z) (tl : list Triangle) (g : Segment_3) :
  (forall ts g,
     NoDup (all_intersected_primitives ts g)
     /\ forall k, In k (all_intersected_primitives ts g) <->
          0 <= k /\ exists t, nth_error ts (Z.to_nat k) = Some t
                              /\ meets g t = true) ->
  build_triangles ndebug V F J = Ok tl -> Forall int_range J ->
  exists indices,
    primitive_indices ndebug J (all_intersected_primitives tl g) = Ok indices
    /\ length indices = length (all_intersected_primitives tl g)
    /\ Permutation indices (filter (selected meets g) J).
Proof.
  intros Hshape Hb Hint.
  destruct (Hshape tl g) as (Hnd & Hmem).
  set (prims := all_intersected_primitives tl g) in *.
  pose proof (mapM_length _ _ _ Hb) as Hlen.
  exists (map (entry J) prims). split; [| split; [apply length_map |]].
  - unfold primitive_indices. apply mapM_map. intros k Hk.
    apply Hmem in Hk. destruct Hk as (Hk0 & t & Ht & _).
    assert (Hlt : (Z.to_nat k < length J)%nat)
      by (rewrite <- Hlen; apply nth_error_Some; congruence).
    destruct (built_entry J tl _ Hb Hlt) as (t' & f & Hn & _ & _ & Hf).
    pose proof (eigen_at_nth ndebug _ _ _ Hn) as E.
    rewrite Z2Nat.id in E by exact Hk0. rewrite E. cbn [bind].
    assert (Hv : 0 <= nth (Z.to_nat k) J 0 < 2 ^ 31).
    { eapply selected_entry_valid; try eassumption.
      eapply nth_error_In; exact Hn. }
    rewrite to_size_t_small by lia. reflexivity.
  - set (keep := fun n : nat => selected meets g (nth n J 0)).
    assert (Hperm : Permutation prims
                      (map Z.of_nat (filter keep (seq 0 (length J))))).
    { apply NoDup_Permutation.
      - exact Hnd.
      - apply NoDup_map_of_nat, NoDup_filter, seq_NoDup.
      - intros k. rewrite Hmem, in_map_iff. split.
        + intros (Hk0 & t & Ht & Hmeet).
          assert (Hlt : (Z.to_nat k < length J)%nat)
            by (rewrite <- Hlen; apply nth_error_Some; congruence).
          destruct (built_entry J tl _ Hb Hlt) as (t' & f & _ & Ht' & Hm & _).
          rewrite Ht in Ht'. inversion Ht'; subst t'.
          exists (Z.to_nat k). split; [apply Z2Nat.id; exact Hk0 |].
          apply filter_In. split; [apply in_seq; lia |].
          unfold keep. rewrite Hm. exact Hmeet.
        + intros (n & <- & Hn). apply filter_In in Hn. destruct Hn as (Hn & Hkeep).
          apply in_seq in Hn.
          destruct (built_entry J tl n Hb) as (t & f & _ & Ht & Hm & _); [lia |].
          unfold keep in Hkeep. rewrite Hm in Hkeep.
          split; [lia |]. exists t. rewrite Nat2Z.id. auto. }
    eapply perm_trans; [apply Permutation_map; exact Hperm |].
    rewrite map_map.
    rewrite (map_ext _ (fun n => nth n J 0)) by (intros n; rewrite Nat2Z.id; reflexivity).
    unfold keep. rewrite (filter_positions (selected meets g) 0 J).
    apply Permutation_refl.
Qed.


Local Abbreviation connects s d :=
  (fun idx => is_ok (get_orientation ndebug F idx s d)).
Local Abbreviation reference s d :=
  (fun idx => match get_orientation ndebug F idx s d with
              | Ok o => index_to_signed_index idx o
              | _ => 0
              end).

Lemma get_orientation_cases (s d idx : Z) (f : Facet) :
  0 <= idx < 2 ^ 31 -> row F idx = Ok f ->
  (exists o, get_orientation ndebug F idx s d = Ok o)
  \/ get_orientation ndebug F idx s d = Throw IncorrectConnectivity.
Proof.
  intros Hr Hf. unfold get_orientation. rewrite to_index_small by lia.
  rewrite Hf. cbn [bind]. unfold facet_orientation.
  repeat match goal with
         | |- context [if ?c then _ else _] => destruct c; [eauto |]
         end.
  right. reflexivity.
Qed.

Lemma signed_indices_cases (s d : Z) (indices : list Z) :
  (forall idx, In idx indices -> 0 <= idx < 2 ^ 31 /\ exists f, row F idx = Ok f) ->
  signed_indices ndebug F s d indices
  = if forallb (connects s d) indices then Ok (map (reference s d) indices)
    else Throw IncorrectConnectivity.
Proof.
  unfold signed_indices.
  induction indices as [| idx rest IH]; intros Hv; cbn [mapM forallb map];
    [reflexivity |].
  destruct (Hv idx (or_introl eq_refl)) as (Hr & f & Hf).
  rewrite IH by (intros x Hx; apply Hv; right; exact Hx).
  destruct (get_orientation_cases s d idx f Hr Hf) as [(o & ->) | ->];
    cbn [bind is_ok andb]; [| reflexivity].
  destruct (forallb (connects s d) rest); reflexivity.
Qed.

Lemma reference_names_facet (idx : Z) (o : bool) :
  0 <= idx < 2 ^ 31 -> Z.abs (index_to_signed_index idx o) - 1 = idx.
Proof.
  intros Hr. destruct (Z.eq_dec idx (2 ^ 31 - 1)) as [-> | N].
  - destruct o; vm_compute; reflexivity.
  - rewrite signed_index_small by lia. destruct o; lia.
Qed.


Lemma eigen_at_map {A B} (h : A -> B) (l : list A) (k : Z) :
  row (map h l) k = (a <- row l k ;; Ok (h a)).
Proof.
  unfold eigen_at. rewrite length_map, nth_error_map.
  destruct ((0 <=? k) && (k <? Z.of_nat (length l))).
  - destruct (nth_error l (Z.to_nat k)); reflexivity.
  - destruct ndebug; reflexivity.
Qed.

Local Abbreviation chosen pref L X :=
  (sg_first <- row L 0 ;;
   sg_last <- row L X ;;
   if Z.abs sg_first - 1 =? pref then Ok (Z.abs sg_first - 1, sg_first <? 0)
   else if Z.abs sg_last - 1 =? pref then Ok (Z.abs sg_last - 1, sg_last >? 0)
   else Ok (Z.abs sg_first - 1, sg_first <? 0)).

Lemma ordered_entry (s d : Z) (indices order : list Z) (o : Z) :
  (forall idx, In idx indices -> 0 <= idx < 2 ^ 31 /\ exists f, row F idx = Ok f) ->
  forallb (connects s d) indices = true ->
  Permutation order (map Z.of_nat (seq 0 (length indices))) ->
  In o order ->
  exists a,
    vector_at indices (to_size_t o) = Ok a
    /\ vector_at (map (reference s d) indices) (to_size_t o)
       = Ok (reference s d a)
    /\ nth (Z.to_nat (to_size_t o)) (map (reference s d) indices) 0
       = reference s d a
    /\ Z.abs (reference s d a) - 1 = a.
Proof.
  intros Hv Hc Hperm Ho.
  apply (Permutation_in _ Hperm) in Ho. apply in_map_iff in Ho.
  destruct Ho as (k & <- & Hk). apply in_seq in Hk.
  assert (Hpos : 0 <= to_size_t (Z.of_nat k) <= Z.of_nat k).
  { unfold to_size_t. split; [apply Z.mod_pos_bound; lia | apply Z.mod_le; lia]. }
  set (m := Z.to_nat (to_size_t (Z.of_nat k))).
  assert (Hm : (m < length indices)%nat) by (unfold m; lia).
  destruct (nth_error_lt indices m Hm) as (a & Ha).
  assert (Em : to_size_t (Z.of_nat k) = Z.of_nat m) by (unfold m; lia).
  exists a. rewrite Em.
  assert (Hin : In a indices) by (eapply nth_error_In; exact Ha).
  destruct (Hv a Hin) as (Hr & f & Hf).
  assert (Hok : connects s d a = true)
    by (rewrite forallb_forall in Hc; apply Hc; exact Hin).
  split; [apply vector_at_nth; exact Ha |].
  pose proof (map_nth_error (reference s d) m indices Ha) as Hsg.
  split; [apply vector_at_nth; exact Hsg |].
  split.
  - apply nth_error_nth. exact Hsg.
  - cbv beta in Hok |- *.
    destruct (get_orientation ndebug F a s d) as [o' | | |];
      try discriminate Hok.
    apply reference_names_facet. exact Hr.
Qed.

Lemma chosen_entry (s d pref X : Z) (indices order : list Z) :
  (forall idx, In idx indices -> 0 <= idx < 2 ^ 31 /\ exists f, row F idx = Ok f) ->
  forallb (connects s d) indices = true ->
  Permutation order (map Z.of_nat (seq 0 (length indices))) ->
  (o0 <- row order 0 ;;
   ol <- row order X ;;
   i_first <- vector_at indices (to_size_t o0) ;;
   if i_first =? pref then
     sg <- vector_at (map (reference s d) indices) (to_size_t o0) ;;
     Ok (i_first, sg <? 0)
   else
     i_last <- vector_at indices (to_size_t ol) ;;
     if i_last =? pref then
       sg <- vector_at (map (reference s d) indices) (to_size_t ol) ;;
       Ok (i_last, sg >? 0)
     else
       sg <- vector_at (map (reference s d) indices) (to_size_t o0) ;;
       Ok (i_first, sg <? 0))
  = chosen pref (in_order (map (reference s d) indices) order) X.
Proof.
  intros Hv Hc Hperm. unfold in_order. rewrite !eigen_at_map.
  destruct (eigen_at_cases ndebug order 0) as [(o0 & E0) | E0]; rewrite E0;
    [| rewrite !bind_index_failure; reflexivity].
  cbn [bind].
  destruct (eigen_at_cases ndebug order X) as [(ol & El) | El]; rewrite El;
    [| rewrite !bind_index_failure; reflexivity].
  cbn [bind].
  assert (H0 : In o0 order)
    by (apply eigen_at_ok in E0; eapply nth_error_In; apply E0).
  assert (Hl : In ol order)
    by (apply eigen_at_ok in El; eapply nth_error_In; apply El).
  destruct (ordered_entry s d indices order o0 Hv Hc Hperm H0)
    as (a & Ea & Esa & Ena & Eabs).
  destruct (ordered_entry s d indices order ol Hv Hc Hperm Hl)
    as (b & Eb & Esb & Enb & Ebbs).
  rewrite Ea, Esa, Eb, Esb, Ena, Enb, Eabs, Ebbs. cbn [bind].
  destruct (a =? pref); [reflexivity |]. destruct (b =? pref); reflexivity.
Qed.


Variable all_intersected_primitives : list Triangle -> Segment_3 -> list Z.
Variable order_facets_around_edge :
  list Point_3 -> list Facet -> Z -> Z -> list Z -> Point_3 -> outcome (list Z).
Variable P : list Point_3.
Variables I I' : list Z.
Variables ts ts' : list Triangle.
Variable meets : Segment_3 -> Triangle -> bool.

Hypothesis Hshape : forall ts g,
  NoDup (all_intersected_primitives ts g)
  /\ forall k, In k (all_intersected_primitives ts g) <->
       0 <= k /\ exists t, nth_error ts (Z.to_nat k) = Some t
                           /\ meets g t = true.
Hypothesis Horder : orders_by_geometry order_facets_around_edge.
Hypothesis Hint : Forall int_range I.
Hypothesis Hperm : Permutation I I'.
Hypothesis Hts : build_triangles ndebug V F I = Ok ts.
Hypothesis Hts' : build_triangles ndebug V F I' = Ok ts'.

Local Abbreviation facet_exists :=
  (fun idx => 0 <= idx < 2 ^ 31 /\ exists f, row F idx = Ok f).

Lemma reported_both (g : Segment_3) :
  exists indices indices',
    primitive_indices ndebug I (all_intersected_primitives ts g) = Ok indices
    /\ primitive_indices ndebug I' (all_intersected_primitives ts' g)
       = Ok indices'
    /\ length (all_intersected_primitives ts g) = length indices
    /\ length (all_intersected_primitives ts' g) = length indices
    /\ Permutation indices indices'
    /\ (forall idx, In idx indices -> facet_exists idx)
    /\ (forall idx, In idx indices' -> facet_exists idx).
Proof.
  assert (Hint' : Forall int_range I')
    by (eapply Permutation_Forall; eassumption).
  destruct (reported_indices all_intersected_primitives meets I ts g
              Hshape Hts Hint) as (indices & Hp & Hl & Hsel).
  destruct (reported_indices all_intersected_primitives meets I' ts' g
              Hshape Hts' Hint') as (indices' & Hp' & Hl' & Hsel').
  assert (Hboth : Permutation indices indices').
  { eapply perm_trans; [exact Hsel |].
    eapply perm_trans; [| apply Permutation_sym; exact Hsel'].
    apply Permutation_filter_same. exact Hperm. }
  exists indices, indices'.
  split; [exact Hp |]. split; [exact Hp' |]. split; [symmetry; exact Hl |].
  split; [rewrite <- Hl'; symmetry; apply Permutation_length; exact Hboth |].
  split; [exact Hboth |]. split.
  - intros idx Hidx. apply (Permutation_in _ Hsel) in Hidx.
    apply filter_In in Hidx. destruct Hidx as (Hidx & _).
    exact (selected_entry_valid I ts idx Hts Hint Hidx).
  - intros idx Hidx. apply (Permutation_in _ Hsel') in Hidx.
    apply filter_In in Hidx. destruct Hidx as (Hidx & _).
    exact (selected_entry_valid I' ts' idx Hts' Hint' Hidx).
Qed.

Lemma process_edge_case_perm (query_idx s d preferred_facet : Z) :
  process_edge_case ndebug all_intersected_primitives order_facets_around_edge
    V F I P ts query_idx s d preferred_facet
  = process_edge_case ndebug all_intersected_primitives order_facets_around_edge
      V F I' P ts' query_idx s d preferred_facet.
Proof.
  unfold process_edge_case.
  apply bind_ext; intros vs _. apply bind_ext; intros vd _.
  apply bind_ext; intros q _. cbv zeta.
  destruct (reported_both (midpoint vs vd, q))
    as (indices & indices' & -> & -> & -> & -> & Hboth & Hv & Hv').
  cbn [bind].
  rewrite (signed_indices_cases s d indices Hv),
    (signed_indices_cases s d indices' Hv').
  rewrite <- (forallb_Permutation (connects s d) _ _ Hboth).
  destruct (forallb (connects s d) indices) eqn:Hc; [| reflexivity].
  cbn [bind]. apply bind_ext; intros _ _.
  destruct (Z.of_nat (length indices) =? 1) eqn:En.
  - apply Z.eqb_eq in En.
    destruct indices as [| a [| b rest]]; cbn [length] in En; try lia.
    apply Permutation_length_1_inv in Hboth. subst indices'. reflexivity.
  - pose proof (Horder V F s d _ _ q
                  (Permutation_map (reference s d) Hboth)) as Hsame.
    pose proof (Horder V F s d _ _ q
                  (Permutation_refl (map (reference s d) indices'))) as Hself.
    destruct (order_facets_around_edge V F s d (map (reference s d) indices) q)
      as [order | e | a | ];
      destruct (order_facets_around_edge V F s d
                  (map (reference s d) indices') q) as [order' | e' | a' | ];
      try contradiction;
      [| subst; reflexivity | subst; reflexivity | reflexivity].
    cbn [bind]. destruct Hsame as (Hpo & Hin). destruct Hself as (Hpo' & _).
    rewrite length_map in Hpo, Hpo'.
    assert (Hc' : forallb (connects s d) indices' = true)
      by (rewrite <- (forallb_Permutation _ _ _ Hboth); exact Hc).
    rewrite (chosen_entry s d preferred_facet _ indices order Hv Hc Hpo).
    pose proof (chosen_entry s d preferred_facet
                  (to_index (to_size_t (Z.of_nat (length indices) - 1)))
                  indices' order' Hv' Hc' Hpo') as E'.
    cbv zeta. etransitivity; [| symmetry; exact E']. rewrite Hin. reflexivity.
Qed.


Lemma collect_adjacent_total (s : Z) (indices acc : list Z) :
  (forall idx, In idx indices -> facet_exists idx) ->
  exists adj, collect_adjacent ndebug F s indices acc = Ok adj.
Proof.
  revert acc. induction indices as [| idx rest IH]; intros acc Hv;
    cbn [collect_adjacent]; [eauto |].
  destruct (Hv idx (or_introl eq_refl)) as (Hr & f & Hf).
  rewrite to_index_small by lia. rewrite Hf. cbn [bind].
  apply IH. intros x Hx. apply Hv. right. exact Hx.
Qed.

Lemma collect_adjacent_perm (s : Z) (indices indices' : list Z) :
  Permutation indices indices' ->
  (forall idx, In idx indices -> facet_exists idx) ->
  collect_adjacent ndebug F s indices []
  = collect_adjacent ndebug F s indices' [].
Proof.
  intros Hboth Hv.
  assert (Hv' : forall idx, In idx indices' -> facet_exists idx)
    by (intros idx Hidx; apply Hv;
        apply (Permutation_in _ (Permutation_sym Hboth)); exact Hidx).
  destruct (collect_adjacent_total s indices [] Hv) as (adj & E).
  destruct (collect_adjacent_total s indices' [] Hv') as (adj' & E').
  rewrite E, E'. f_equal.
  destruct (collect_adjacent_spec ndebug F s indices [] adj
              (SSorted_nil _) E) as (Hs & Hin).
  destruct (collect_adjacent_spec ndebug F s indices' [] adj'
              (SSorted_nil _) E') as (Hs' & Hin').
  apply strictly_sorted_unique; [exact Hs | exact Hs' |].
  intros x. rewrite Hin, Hin'. split;
    (intros [Hx | (Hn & fid & f & Hfid & Hf & Hc)]; [left; exact Hx |];
     right; split; [exact Hn |]; exists fid, f; split; [| auto]).
  - apply (Permutation_in _ Hboth). exact Hfid.
  - apply (Permutation_in _ (Permutation_sym Hboth)). exact Hfid.
Qed.

Lemma process_vertex_case_perm (query_idx s preferred_facet : Z) :
  process_vertex_case ndebug all_intersected_primitives order_facets_around_edge
    V F I P ts query_idx s preferred_facet
  = process_vertex_case ndebug all_intersected_primitives
      order_facets_around_edge V F I' P ts' query_idx s preferred_facet.
Proof.
  unfold process_vertex_case.
  apply bind_ext; intros cp _. apply bind_ext; intros q _. cbv zeta.
  destruct (reported_both (cp, q))
    as (indices & indices' & -> & -> & _ & _ & Hboth & Hv & _).
  cbn [bind]. unfold find_second_vertex.
  rewrite (collect_adjacent_perm s indices indices' Hboth Hv).
  apply bind_ext; intros d _. apply bind_ext; intros _ _.
  apply process_edge_case_perm.
Qed.

Variable closest_point_and_primitive : list Triangle -> Point_3 -> Point_3 * Z.

Local Abbreviation owner_of tl q :=
  (to_index (to_size_t (snd (closest_point_and_primitive tl q)))).

Lemma resolve_perm (i : Z) (q : Point_3) (owner : Z) :
  row P (to_index i) = Ok q ->
  fst (closest_point_and_primitive ts q)
  = fst (closest_point_and_primitive ts' q) ->
  row I (owner_of ts q) = Ok owner ->
  row I' (owner_of ts' q) = Ok owner ->
  resolve ndebug closest_point_and_primitive all_intersected_primitives
    order_facets_around_edge V F I P ts i
  = resolve ndebug closest_point_and_primitive all_intersected_primitives
      order_facets_around_edge V F I' P ts' i.
Proof.
  intros Hq Hpoint Hown Hown'. unfold resolve. rewrite Hq. cbn [bind]. cbv zeta.
  rewrite <- Hpoint.
  destruct (reported_both (fst (closest_point_and_primitive ts q), q))
    as (indices & indices' & -> & -> & _).
  cbn [bind].
  destruct (built_triangle ndebug V F I ts _ owner Hts Hown) as (t & Ht & Hm).
  destruct (built_triangle ndebug V F I' ts' _ owner Hts' Hown')
    as (t' & Ht' & Hm').
  assert (t' = t) by congruence. subst t'.
  rewrite (determine_element_type_classification _ _ _ _ Ht),
    (determine_element_type_classification _ _ _ _ Ht').
  cbn [bind]. destruct (classification t _) as [ty idx].
  unfold process_face_case. rewrite Hown, Hown'. cbn [bind].
  destruct ty; apply bind_ext; intros f _.
  - apply process_vertex_case_perm.
  - apply process_edge_case_perm.
  - apply process_edge_case_perm.
Qed.

End SubsetPermutation.

Lemma mapM_Permutation {A B} (g : A -> outcome B) (l l' : list A) :
  Permutation l l' ->
  forall r r', mapM g l = Ok r -> mapM g l' = Ok r' -> Permutation r r'.
Proof.
  induction 1 as [| x l l' Hp IH | x y l | l l'' l' Hp1 IH1 Hp2 IH2];
    intros r r' Hr Hr'; cbn [mapM] in Hr, Hr'.
  - inversion Hr; inversion Hr'; constructor.
  - apply bind_ok in Hr. destruct Hr as (b & Eb & Hr).
    apply bind_ok in Hr. destruct Hr as (bs & Ebs & Hr). inversion Hr; subst r.
    rewrite Eb in Hr'. cbn [bind] in Hr'.
    apply bind_ok in Hr'. destruct Hr' as (bs' & Ebs' & Hr'). inversion Hr'; subst r'.
    constructor. exact (IH _ _ Ebs Ebs').
  - apply bind_ok in Hr. destruct Hr as (by_ & Ey & Hr).
    apply bind_ok in Hr. destruct Hr as (r0 & Hr0 & Hr). inversion Hr; subst r.
    cbn [mapM] in Hr0.
    apply bind_ok in Hr0. destruct Hr0 as (bx & Ex & Hr0).
    apply bind_ok in Hr0. destruct Hr0 as (bs & Ebs & Hr0). inversion Hr0; subst r0.
    rewrite Ex, Ey, Ebs in Hr'. cbn [bind] in Hr'. inversion Hr'; subst r'.
    apply perm_swap.
  - assert (Hmid : exists r'', mapM g l'' = Ok r'').
    { apply mapM_ok. intros x Hx.
      apply (Permutation_in _ (Permutation_sym Hp1)) in Hx.
      apply In_nth_error in Hx. destruct Hx as (n & Hn).
      destruct (mapM_nth _ _ _ _ _ Hr Hn) as (b & _ & Hb). eauto. }
    destruct Hmid as (r'' & Hr'').
    eapply perm_trans; [exact (IH1 _ _ Hr Hr'') | exact (IH2 _ _ Hr'' Hr')].
Qed.

(** C9, as the code has it.  The spatial index and the ordering routine
    answer by geometry, as their contracts say, and the facet ids fit
    [int].  When the facet subset is reordered, construction succeeds
    again, and if the index names the same facet of the mesh as the owner
    of the nearest point of the query for both orders of the subset,
    [resolve] returns the same for that query: the same original facet id,
    and with it the same orientation.  The intersected facets may be
    reported in another order. *)
Theorem reordered_subset_same_answer
    (ndebug : bool)
    (closest_point_and_primitive : list Triangle -> Point_3 -> Point_3 * Z)
    (all_intersected_primitives : list Triangle -> Segment_3 -> list Z)
    (order_facets_around_edge :
       list Point_3 -> list Facet -> Z -> Z -> list Z -> Point_3
       -> outcome (list Z))
    (V : list Point_3) (F : list Facet) (P : list Point_3)
    (I I' : list Z) (ts : list Triangle) (i : Z) (q : Point_3) :
  index_by_geometry closest_point_and_primitive all_intersected_primitives ->
  orders_by_geometry order_facets_around_edge ->
  Forall int_range I ->
  Permutation I I' ->
  build_triangles ndebug V F I = Ok ts ->
  eigen_at ndebug P (to_index i) = Ok q ->
  exists ts',
    build_triangles ndebug V F I' = Ok ts'
    /\ ((exists owner,
           eigen_at ndebug I
             (to_index (to_size_t (snd (closest_point_and_primitive ts q))))
           = Ok owner
           /\ eigen_at ndebug I'
                (to_index (to_size_t (snd (closest_point_and_primitive ts' q))))
              = Ok owner) ->
        resolve ndebug closest_point_and_primitive all_intersected_primitives
          order_facets_around_edge V F I P ts i
        = resolve ndebug closest_point_and_primitive all_intersected_primitives
            order_facets_around_edge V F I' P ts' i).
Proof.
  intros [Hpoint (meets & Hshape)] Horder Hint Hperm Hts Hq.
  destruct (build_triangles_perm ndebug V F I I' ts Hperm Hts) as (ts' & Hts').
  exists ts'. split; [exact Hts' |]. intros (owner & Hown & Hown').
  apply (resolve_perm ndebug V F all_intersected_primitives
           order_facets_around_edge P I I' ts ts' meets Hshape Horder Hint
           Hperm Hts Hts' closest_point_and_primitive i q owner Hq);
    [| exact Hown | exact Hown'].
  apply Hpoint. exact (mapM_Permutation _ _ _ Hperm _ _ Hts Hts').
Qed.

(** ** An ordering and an index that answer by geometry *)

Section ReorderedRoof.

Import Samples.

Lemma sorted_refs_spec (l : list Z) :
  StronglySorted Z.lt (sorted_refs l)
  /\ forall x, In x (sorted_refs l) <-> In x l.
Proof.
  unfold sorted_refs. induction l as [| a l (Hs & Hin)]; cbn [fold_right].
  - split; [constructor | tauto].
  - split; [apply set_insert_sorted; exact Hs |].
    intros x. rewrite set_insert_in, Hin. cbn [In]. intuition congruence.
Qed.

Lemma sorted_refs_Permutation (l l' : list Z) :
  Permutation l l' -> sorted_refs l = sorted_refs l'.
Proof.
  intros Hp.
  destruct (sorted_refs_spec l) as (Hs & Hin).
  destruct (sorted_refs_spec l') as (Hs' & Hin').
  apply strictly_sorted_unique; [exact Hs | exact Hs' |].
  intros x. rewrite Hin, Hin'. split; apply Permutation_in;
    [exact Hp | apply Permutation_sym; exact Hp].
Qed.

Lemma strictly_sorted_NoDup (l : list Z) : StronglySorted Z.lt l -> NoDup l.
Proof.
  induction 1 as [| a l Hl IH Ha]; constructor; [| exact IH].
  intros Hin. rewrite Forall_forall in Ha. specialize (Ha a Hin). lia.
Qed.

Lemma position_of_spec (v : Z) (l : list Z) :
  In v l ->
  0 <= position_of v l < Z.of_nat (length l)
  /\ nth (Z.to_nat (position_of v l)) l 0 = v.
Proof.
  induction l as [| x l IH]; [intros [] |]. intros Hin.
  cbn [position_of length]. destruct (Z.eqb_spec x v) as [-> | N].
  - split; [lia | reflexivity].
  - destruct Hin as [E | Hin]; [contradiction |].
    destruct (IH Hin) as (Hr & Hn). split; [lia |].
    replace (Z.to_nat (1 + position_of v l)) with (S (Z.to_nat (position_of v l)))
      by lia.
    exact Hn.
Qed.

Lemma positions_of_all (l : list Z) :
  NoDup l ->
  map (fun v => position_of v l) l = map Z.of_nat (seq 0 (length l)).
Proof.
  induction 1 as [| x l Hx Hl IH]; [reflexivity |].
  cbn [map length seq position_of]. rewrite Z.eqb_refl. f_equal.
  transitivity (map (fun v => 1 + position_of v l) l).
  - apply map_ext_in. intros v Hv.
    destruct (Z.eqb_spec x v) as [-> | N]; [contradiction | reflexivity].
  - rewrite <- (map_map (fun v => position_of v l) (fun z => 1 + z)), IH,
      map_map, <- seq_shift, map_map.
    apply map_ext. intros k. lia.
Qed.

Lemma order_by_reference_by_geometry : orders_by_geometry order_by_reference.
Proof.
  intros V F s d signed signed' q Hp. unfold order_by_reference. cbv zeta.
  rewrite <- (sorted_refs_Permutation _ _ Hp), <- (Permutation_length Hp).
  destruct (sorted_refs_spec signed) as (Hs & Hin).
  destruct (Nat.eqb_spec (length (sorted_refs signed)) (length signed))
    as [El | Nl]; [| reflexivity].
  destruct (Z.leb_spec (Z.of_nat (length signed)) (2 ^ 64)) as [Hn | Hn];
    [| reflexivity].
  cbn [andb].
  assert (Hnd : NoDup (sorted_refs signed)) by (apply strictly_sorted_NoDup; exact Hs).
  assert (Hnd' : NoDup signed).
  { apply (NoDup_incl_NoDup Hnd); [lia |]. intros x Hx. apply Hin. exact Hx. }
  assert (Hrefs : Permutation (sorted_refs signed) signed)
    by (apply NoDup_Permutation; assumption).
  assert (Hvalue : forall l, Permutation signed l ->
            in_order l (map (fun v => position_of v l) (sorted_refs signed))
            = sorted_refs signed).
  { intros l Hl. unfold in_order. rewrite map_map.
    rewrite <- (map_id (sorted_refs signed)) at 2.
    apply map_ext_in. intros v Hv. apply Hin in Hv.
    apply (Permutation_in _ Hl) in Hv.
    destruct (position_of_spec v l Hv) as (Hr & Hnth).
    rewrite <- (Permutation_length Hl) in Hr.
    rewrite to_size_t_small by lia. exact Hnth. }
  split.
  - rewrite <- (positions_of_all signed Hnd').
    apply Permutation_map. exact Hrefs.
  - rewrite (Hvalue signed (Permutation_refl _)), (Hvalue signed' Hp).
    reflexivity.
Qed.

Lemma report_all_by_geometry (point : Point_3) (owner : list Triangle -> Z) :
  index_by_geometry (fun ts _ => (point, owner ts)) report_all.
Proof.
  constructor; [reflexivity |].
  exists (fun _ _ => true). intros ts g. unfold report_all. split.
  - apply NoDup_map_of_nat, seq_NoDup.
  - intros k. rewrite in_map_iff. split.
    + intros (n & <- & Hn). apply in_seq in Hn. split; [lia |].
      rewrite Nat2Z.id. destruct (nth_error_lt ts n) as (t & Ht); [lia |].
      exists t. auto.
    + intros (Hk & t & Ht & _). exists (Z.to_nat k). split; [lia |].
      apply in_seq. split; [lia |]. apply nth_error_Some. cbn. congruence.
Qed.

(** C9 fails as worded: on the roof the middle of the ridge is the
    nearest point of the query above it and lies on both facets.  With an
    index that names the first triangle of its list as the owner, the
    subsets [0;1] and [1;0] return facet 0 and facet 1 for the same
    query, although index and ordering meet their contracts. *)
Lemma subset_order_changes_tie : ~ subset_order_is_irrelevant.
Proof.
  intros Hclaim.
  pose proof (Hclaim false nearest_on_ridge report_all order_by_reference
                V_roof F_roof [0; 1] [1; 0] [q_ridge] ts_roof ts_roof_reversed 0
                (index_contract_samples nearest_on_ridge (fun _ _ => eq_refl))
                (report_all_by_geometry mid_ridge (fun _ => 0))
                order_by_reference_by_geometry
                ltac:(repeat constructor; vm_compute; congruence)
                (perm_swap 1 0 []) eq_refl eq_refl) as H.
  vm_compute in H. discriminate H.
Qed.

(** C9 on the roof, with an index that names the facet with corner 0 at
    the origin as the owner: the subsets [0;1] and [1;0] are reported in
    different orders and give the same answer. *)
Lemma roof_subset_reordered :
  resolve false nearest_by_shape report_all order_by_reference
    V_roof F_roof [0; 1] [q_ridge] ts_roof 0
  = resolve false nearest_by_shape report_all order_by_reference
      V_roof F_roof [1; 0] [q_ridge] ts_roof_reversed 0.
Proof.
  destruct (reordered_subset_same_answer false nearest_by_shape report_all
              order_by_reference V_roof F_roof [q_ridge] [0; 1] [1; 0] ts_roof
              0 q_ridge
              (report_all_by_geometry mid_ridge
                 (fun ts => hd 0 (positions has_origin ts 0)))
              order_by_reference_by_geometry
              ltac:(repeat constructor; vm_compute; congruence)
              (perm_swap 1 0 []) eq_refl eq_refl) as (ts' & Hts' & Hsame).
  vm_compute in Hts'. inversion Hts'; subst ts'. apply Hsame.
  exists 0. split; reflexivity.
Defined.

End ReorderedRoof.

(** ** The further statements at concrete inputs *)

Section MoreInstances.

Import Samples MoreSamples.

(** X1 for facet 5 seen against the edge direction. *)
Lemma signed_index_of_facet_5 :
  index_to_signed_index 5 false <> 0
  /\ (index_to_signed_index 5 false <? 0) = negb false
  /\ Z.abs (index_to_signed_index 5 false) - 1 = 5
  /\ index_to_signed_index (2 ^ 31 - 1) true
     = index_to_signed_index (2 ^ 31 - 1) false.
Proof. apply (signed_index_round_trip 5 false). lia. Defined.

(** X2 on the single triangle, query above its plane. *)
Lemma side_of_reversed_triangle :
  on_the_positive_side false V_tri F_tri_rotated 0 (pt 0 0 1)
  = on_the_positive_side false V_tri F_tri 0 (pt 0 0 1)
  /\ on_the_positive_side false V_tri F_tri_flipped 0 (pt 0 0 1)
     = negated (on_the_positive_side false V_tri F_tri 0 (pt 0 0 1)).
Proof.
  exact (positive_side_follows_winding false V_tri F_tri F_tri_flipped
           F_tri_rotated 0 (0, 1, 2) (pt 0 0 1) eq_refl eq_refl eq_refl).
Defined.

(** X3 on the single triangle, edge (0,1). *)
Lemma direction_on_reversed_triangle :
  get_orientation false F_tri 0 1 0 = negated (get_orientation false F_tri 0 0 1)
  /\ get_orientation false F_tri_flipped 0 0 1
     = negated (get_orientation false F_tri 0 0 1).
Proof.
  apply (proj2 (get_orientation_follows_winding false F_tri F_tri_flipped
                  F_tri_rotated 0 0 1 (0, 1, 2) eq_refl eq_refl eq_refl)).
  - repeat split; vm_compute; congruence.
  - repeat split; vm_compute; congruence.
Defined.

(** X4 on the single triangle, for the middle of edge (0,1). *)
Lemma middle_of_edge_fits_dispatch :
  0 <= 2 < 3
  /\ ((point_eqb (mkPoint (1 # 2) 0 0) (vertex t_tri 0) = false
       /\ point_eqb (mkPoint (1 # 2) 0 0) (vertex t_tri 1) = false
       /\ point_eqb (mkPoint (1 # 2) 0 0) (vertex t_tri 2) = false)
      /\ collinear (vertex t_tri (Z.to_nat ((2 + 1) mod 3)))
           (vertex t_tri (Z.to_nat ((2 + 2) mod 3))) (mkPoint (1 # 2) 0 0)
         = true).
Proof.
  exact (element_type_fits_dispatch [t_tri] (mkPoint (1 # 2) 0 0) 0 t_tri
           EDGE 2 eq_refl eq_refl).
Defined.

(** X5 on the single triangle with an index that reports nothing. *)
Lemma edge_case_with_silent_index :
  process_edge_case false report_none order_as_given V_tri F_tri [0]
    [pt 0 0 1] [t_tri] 0 0 1 0 = Abort AssertIntersectedNonEmpty
  /\ is_ok (process_edge_case false report_none order_as_given V_tri F_tri [0]
              [pt 0 0 1] [t_tri] 0 0 1 0) = false.
Proof.
  exact (edge_case_without_facets false report_none order_as_given V_tri F_tri
           [0] [pt 0 0 1] [t_tri] 0 0 1 0 (pt 0 0 0) (pt 1 0 0) (pt 0 0 1)
           eq_refl eq_refl eq_refl eq_refl).
Defined.

(** X6 on the wedge, shared vertex 0. *)
Lemma adjacent_vertices_on_wedge :
  StronglySorted Z.lt [1; 2; 3]
  /\ NoDup [1; 2; 3]
  /\ ~ In 0 [1; 2; 3]
  /\ forall x, In x [1; 2; 3] <->
       x <> 0 /\ exists fid f, In fid [0; 1]
                               /\ eigen_at false F_wedge (to_index fid) = Ok f
                               /\ In x (facet_vertices f).
Proof.
  apply (adjacent_vertices_are_the_other_corners false F_wedge 0 [0; 1] [1; 2; 3]).
  reflexivity.
Defined.

(** X7 on three facets around corner 0 of a tetrahedron, query
    (1,1,-1): the search returns vertex 1, with the plane through
    vertices 0, 1 and 2. *)
Lemma second_vertex_on_corner_fan :
  1 = SIZE_MAX
  \/ (1 <> 0
      /\ (exists fid f, In fid [0; 1; 2]
                        /\ eigen_at false F_fan (to_index fid) = Ok f
                        /\ In 1 (facet_vertices f))
      /\ exists adj_points pd pj,
           eigen_at false V_fan (to_index 1) = Ok pd
           /\ In pd adj_points /\ In pj adj_points
           /\ (forall p, In p adj_points <->
                 exists v fid f, eigen_at false V_fan (to_index v) = Ok p
                   /\ v <> 0 /\ In fid [0; 1; 2]
                   /\ eigen_at false F_fan (to_index fid) = Ok f
                   /\ In v (facet_vertices f))
           /\ let separator := plane_from_points (pt 0 0 0) pd pj in
              plane_is_degenerate separator = false
              /\ oriented_side separator (pt 1 1 (-1)) <> ZERO
              /\ Forall (fun p => oriented_side separator p
                                  <> oriented_side separator (pt 1 1 (-1)))
                   adj_points).
Proof.
  apply (second_vertex_is_extremal false V_fan F_fan 0 (pt 0 0 0)
           (pt 1 1 (-1)) [0; 1; 2] 1).
  vm_compute. reflexivity.
Defined.

(** X8 on the single triangle, query above corner 0. *)
Lemma returned_facet_on_single_triangle :
  exists q owner s d vs vd prim fi f,
    eigen_at false [pt 0 0 1] (to_index 0) = Ok q
    /\ eigen_at false [0]
         (to_index (to_size_t (snd (nearest_corner0 [t_tri] q)))) = Ok owner
    /\ process_edge_case false report_all order_never V_tri F_tri [0]
         [pt 0 0 1] [t_tri] 0 s d (to_size_t owner) = Ok (0, true)
    /\ eigen_at false V_tri (to_index s) = Ok vs
    /\ eigen_at false V_tri (to_index d) = Ok vd
    /\ In prim (report_all [t_tri] (midpoint vs vd, q))
    /\ eigen_at false [0] prim = Ok fi /\ In fi [0] /\ 0 = to_size_t fi
    /\ eigen_at false F_tri (to_index 0) = Ok f
    /\ In s (facet_vertices f) /\ In d (facet_vertices f)
    /\ is_ok (get_orientation false F_tri 0 s d) = true.
Proof.
  apply (returned_facet_is_intersected false nearest_corner0 report_all
           order_never V_tri F_tri [0] [pt 0 0 1] [t_tri] 0 0 true).
  vm_compute. reflexivity.
Defined.

(** X9 on the single triangle, two queries. *)
Lemma two_queries_answered :
  exists triangles,
    build_triangles false V_tri F_tri [0] = Ok triangles
    /\ length [Some 0; Some 0] = 2%nat
    /\ length [Some 1; Some 0] = 2%nat
    /\ forall k, (k < 2)%nat ->
         exists fid ori fi,
           resolve false nearest_corner0 report_all order_never V_tri F_tri [0]
             [pt 0 0 1; pt 0 0 (-1)] triangles (Z.of_nat k) = Ok (fid, ori)
           /\ In fi [0] /\ fid = to_size_t fi
           /\ nth_error [Some 0; Some 0] k = Some (Some (to_int fid))
           /\ (int_range fi -> nth_error [Some 0; Some 0] k = Some (Some fi))
           /\ nth_error [Some 1; Some 0] k = Some (Some (if ori then 1 else 0)).
Proof.
  apply (normal_run_answers_every_query false nearest_corner0 report_all
           order_never V_tri F_tri [0] [pt 0 0 1; pt 0 0 (-1)] no_out
           (mkOut [Some 0; Some 0] [Some 1; Some 0])).
  vm_compute. reflexivity.
Defined.

(** X10 on the single triangle: the second query lies in its plane. *)
Lemma second_query_fails :
  let run := closest_facet false nearest_corner0 report_all order_never
               V_tri F_tri [0] P_above_then_coplanar no_out in
  ((F_tri = [] \/ [0] = []) /\ fst run = Throw EmptyMesh /\ snd run = no_out)
  \/ (is_ok (build_triangles false V_tri F_tri [0]) = false
      /\ fst run = status (build_triangles false V_tri F_tri [0])
      /\ snd run = no_out)
  \/ exists triangles m,
       build_triangles false V_tri F_tri [0] = Ok triangles
       /\ (m < length P_above_then_coplanar)%nat
       /\ is_ok (resolve false nearest_corner0 report_all order_never V_tri
                   F_tri [0] P_above_then_coplanar triangles (Z.of_nat m))
          = false
       /\ fst run
          = status (resolve false nearest_corner0 report_all order_never V_tri
                      F_tri [0] P_above_then_coplanar triangles (Z.of_nat m))
       /\ (forall k, (k < m)%nat ->
             exists fid ori,
               resolve false nearest_corner0 report_all order_never V_tri
                 F_tri [0] P_above_then_coplanar triangles (Z.of_nat k)
               = Ok (fid, ori)
               /\ nth_error (out_R (snd run)) k = Some (Some (to_int fid))
               /\ nth_error (out_S (snd run)) k
                  = Some (Some (if ori then 1 else 0)))
       /\ (forall k, (m <= k)%nat ->
             nth_error (out_R (snd run)) k
             = nth_error (resize (length P_above_then_coplanar)
                            (out_R no_out)) k
             /\ nth_error (out_S (snd run)) k
                = nth_error (resize (length P_above_then_coplanar)
                               (out_S no_out)) k).
Proof.
  cbv zeta.
  apply (failed_run_keeps_earlier_answers false nearest_corner0 report_all
           order_never V_tri F_tri [0] P_above_then_coplanar no_out).
  - vm_compute. reflexivity.
  - vm_compute. discriminate.
Defined.

(** X11 for the second of the two queries. *)
Lemma second_query_alone :
  resolve false nearest_corner0 report_all order_never V_tri F_tri [0]
    P_above_then_coplanar [t_tri] (Z.of_nat 1)
  = resolve false nearest_corner0 report_all order_never V_tri F_tri [0]
      [pt (-1) (-1) 0] [t_tri] 0.
Proof.
  apply (query_is_resolved_alone false nearest_corner0 report_all order_never
           V_tri F_tri [0] P_above_then_coplanar [t_tri] 1 (pt (-1) (-1) 0)).
  - reflexivity.
  - vm_compute. reflexivity.
Defined.

(** X12 on the roof with the subset [1;0]. *)
Lemma triangles_of_reversed_roof_subset :
  length (rev ts_roof) = length [1; 0]
  /\ forall k fi, nth_error [1; 0] k = Some fi ->
       exists t, nth_error (rev ts_roof) k = Some t
                 /\ facet_triangle false V_roof F_roof fi t.
Proof.
  apply (proj2 (triangles_follow_subset false V_roof F_roof [1; 0])).
  vm_compute. reflexivity.
Defined.

(** X13 on the roof, query above the ridge. *)
Lemma all_facets_of_roof :
  length [Some 0] = length [q_ridge]
  /\ forall k, (k < length [q_ridge])%nat ->
       exists fi, 0 <= fi < Z.of_nat (length F_roof)
                  /\ nth_error [Some 0] k = Some (Some fi).
Proof.
  apply (proj2 (all_facets_overload false nearest_mid01 report_all
                  order_as_given V_roof F_roof [q_ridge] no_out
                  (mkOut [Some 0] [Some 1]))).
  - vm_compute. reflexivity.
  - vm_compute. reflexivity.
Defined.

(** X14 on three faces in two patches, distance votes. *)
Lemma three_faces_flags_by_votes :
  exists I,
    reorient_facets_raycast false Q 0%Q Qplus qlt 3 [0; 0; 1] false rays_sample
    = Ok I
    /\ forall f c,
         nth_error [0; 0; 1] f = Some c ->
         let rs := rays_of_patch Q [0; 0; 1] c rays_sample in
         nth_error I f
         = Some (if (escaped Q (front_hits Q) rs 0 =? escaped Q (back_hits Q) rs 0)
                    && qlt (distance_sum Q Qplus (front_hits Q) rs 0%Q)
                           (distance_sum Q Qplus (back_hits Q) rs 0%Q)
                    || (escaped Q (front_hits Q) rs 0
                        <? escaped Q (back_hits Q) rs 0)
                 then 1 else 0).
Proof.
  apply (flags_follow_votes false Q 0%Q Qplus qlt 3 [0; 0; 1] false rays_sample).
  - reflexivity.
  - lia.
  - repeat constructor; lia.
  - repeat constructor; cbn; lia.
Defined.

(** X15 on three faces: no ray starts on patch 1. *)
Lemma patch_1_without_rays :
  exists I,
    reorient_facets_raycast false Q 0%Q Qplus qlt 3 [0; 0; 1] false
      rays_on_patch0 = Ok I
    /\ forall f, nth_error [0; 0; 1] f = Some 1 -> nth_error I f = Some 0.
Proof.
  apply (patch_without_rays_is_not_flipped false Q 0%Q Qplus qlt 3 [0; 0; 1]
           false rays_on_patch0 1).
  - reflexivity.
  - lia.
  - repeat constructor; lia.
  - repeat constructor; cbn; lia.
  - reflexivity.
  - intros _. reflexivity.
Defined.

(** X16 on the single triangle, query at corner 0. *)
Lemma query_at_corner_0 :
  is_ok (process_vertex_case false report_all order_never V_tri F_tri [0]
           [pt 0 0 0] [t_tri] 0 0 0) = false.
Proof.
  apply (proj1 (query_at_vertex_is_not_resolved false report_all order_never
                  V_tri F_tri [0] [pt 0 0 0] [t_tri] 0 0 0
                  (pt 0 0 0) (pt 0 0 0) eq_refl eq_refl eq_refl)).
Defined.

(** X17 at corner 0 of the wedge with a third facet closing it, query
    (-1,-1,-1): rows 0 and 1 both find an exterior plane, and vertex 2 of
    row 1 is kept. *)
Lemma second_extremal_vertex_kept :
  search_i false [pt 1 0 0; pt 0 1 0; pt 0 0 1] (pt 0 0 0) (pt (-1) (-1) (-1))
    [1; 2; 3] [pt 1 0 0; pt 0 1 0; pt 0 0 1] SIZE_MAX = Ok 2.
Proof.
  apply (last_extremal_vertex_is_kept false [pt 1 0 0; pt 0 1 0; pt 0 0 1]
           (pt 0 0 0) (pt (-1) (-1) (-1)) [1; 2; 3]
           [pt 1 0 0; pt 0 1 0; pt 0 0 1] SIZE_MAX 1 2).
  - reflexivity.
  - reflexivity.
  - vm_compute. reflexivity.
  - intros k Hk. assert (k = 0%nat) by lia. subst k. vm_compute. reflexivity.
  - intros k Hk. cbn [length] in Hk. assert (k = 2%nat) by lia. subst k.
    vm_compute. reflexivity.
Defined.

End MoreInstances.
